(** * AutoForce: the on-the-fly update controller and the pair kernels

    A shallow embedding of [theforce/dynamics/leapfrog.py] (the [Leapfrog]
    driver) and of [theforce/similarity/pair.py] (the pair similarity
    kernels), with the properties of both that the specification states.

    Conventions.
    - Python integers are [Z]; energies, temperatures and thresholds of the
      driver are rationals ([Q]), so every decision of the driver computes.
    - Tensors of the pair kernels are lists over the real numbers ([R]);
      both are the exact-arithmetic reading of the floating-point code.
    - Code that raises returns in the [result] type; the [while] loop of
      [run_updates] takes fuel and says so when it runs out. *)

From Stdlib Require Import List ZArith QArith Bool Lia Sorted Permutation.
From Stdlib Require Import Reals Lra R_Ifp.
From Stdlib Require String.
Import ListNotations.

Set Implicit Arguments.

(* ================================================================= *)
(** ** Part I.  Definitions                                           *)
(* ================================================================= *)

Module Leapfrog.

Local Open Scope Z_scope.

(** *** Exceptions and results *)

Inductive exn : Type :=
| IndexError          (* pop from an empty set, index out of range *)
| AttributeError      (* [data_plus] read before any [update_model] *)
| ZeroDivisionError   (* [steps / updates] with [updates = 0] *)
| ValueError.         (* [np.concatenate] on rows of different widths,
                         a probability outside [0, 1] *)

Inductive result (A : Type) : Type :=
| Ok (a : A)
| Raise (e : exn)
| OutOfFuel.

Arguments Ok {A} a.
Arguments Raise {A} e.
Arguments OutOfFuel {A}.

Definition bind {A B} (r : result A) (k : A -> result B) : result B :=
  match r with
  | Ok a => k a
  | Raise e => Raise e
  | OutOfFuel => OutOfFuel
  end.

Notation "x <- c1 ;; c2" := (bind c1 (fun x => c2))
  (at level 61, c1 at next level, right associativity).
Notation "' pat <- c1 ;; c2" := (bind c1 (fun x => match x with pat => c2 end))
  (at level 61, pat pattern, c1 at next level, right associativity).

(** *** Rational comparisons as the code writes them *)

Definition Qltb (x y : Q) : bool := negb (Qle_bool y x).
Definition Qgeb (x y : Q) : bool := Qle_bool y x.

(** [torch.finfo().tiny] of the default dtype (float32): 2^-126. *)
Definition tiny : Q := 1 # (2 ^ 126).

(** [fdiff] defaults to [float('inf')]. *)
Inductive Qinf : Type :=
| Fin (q : Q)
| Inf.

(** *** Python lists *)

Definition len {A} (l : list A) : Z := Z.of_nat (length l).

(** [l[-n:]] for [n >= 0]: the last [n] elements, and the whole list when
    [n = 0] (Python reads [-0] as [0]) or when [n] exceeds the length. *)
Definition last_slice {A} (n : Z) (l : list A) : list A :=
  if n =? 0 then l else skipn (length l - Z.to_nat n) l.

Definition Qsum (l : list Q) : Q := fold_right Qplus 0%Q l.

(** [np.array(l).mean()]; numpy returns nan on an empty array, which the
    driver never builds: the division by [updates] raises before. *)
Definition mean (l : list Q) : Q := (Qsum l / inject_Z (len l))%Q.

(** *** The surrogate potential

    [PosteriorPotential] lives in [theforce/regression/gppotential.py],
    outside the two source files; it is modelled from the specification. *)

Section Surrogate.

Variables Atoms Loc Forces : Type.

(** A structure carrying its targets: what [snapshot] returns after
    [copy.set_calculator(SinglePointCalculator(copy, energy, forces))]. *)
Record Snapshot : Type := mkSnapshot {
  snap_atoms : Atoms;
  snap_energy : Q;
  snap_forces : Forces
}.

(** Modelled from the spec: the surrogate `holds a training-set of whole
    structures ("data") and a set of inducing local environments
    ("references"); size of each is queryable'.  [X] is the inducing set,
    as [sizes] reads it. *)
Record Model : Type := mkModel {
  data : list Snapshot;
  X : list Loc
}.

(** Modelled from the spec: what the surrogate answers to an insertion
    attempt.  `each such mutation report[s] the magnitude of change (for
    thresholding)'; the acceptance rule itself is not fixed by the
    specification, so the magnitude and the verdict are both left to the
    surrogate. *)
Record Oracle : Type := mkOracle {
  atoms_change : Model -> Snapshot -> Q -> Qinf -> Q * Q;
  atoms_kept : Model -> Snapshot -> Q -> Qinf -> bool;
  inducing_change : Model -> Loc -> Q -> Q;
  inducing_kept : Model -> Loc -> Q -> bool;
  leakages : Model -> list Loc -> list Q
}.

Variable GP : Oracle.

(** Modelled from the spec: [add_structure(structure, ediff, fdiff) ->
    (delta_energy, delta_forces)] adds `exactly one structure ... at a time'
    at the end of the training set, or leaves the set as it is. *)
Definition add_1atoms (m : Model) (new : Snapshot) (ediff : Q) (fdiff : Qinf)
  : Model * (Q * Q) :=
  (if atoms_kept GP m new ediff fdiff
   then mkModel (data m ++ [new]) (X m)
   else m,
   atoms_change GP m new ediff fdiff).

(** Modelled from the spec: [add_inducing(local_env, ediff) ->
    change_magnitude], one inducing point at the end of the set or none. *)
Definition add_1inducing (m : Model) (loc : Loc) (ediff : Q) : Model * Q :=
  (if inducing_kept GP m loc ediff
   then mkModel (data m) (X m ++ [loc])
   else m,
   inducing_change GP m loc ediff).

(** Modelled from the spec: [remove_last_structure()], last in first out;
    `popping more entries than exist in the surrogate's training/inducing
    sets' is an error. *)
Definition pop_1data (m : Model) : result Model :=
  match data m with
  | [] => Raise IndexError
  | _ :: _ => Ok (mkModel (removelast (data m)) (X m))
  end.

(** Modelled from the spec: [remove_last_inducing()]. *)
Definition pop_1inducing (m : Model) : result Model :=
  match X m with
  | [] => Raise IndexError
  | _ :: _ => Ok (mkModel (data m) (removelast (X m)))
  end.

(** *** The world around the driver

    The integrator, the two calculators and the random source are
    collaborators of the driver; they are parameters here. *)

(** [atoms.calc.results]: what the surrogate calculator last computed. *)
Record Results : Type := mkResults {
  res_energy : Q;
  res_forces : Forces;
  res_stress : list Q
}.

Record World : Type := mkWorld {
  (* [new.loc]: the local environments of a structure *)
  locs : Atoms -> list Loc;
  (* the local environments of [self.atoms.calc.atoms] *)
  calc_locs : Atoms -> list Loc;
  (* [AutoForceCalculator(potential)] evaluated on a structure *)
  calculate : Model -> Atoms -> Results;
  (* [self.calculator]: the reference evaluation, on [copy.as_ase()] when
     [to_ase] is set and on [copy] otherwise *)
  reference : bool -> Atoms -> Q * Forces;
  get_temperature : Atoms -> Q;
  (* [self.dyn.run(1)], which reads and refreshes the calculator cache *)
  dyn_run : Model -> option Results -> Atoms -> Atoms * option Results;
  (* the n-th draw of [np.random.choice([True, False], p=[p, 1-p])], for
     [p] in [0, 1] (numpy refuses other values) *)
  choice : nat -> Q -> bool
}.

Variable W : World.

(** *** The driver's state *)

(** The algorithm is chosen by name at construction ([algorithm='fast']);
    a callable given in place of a name is outside this model. *)
Inductive Algorithm : Type :=
| robust
| fast
| fastfast
| ultrafast.

Record Config : Type := mkConfig {
  ediff : Q;
  fdiff : Qinf;
  skip : Z;
  skip_volatile : Z;
  algorithm : Algorithm;
  _volatile : Z;
  to_ase : bool
}.

(** The lines of the log file, without their time stamp. *)
Inductive Msg : Type :=
| MsgExtremum
| MsgUpdating
| MsgUpdate (tf : bool) (ndata ninducing nfp : Z)
| MsgExactEnergy (e : Q)
| MsgBreak (added_refs : Z) (change : Q)
| MsgStep (e t : Q)
| MsgSummary (steps_per_update e t : Q)
| MsgStress (stress : list Q).

(** The calls the driver makes on the surrogate, in order, each insertion
    with its outcome.  This is a ghost record: the code keeps no such list,
    it lets the order of insertions and removals be stated. *)
Inductive Call : Type :=
| Add1Atoms (new : Snapshot) (kept : bool)
| Add1Inducing (loc : Loc) (threshold change : Q) (kept : bool)
| Pop1Data
| Pop1Inducing.

(** The attributes of the [Leapfrog] object.  [atoms] is [dyn.atoms],
    [model] is [atoms.calc.potential], [results] is [atoms.calc.results];
    [data_plus] and [ref_plus] do not exist before the first
    [update_model]; [logged] is the log file and [fp_traj] the file
    [_FP.traj]; [draws] counts the random draws made so far. *)
Record State : Type := mkState {
  cfg : Config;
  atoms : Atoms;
  model : Model;
  results : option Results;
  step : Z;
  _fp : list Z;
  _fp_e : list Q;
  _ext : list Z;
  energy : list Q;
  temperature : list Q;
  data_plus : option Z;
  ref_plus : option Z;
  logged : list (Z * Msg);
  fp_traj : list Atoms;
  draws : nat;
  calls : list Call
}.

Definition set_atoms (v : Atoms) (s : State) : State :=
  mkState (cfg s) v (model s) (results s) (step s) (_fp s) (_fp_e s) (_ext s)
    (energy s) (temperature s) (data_plus s) (ref_plus s) (logged s)
    (fp_traj s) (draws s) (calls s).

Definition set_model (v : Model) (s : State) : State :=
  mkState (cfg s) (atoms s) v (results s) (step s) (_fp s) (_fp_e s) (_ext s)
    (energy s) (temperature s) (data_plus s) (ref_plus s) (logged s)
    (fp_traj s) (draws s) (calls s).

Definition set_results (v : option Results) (s : State) : State :=
  mkState (cfg s) (atoms s) (model s) v (step s) (_fp s) (_fp_e s) (_ext s)
    (energy s) (temperature s) (data_plus s) (ref_plus s) (logged s)
    (fp_traj s) (draws s) (calls s).

Definition set_step (v : Z) (s : State) : State :=
  mkState (cfg s) (atoms s) (model s) (results s) v (_fp s) (_fp_e s) (_ext s)
    (energy s) (temperature s) (data_plus s) (ref_plus s) (logged s)
    (fp_traj s) (draws s) (calls s).

(** [self._fp.append(step)], [self._fp_e.append(energy)] and the record
    appended to [_FP.traj]. *)
Definition record_fp (e : Q) (tmp : Atoms) (s : State) : State :=
  mkState (cfg s) (atoms s) (model s) (results s) (step s)
    (_fp s ++ [step s]) (_fp_e s ++ [e]) (_ext s)
    (energy s) (temperature s) (data_plus s) (ref_plus s) (logged s)
    (fp_traj s ++ [tmp]) (draws s) (calls s).

Definition set_ext (v : list Z) (s : State) : State :=
  mkState (cfg s) (atoms s) (model s) (results s) (step s) (_fp s) (_fp_e s) v
    (energy s) (temperature s) (data_plus s) (ref_plus s) (logged s)
    (fp_traj s) (draws s) (calls s).

Definition set_energy (v : list Q) (s : State) : State :=
  mkState (cfg s) (atoms s) (model s) (results s) (step s) (_fp s) (_fp_e s)
    (_ext s) v (temperature s) (data_plus s) (ref_plus s) (logged s)
    (fp_traj s) (draws s) (calls s).

Definition set_temperature (v : list Q) (s : State) : State :=
  mkState (cfg s) (atoms s) (model s) (results s) (step s) (_fp s) (_fp_e s)
    (_ext s) (energy s) v (data_plus s) (ref_plus s) (logged s)
    (fp_traj s) (draws s) (calls s).

Definition set_plus (d i : Z) (s : State) : State :=
  mkState (cfg s) (atoms s) (model s) (results s) (step s) (_fp s) (_fp_e s)
    (_ext s) (energy s) (temperature s) (Some d) (Some i) (logged s)
    (fp_traj s) (draws s) (calls s).

(** [self.log(mssge)]: one line, stamped with the current step. *)
Definition log (m : Msg) (s : State) : State :=
  mkState (cfg s) (atoms s) (model s) (results s) (step s) (_fp s) (_fp_e s)
    (_ext s) (energy s) (temperature s) (data_plus s) (ref_plus s)
    (logged s ++ [(step s, m)]) (fp_traj s) (draws s) (calls s).

Definition next_draw (s : State) : State :=
  mkState (cfg s) (atoms s) (model s) (results s) (step s) (_fp s) (_fp_e s)
    (_ext s) (energy s) (temperature s) (data_plus s) (ref_plus s) (logged s)
    (fp_traj s) (S (draws s)) (calls s).

Definition called (c : Call) (s : State) : State :=
  mkState (cfg s) (atoms s) (model s) (results s) (step s) (_fp s) (_fp_e s)
    (_ext s) (energy s) (temperature s) (data_plus s) (ref_plus s) (logged s)
    (fp_traj s) (draws s) (calls s ++ [c]).

(** *** Calls on the surrogate, as the driver makes them *)

Definition model_add_1atoms (new : Snapshot) (s : State) : (Q * Q) * State :=
  let (m, d) := add_1atoms (model s) new (ediff (cfg s)) (fdiff (cfg s)) in
  (d, called (Add1Atoms new (atoms_kept GP (model s) new (ediff (cfg s))
                               (fdiff (cfg s))))
        (set_model m s)).

Definition model_add_1inducing (loc : Loc) (threshold : Q) (s : State)
  : Q * State :=
  let (m, change) := add_1inducing (model s) loc threshold in
  (change, called (Add1Inducing loc threshold change
                     (inducing_kept GP (model s) loc threshold))
             (set_model m s)).

Definition model_pop_1data (s : State) : result State :=
  m <- pop_1data (model s) ;;
  Ok (called Pop1Data (set_model m s)).

Definition model_pop_1inducing (s : State) : result State :=
  m <- pop_1inducing (model s) ;;
  Ok (called Pop1Inducing (set_model m s)).

(** *** Properties of the driver *)

(** [sizes]: [len(self.model.data), len(self.model.X)]. *)
Definition sizes (s : State) : Z * Z :=
  (len (data (model s)), len (X (model s))).

Definition volatile (s : State) : bool :=
  len (_ext s) <=? _volatile (cfg s).

(** A property of the surrogate calculator is read from its cache, and
    computed with the current potential when the cache is empty. *)
Definition get_results (s : State) : Results * State :=
  match results s with
  | Some r => (r, s)
  | None =>
      let r := calculate W (model s) (atoms s) in
      (r, set_results (Some r) s)
  end.

(** *** snapshot *)

Definition snapshot (fake : bool) (copy : option Atoms) (s : State)
  : Snapshot * State :=
  let copy := match copy with None => atoms s | Some c => c end in
  if fake then
    let (r, s1) := get_results s in
    (mkSnapshot copy (res_energy r) (res_forces r), s1)
  else
    let (e, f) := reference W (to_ase (cfg s)) copy in
    let s1 := record_fp e copy s in
    (mkSnapshot copy e f, log (MsgExactEnergy e) s1).

(** *** The update algorithms *)

(** The threshold of one insertion attempt:
    [self.ediff if self.sizes[1] > 1 else torch.finfo().tiny]. *)
Definition threshold (s : State) : Q :=
  if snd (sizes s) >? 1 then ediff (cfg s) else tiny.

(** [for loc in new.loc: ... self.model.add_1inducing(loc, ediff)] *)
Fixpoint robust_loop (ls : list Loc) (s : State) : State :=
  match ls with
  | [] => s
  | loc :: rest =>
      let (_, s1) := model_add_1inducing loc (threshold s) s in
      robust_loop rest s1
  end.

(** [datafirst=None] draws the order at random. *)
Definition algorithm_robust (datafirst : option bool) (s : State) : State :=
  let (new, s1) := snapshot false None s in
  let (first, s2) :=
    match datafirst with
    | None => (choice W (draws s1) (1 # 2), next_draw s1)
    | Some b => (b, s1)
    end in
  let s3 := if first then snd (model_add_1atoms new s2) else s2 in
  let s4 := robust_loop (locs W (snap_atoms new)) s3 in
  if negb first then snd (model_add_1atoms new s4) else s4.

(** The loop of [algorithm_fast], with its counter [added_refs]. *)
Fixpoint fast_loop (ls : list Loc) (added_refs : Z) (s : State) : Z * State :=
  match ls with
  | [] => (added_refs, s)
  | loc :: rest =>
      let thr := threshold s in
      let (change, s1) := model_add_1inducing loc thr s in
      fast_loop rest (if Qgeb change thr then added_refs + 1 else added_refs) s1
  end.

Definition algorithm_fast (s : State) : State :=
  let (added_refs, s1) := fast_loop (calc_locs W (atoms s)) 0 s in
  if added_refs >? 0 then
    let (new, s2) := snapshot false None s1 in
    snd (model_add_1atoms new s2)
  else s1.

(** [torch.argsort(leaks, descending=True)]: the indices by decreasing
    leakage (equal leakages keep their order here; torch leaves it open). *)
Fixpoint insert_desc (x : nat * Q) (l : list (nat * Q)) : list (nat * Q) :=
  match l with
  | [] => [x]
  | y :: r => if Qle_bool (snd y) (snd x) then x :: l else y :: insert_desc x r
  end.

Definition argsort_desc (v : list Q) : list nat :=
  map fst (fold_right insert_desc [] (combine (seq 0 (length v)) v)).

(** The loop of [algorithm_fastfast] and [algorithm_ultrafast]: it breaks at
    the first attempt whose change is below the threshold. *)
Fixpoint ranked_loop (ls : list Loc) (q : list nat) (added_refs : Z) (s : State)
  : result (Z * State) :=
  match q with
  | [] => Ok (added_refs, s)
  | k :: rest =>
      match nth_error ls k with
      | None => Raise IndexError
      | Some loc =>
          let thr := threshold s in
          let (change, s1) := model_add_1inducing loc thr s in
          if Qgeb change thr
          then ranked_loop ls rest (added_refs + 1) s1
          else Ok (added_refs, log (MsgBreak added_refs change) s1)
      end
  end.

Definition algorithm_fastfast (s : State) : result State :=
  let ls := calc_locs W (atoms s) in
  let leaks := leakages GP (model s) ls in
  let q := argsort_desc leaks in
  '(added_refs, s1) <- ranked_loop ls q 0 s ;;
  if added_refs >? 0 then
    let (new, s2) := snapshot false None s1 in
    Ok (snd (model_add_1atoms new s2))
  else Ok s1.

Definition algorithm_ultrafast (s : State) : result State :=
  let ls := calc_locs W (atoms s) in
  let leaks := leakages GP (model s) ls in
  let q := argsort_desc leaks in
  '(added_refs, s1) <- ranked_loop ls q 0 s ;;
  if added_refs >? 0 then
    let a := len (data (model s1)) in
    let (new, s2) := snapshot true None s1 in
    let (_, s3) := model_add_1atoms new s2 in
    if len (data (model s3)) >? a then
      s4 <- model_pop_1data s3 ;;
      let (new', s5) := snapshot false (Some (snap_atoms new)) s4 in
      Ok (snd (model_add_1atoms new' s5))
    else Ok s3
  else Ok s1.

(** [self.algorithm()]: the method chosen by name at construction;
    [algorithm_robust] is then called with its default [datafirst=True]. *)
Definition run_algorithm (s : State) : result State :=
  match algorithm (cfg s) with
  | robust => Ok (algorithm_robust (Some true) s)
  | fast => Ok (algorithm_fast s)
  | fastfast => algorithm_fastfast s
  | ultrafast => algorithm_ultrafast s
  end.

(** *** update_model and undo_update *)

Definition update_model (s : State) : result (bool * State) :=
  let size1 := sizes s in
  s1 <- (if volatile s then Ok (algorithm_robust (Some true) s)
         else run_algorithm s) ;;
  let size2 := sizes s1 in
  let d := fst size2 - fst size1 in
  let i := snd size2 - snd size1 in
  let s2 := set_plus d i s1 in
  let tf := (d >? 0) || (i >? 0) in
  Ok (tf, if tf then set_results None s2 else s2).

(** [while d > 0: self.model.pop_1data(); d -= 1] *)
Fixpoint pop_data_loop (n : nat) (s : State) : result State :=
  match n with
  | O => Ok s
  | S n' => s1 <- model_pop_1data s ;; pop_data_loop n' s1
  end.

(** [while i > 0: self.model.pop_1inducing(); i -= 1] *)
Fixpoint pop_inducing_loop (n : nat) (s : State) : result State :=
  match n with
  | O => Ok s
  | S n' => s1 <- model_pop_1inducing s ;; pop_inducing_loop n' s1
  end.

Definition undo_update (s : State) : result State :=
  match data_plus s, ref_plus s with
  | Some d, Some i =>
      s1 <- pop_data_loop (Z.to_nat d) s ;;
      pop_inducing_loop (Z.to_nat i) s1
  | _, _ => Raise AttributeError
  end.

(** *** doit: the decision of one step *)

(** The check of [doit]: is the last energy step an extremum that counts? *)
Definition extremum (s : State) : bool :=
  match rev (energy s) with
  | e1 :: e2 :: e3 :: _ =>
      let d1 := (e1 - e2)%Q in
      let d2 := (e2 - e3)%Q in
      if Qltb (d1 * d2) 0 then
        match rev (_ext s) with
        | last_ext :: _ => negb (step s - last_ext =? 1)
        | [] => true
        end
      else false
  | _ => false
  end.

(** [np.random.choice([True, False], p=[prob, 1 - prob])]: numpy refuses
    a probability outside [0, 1] with [ValueError], before any draw. *)
Definition random_choice (prob : Q) (s : State) : result bool * State :=
  if Qle_bool 0 prob && Qle_bool prob 1
  then (Ok (choice W (draws s) prob), next_draw s)
  else (Raise ValueError, s).

(** [doit] returns its decision, or raises, with the driver as it has left
    it: what it has written before it raises stays written. *)
Definition doit (prob : Q) (s : State) : result bool * State :=
  let ext := extremum s in
  let last_fp := last (_fp s) 0 in
  if ext then
    let s1 := log MsgExtremum s in
    let s2 := set_ext (_ext s1 ++ [step s1]) s1 in
    if negb (volatile s2) && (last (_ext s2) 0 - last_fp <? skip (cfg s2))
    then (Ok false, s2)
    else random_choice prob s2
  else
    if volatile s &&
       (((step s =? 0) && (len (_fp s) =? 0))
        || (step s - last_fp >? skip_volatile (cfg s)))
    then (Ok true, s)
    else (Ok false, s).

(** *** run and run_updates *)

(** [if prob > 0 and self.doit(prob=prob): ... self.update_model() ...];
    the boolean tells whether [update_model] was called. *)
Definition decide_and_update (prob : Q) (s : State) : result (bool * State) :=
  if Qltb 0 prob then
    let (decision, s1) := doit prob s in
    go <- decision ;;
    if go then
      let s2 := log MsgUpdating s1 in
      '(tf, s3) <- update_model s2 ;;
      Ok (true,
          log (MsgUpdate tf (fst (sizes s3)) (snd (sizes s3)) (len (_fp s3))) s3)
    else Ok (false, s1)
  else Ok (false, s).

(** [self.dyn.run(1); self.step += 1] *)
Definition dyn_step (s : State) : State :=
  let (a, r) := dyn_run W (model s) (results s) (atoms s) in
  let s1 := set_results r (set_atoms a s) in
  set_step (step s1 + 1) s1.

Definition get_potential_energy (s : State) : Q * State :=
  let (r, s1) := get_results s in (res_energy r, s1).

Definition get_stress (s : State) : list Q * State :=
  let (r, s1) := get_results s in (res_stress r, s1).

Definition run_body (prob : Q) (s : State) : result State :=
  '(_, s1) <- decide_and_update prob s ;;
  let s2 := dyn_step s1 in
  let (e, s3) := get_potential_energy s2 in
  let s4 := set_energy (energy s3 ++ [e]) s3 in
  let t := get_temperature W (atoms s4) in
  let s5 := set_temperature (temperature s4 ++ [t]) s4 in
  Ok (log (MsgStep e t) s5).

Fixpoint run_loop (n : nat) (prob : Q) (s : State) : result State :=
  match n with
  | O => Ok s
  | S n' => s1 <- run_body prob s ;; run_loop n' prob s1
  end.

(** [for _ in range(maxsteps)] *)
Definition run (maxsteps : Z) (prob : Q) (s : State) : result State :=
  run_loop (Z.to_nat maxsteps) prob s.

(** The local variables of [run_updates]. *)
Record Counters : Type := mkCounters {
  updates : Z;
  steps : Z;
  stresses : list (list Q)
}.

Definition run_updates_body (prob : Q) (c : Counters) (s : State)
  : result (Counters * State) :=
  '(called_update, s1) <- decide_and_update prob s ;;
  let updates' := if called_update then updates c + 1 else updates c in
  let s2 := dyn_step s1 in
  let (e, s3) := get_potential_energy s2 in
  let s4 := set_energy (energy s3 ++ [e]) s3 in
  let (st, s5) := get_stress s4 in
  let t := get_temperature W (atoms s5) in
  let s6 := set_temperature (temperature s5 ++ [t]) s5 in
  Ok (mkCounters updates' (steps c + 1) (stresses c ++ [st]),
      log (MsgStep e t) s6).

(** [while updates < maxupdates: ...]; the loop need not end, so it runs on
    fuel. *)
Fixpoint run_updates_loop (fuel : nat) (maxupdates : Z) (prob : Q)
  (c : Counters) (s : State) : result (Counters * State) :=
  if updates c <? maxupdates then
    match fuel with
    | O => OutOfFuel
    | S fuel' =>
        '(c1, s1) <- run_updates_body prob c s ;;
        run_updates_loop fuel' maxupdates prob c1 s1
    end
  else Ok (c, s).

(** [stepped prob s ss]: [ss] are the states of the driver after each of
    the iterations of the loop of [run_updates] that begins in [s], in
    order. *)
Fixpoint stepped (prob : Q) (s : State) (ss : list State) : Prop :=
  match ss with
  | [] => True
  | s1 :: rest =>
      (exists c c1, run_updates_body prob c s = Ok (c1, s1))
      /\ stepped prob s1 rest
  end.

(** [np.concatenate(stresses).mean(axis=0)]: the mean of each column; the
    rows must have one width. *)
Fixpoint column_sums (rows : list (list Q)) (width : nat) : result (list Q) :=
  match rows with
  | [] => Ok (repeat 0%Q width)
  | r :: rest =>
      if Nat.eqb (length r) width then
        acc <- column_sums rest width ;;
        Ok (map (fun p => (fst p + snd p)%Q) (combine r acc))
      else Raise ValueError
  end.

Definition mean_axis0 (rows : list (list Q)) : result (list Q) :=
  match rows with
  | [] => Raise ValueError
  | r :: _ =>
      sums <- column_sums rows (length r) ;;
      Ok (map (fun x => (x / inject_Z (len rows))%Q) sums)
  end.

Definition run_updates (fuel : nat) (maxupdates : Z) (prob : Q) (s : State)
  : result ((Q * Q * Q * list Q) * State) :=
  '(c, s1) <- run_updates_loop fuel maxupdates prob (mkCounters 0 0 []) s ;;
  if updates c =? 0 then Raise ZeroDivisionError else
  let steps_per_update := (inject_Z (steps c) / inject_Z (updates c))%Q in
  let average_energy := mean (last_slice (steps c) (energy s1)) in
  let average_temp := mean (last_slice (steps c) (temperature s1)) in
  let s2 := log (MsgSummary steps_per_update average_energy average_temp) s1 in
  stress <- mean_axis0 (stresses c) ;;
  Ok ((steps_per_update, average_energy, average_temp, stress),
      log (MsgStress stress) s2).

(** *** Reading the log and the record of calls *)

(** What a run appended to a list that only grows. *)
Definition appended {A} (before after : list A) : list A :=
  skipn (length before) after.

Definition new_calls (s s' : State) : list Call := appended (calls s) (calls s').
Definition new_log (s s' : State) : list (Z * Msg) :=
  appended (logged s) (logged s').

(** The line [updating ...], written before each call of [update_model]. *)
Definition is_updating (l : Z * Msg) : bool :=
  match snd l with MsgUpdating => true | _ => false end.

(** The line [update: ...], written after each call of [update_model] with
    what it returned. *)
Definition is_update (l : Z * Msg) : bool :=
  match snd l with MsgUpdate _ _ _ _ => true | _ => false end.

(** The line [update: True ...]: a call of [update_model] that grew the
    surrogate. *)
Definition is_growth (l : Z * Msg) : bool :=
  match snd l with MsgUpdate true _ _ _ => true | _ => false end.

Definition count {A} (f : A -> bool) (l : list A) : Z := len (filter f l).

(** An insertion attempt of an inducing point whose reported change
    reached its threshold ([change >= ediff]). *)
Definition exceeded (c : Call) : bool :=
  match c with
  | Add1Inducing _ threshold change _ => Qgeb change threshold
  | _ => false
  end.

Definition is_add_1inducing (c : Call) : bool :=
  match c with Add1Inducing _ _ _ _ => true | _ => false end.

(** The removals that take back what a list of calls inserted, the last
    insertion first. *)
Definition removal_of (c : Call) : list Call :=
  match c with
  | Add1Atoms _ true => [Pop1Data]
  | Add1Inducing _ _ _ true => [Pop1Inducing]
  | _ => []
  end.

Definition reverse_removals (cs : list Call) : list Call :=
  rev (flat_map removal_of cs).

(** The surrogate ranks as many environments as it is given. *)
Definition leakages_sound : Prop :=
  forall m ls, length (leakages GP m ls) = length ls.

(** *** What an update may change

    The lines an update algorithm writes are neither [updating ...] nor
    [update: ...]. *)
Definition quiet (l : Z * Msg) : Prop :=
  is_updating l = false /\ is_update l = false /\ is_growth l = false.

(** [Frame s s']: from [s] to [s'] the trajectory stood still, the two sets
    of the surrogate and the records of the driver only grew. *)
Record Frame (s s' : State) : Prop := mkFrame {
  fr_cfg : cfg s' = cfg s;
  fr_atoms : atoms s' = atoms s;
  fr_step : step s' = step s;
  fr_energy : energy s' = energy s;
  fr_temperature : temperature s' = temperature s;
  fr_ext : _ext s' = _ext s;
  fr_data : exists dl, data (model s') = data (model s) ++ dl;
  fr_X : exists xl, X (model s') = X (model s) ++ xl;
  fr_log : exists l, logged s' = logged s ++ l /\ Forall quiet l;
  fr_fp : exists f, _fp s' = _fp s ++ f;
  fr_calls : exists c, calls s' = calls s ++ c
}.

(** The reading of [undo_update] as a mirror of the insertions: the
    removals it makes are those of the insertions of the update before it,
    the last insertion first. *)
Definition undo_mirrors_update (s : State) : Prop :=
  forall tf s1 s2,
    update_model s = Ok (tf, s1) ->
    undo_update s1 = Ok s2 ->
    new_calls s1 s2 = reverse_removals (new_calls s s1).

(** The reading of [run_updates] as a count of growths: when it returns,
    [maxupdates] calls of [update_model] have grown the surrogate. *)
Definition counts_only_growths (fuel : nat) (maxupdates : Z) (prob : Q)
  (s : State) : Prop :=
  forall r s',
    run_updates fuel maxupdates prob s = Ok (r, s') ->
    count is_growth (new_log s s') = maxupdates.

(** The reading of FAST as an insertion: the reference evaluation is made
    and its structure is in the training data after the algorithm exactly
    when the change of some attempt reached its threshold. *)
Definition fast_inserts_iff_exceeded (s : State) : Prop :=
  let s' := algorithm_fast s in
  (_fp s' = _fp s ++ [step s]
   /\ exists new, data (model s') = data (model s) ++ [new])
  <-> existsb exceeded (new_calls s s') = true.

(** The reading of a second [undo_update] as a call that cannot raise:
    after an update and its undo, one more undo returns. *)
Definition second_undo_returns (s : State) : Prop :=
  forall tf s1 s2,
    update_model s = Ok (tf, s1) ->
    undo_update s1 = Ok s2 ->
    exists s3, undo_update s2 = Ok s3.

(** The environment an insertion attempt offered to the surrogate. *)
Definition call_loc (c : Call) : list Loc :=
  match c with
  | Add1Inducing loc _ _ _ => [loc]
  | _ => []
  end.

(** [Screened s s' cs]: from [s] to [s'] the driver only offered
    environments to the surrogate, by the calls [cs]; no structure was
    evaluated or inserted. *)
Record Screened (s s' : State) (cs : list Call) : Prop := mkScreened {
  sc_calls : calls s' = calls s ++ cs;
  sc_only : Forall (fun c => is_add_1inducing c = true) cs;
  sc_data : data (model s') = data (model s);
  sc_fp : _fp s' = _fp s;
  sc_results : results s' = results s;
  sc_atoms : atoms s' = atoms s;
  sc_step : step s' = step s;
  sc_cfg : cfg s' = cfg s
}.

(** *** The rest of the driver *)

(** [l[k]] for a Python integer [k]: counted from the end when [k] is
    negative, an error outside the list. *)
Definition py_index {A} (l : list A) (k : Z) : result A :=
  let k' := if k <? 0 then k + len l else k in
  if k' <? 0 then Raise IndexError
  else match nth_error l (Z.to_nat k') with
       | Some x => Ok x
       | None => Raise IndexError
       end.

(** [[f(x) for x in l]], which stops at the first element that raises. *)
Fixpoint comprehension {A B} (f : A -> result B) (l : list A)
  : result (list B) :=
  match l with
  | [] => Ok []
  | x :: r => y <- f x ;; ys <- comprehension f r ;; Ok (y :: ys)
  end.

(** The property [ext_nodes]:
    [self._ext, [self.energy[k] for k in self._ext]]. *)
Definition ext_nodes (s : State) : result (list Z * list Q) :=
  es <- comprehension (py_index (energy s)) (_ext s) ;;
  Ok (_ext s, es).

(** [atoms.loc[j]] for an index [j] that is not negative. *)
Definition loc_at (ls : list Loc) (j : nat) : result Loc :=
  match nth_error ls j with
  | Some loc => Ok loc
  | None => Raise IndexError
  end.

(** The loop of [initial_model]:
    [for j in range(atoms.natoms): if j not in i: model.add_1inducing(...)]. *)
Fixpoint initial_loop (ls : list Loc) (i : list nat) (threshold : Q)
  (js : list nat) (m : Model) : result Model :=
  match js with
  | [] => Ok m
  | j :: rest =>
      if existsb (Nat.eqb j) i then initial_loop ls i threshold rest m
      else
        loc <- loc_at ls j ;;
        initial_loop ls i threshold rest (fst (add_1inducing m loc threshold))
  end.

(** [initial_model(gp, atoms, ediff)].  [i] is what
    [atoms.first_of_each_atom_type()] returns and [natoms] is
    [atoms.natoms]; both belong to the structure and are given. *)
Definition initial_model (i : list nat) (natoms : nat) (atoms : Snapshot)
  (threshold : Q) : result Model :=
  let ls := locs W (snap_atoms atoms) in
  inducing <- comprehension (loc_at ls) i ;;
  initial_loop ls i threshold (seq 0 natoms) (mkModel [atoms] inducing).

(** *** What a run keeps *)

(** [Grows s s']: the configuration is the same and nothing recorded was
    lost: the two sets of the surrogate, the flagged steps and the steps of
    the reference evaluations of [s'] begin with those of [s]. *)
Record Grows (s s' : State) : Prop := mkGrows {
  gr_cfg : cfg s' = cfg s;
  gr_data : exists dl, data (model s') = data (model s) ++ dl;
  gr_X : exists xl, X (model s') = X (model s) ++ xl;
  gr_ext : exists l, _ext s' = _ext s ++ l;
  gr_fp : exists f, _fp s' = _fp s ++ f
}.

(** [References s s' n]: from [s] to [s'] the configuration, the structure
    and the step stood still and [n] reference evaluations of that
    structure were made, each recorded at that step with the energy the
    reference calculator gave and with the structure. *)
Record References (s s' : State) (n : nat) : Prop := mkReferences {
  rf_cfg : cfg s' = cfg s;
  rf_atoms : atoms s' = atoms s;
  rf_step : step s' = step s;
  rf_fp : _fp s' = _fp s ++ repeat (step s) n;
  rf_fp_e :
    _fp_e s'
    = _fp_e s ++ repeat (fst (reference W (to_ase (cfg s)) (atoms s))) n;
  rf_traj : fp_traj s' = fp_traj s ++ repeat (atoms s) n
}.

(** The steps of [l], read from the last one, lie in [0, bound) and no two
    of them are equal or next to each other. *)
Fixpoint spaced_down (l : list Z) (bound : Z) : Prop :=
  match l with
  | [] => True
  | x :: r => 0 <= x < bound /\ spaced_down r (x - 1)
  end.

(** The state between two steps of [run], as the constructor leaves it
    ([step = 0], one energy, one temperature, no flagged step): an energy
    and a temperature for each step so far, flagged steps that are past
    and apart, reference evaluations that are past and fully recorded. *)
Record Consistent (s : State) : Prop := mkConsistent {
  co_step : 0 <= step s;
  co_energy : len (energy s) = step s + 1;
  co_temperature : len (temperature s) = step s + 1;
  co_ext : spaced_down (rev (_ext s)) (step s);
  co_fp : Forall (fun k => k <= step s) (_fp s);
  co_fp_e : length (_fp_e s) = length (_fp s);
  co_traj : length (fp_traj s) = length (_fp s)
}.

End Surrogate.

Arguments Pop1Data {Atoms Loc Forces}.
Arguments Pop1Inducing {Atoms Loc Forces}.
Arguments Add1Atoms {Atoms Loc Forces} new kept.
Arguments Add1Inducing {Atoms Loc Forces} loc threshold change kept.
Arguments exceeded {Atoms Loc Forces} c.
Arguments is_add_1inducing {Atoms Loc Forces} c.
Arguments call_loc {Atoms Loc Forces} c.
Arguments removal_of {Atoms Loc Forces} c.

(** *** A small world

    Structures are numbered by the step that produced them and have one
    local environment; the energy of the surrogate is 1 on even structures
    and 2 on odd ones, the reference energy is ten times that. *)

Definition wave (a : Z) : Q := if Z.even a then 1%Q else 2%Q.

Definition demo_world : World Z Z unit :=
  mkWorld
    (fun a => [a])
    (fun a => [a])
    (fun _ a => mkResults (wave a) tt [1%Q; 0%Q; 0%Q])
    (fun _ a => ((10 * wave a)%Q, tt))
    (fun _ => 300%Q)
    (fun _ _ a => (a + 1, None))
    (fun _ p => Qle_bool 1 p).

(** A surrogate that keeps every structure and every environment offered. *)
Definition keen : Oracle Z Z unit :=
  mkOracle (fun _ _ _ _ => (1%Q, 1%Q)) (fun _ _ _ _ => true)
    (fun _ _ _ => 1%Q) (fun _ _ _ => true)
    (fun _ ls => map (fun _ => 1%Q) ls).

(** A surrogate that finds nothing new in what it is offered. *)
Definition sated : Oracle Z Z unit :=
  mkOracle (fun _ _ _ _ => (0%Q, 0%Q)) (fun _ _ _ _ => false)
    (fun _ _ _ => 0%Q) (fun _ _ _ => false)
    (fun _ ls => map (fun _ => 0%Q) ls).

(** A surrogate that keeps environments and turns structures down. *)
Definition picky : Oracle Z Z unit :=
  mkOracle (fun _ _ _ _ => (0%Q, 0%Q)) (fun _ _ _ _ => false)
    (fun _ _ _ => 1%Q) (fun _ _ _ => true)
    (fun _ ls => map (fun _ => 1%Q) ls).

Definition demo_model : Model Z Z unit :=
  mkModel [mkSnapshot 0 10%Q tt] [0; 0].

Definition demo_cfg (alg : Algorithm) (vol skp : Z) : Config :=
  mkConfig (1 # 10) Inf skp 3 alg vol false.

(** The driver at step 0, as the constructor leaves it when it is given a
    model, with [volatile=vol] and [skip=skp]. *)
Definition demo_start (alg : Algorithm) (vol skp : Z) : State Z Z unit :=
  mkState (demo_cfg alg vol skp) 0 demo_model None 0 [] [] []
    [wave 0] [300%Q] None None [] [] 0 [].

(** The driver after one update in the volatile state, after that update
    is undone, and after it is undone once more. *)
Definition after_update (s : State Z Z unit) : State Z Z unit :=
  match update_model keen demo_world s with
  | Ok (_, s1) => s1
  | _ => s
  end.

Definition after_undo (s : State Z Z unit) : State Z Z unit :=
  match undo_update s with
  | Ok s1 => s1
  | _ => s
  end.

(** The driver after [n] steps of [run], with a model given and a surrogate
    that finds nothing new: the energies go 1, 2, 1, 2, ... *)
Definition demo_run (n : Z) : State Z Z unit :=
  match run sated demo_world n 1 (demo_start fast (-1) 10) with
  | Ok s => s
  | _ => demo_start fast (-1) 10
  end.

(** [run_updates(1)] with [skip=1], and what it returns. *)
Definition demo_run_updates : result (Q * Q * Q * list Q * State Z Z unit) :=
  run_updates sated demo_world 10 1 1 (demo_start fast (-1) 1).

Definition demo_report : Q * Q * Q * list Q :=
  match demo_run_updates with
  | Ok (r, _) => r
  | _ => (0%Q, 0%Q, 0%Q, [])
  end.

Definition demo_after_run_updates : State Z Z unit :=
  match demo_run_updates with
  | Ok (_, s) => s
  | _ => demo_start fast (-1) 1
  end.

Definition demo_updated : State Z Z unit := after_update (demo_start fast 2 1).
Definition demo_undone : State Z Z unit := after_undo demo_updated.

(** The small world with three local environments in each structure, and
    the driver there after one update in the volatile state and after that
    update is undone. *)
Definition wide_world : World Z Z unit :=
  mkWorld
    (fun a => [a; a + 1; a + 2])
    (fun a => [a; a + 1; a + 2])
    (calculate demo_world)
    (reference demo_world)
    (get_temperature demo_world)
    (dyn_run demo_world)
    (choice demo_world).

Definition wide_updated : State Z Z unit :=
  match update_model keen wide_world (demo_start fast 2 1) with
  | Ok (_, s1) => s1
  | _ => demo_start fast 2 1
  end.

Definition wide_undone : State Z Z unit := after_undo wide_updated.

End Leapfrog.

Module Pair.

Local Open Scope R_scope.

(** *** Tensors *)

(** A row of an [(n, 3)] tensor. *)
Definition Vec3 : Type := (R * R * R)%type.

Definition vzero : Vec3 := (0, 0, 0).

Definition vadd (a b : Vec3) : Vec3 :=
  let '(a1, a2, a3) := a in
  let '(b1, b2, b3) := b in
  (a1 + b1, a2 + b2, a3 + b3).

Definition vopp (a : Vec3) : Vec3 :=
  let '(a1, a2, a3) := a in (- a1, - a2, - a3).

(** [k * v] for a scalar [k]. *)
Definition vscale (k : R) (a : Vec3) : Vec3 :=
  let '(a1, a2, a3) := a in (k * a1, k * a2, k * a3).

(** [v / k] for a scalar [k]. *)
Definition vdiv (a : Vec3) (k : R) : Vec3 :=
  let '(a1, a2, a3) := a in (a1 / k, a2 / k, a3 / k).

(** [.sum(dim=...)] over a list of rows. *)
Definition vsum (l : list Vec3) : Vec3 := fold_right vadd vzero l.

Definition rsum (l : list R) : R := fold_right Rplus 0 l.

(** [zeros(n, 3)] *)
Definition zeros (n : nat) : list Vec3 := repeat vzero n.

Fixpoint set_nth {A} (l : list A) (k : nat) (v : A) : list A :=
  match l, k with
  | [], _ => []
  | _ :: r, O => v :: r
  | x :: r, S k' => x :: set_nth r k' v
  end.

(** [t.index_add(0, index, source)]: row [source[n]] is added to row
    [index[n]] of [t]; an index outside [t], or an [index] and a [source] of
    different lengths, raise (here [None]). *)
Fixpoint index_add (t : list Vec3) (index : list nat) (source : list Vec3)
  : option (list Vec3) :=
  match index, source with
  | [], [] => Some t
  | k :: index', v :: source' =>
      match nth_error t k with
      | Some x => index_add (set_nth t k (vadd x v)) index' source'
      | None => None
      end
  | _, _ => None
  end.

(** [.view(-1, 1)] of an [(n, 3)] tensor: the [3 n] entries, atom by atom. *)
Definition view_flat (t : list Vec3) : list R :=
  flat_map (fun a => let '(a1, a2, a3) := a in [a1; a2; a3]) t.

(** The sum over the atoms of the 3-vectors of a flat gradient. *)
Fixpoint atom_sum (g : list R) : Vec3 :=
  match g with
  | x :: y :: z :: rest => vadd (x, y, z) (atom_sum rest)
  | _ => vzero
  end.

(** [t[mask]] for a boolean mask given by row number. *)
Fixpoint masked_from {A} (n : nat) (mask : nat -> bool) (l : list A) : list A :=
  match l with
  | [] => []
  | x :: r =>
      if mask n then x :: masked_from (S n) mask r
      else masked_from (S n) mask r
  end.

Definition masked {A} (mask : nat -> bool) (l : list A) : list A :=
  masked_from 0 mask l.

(** [x ** eta] on the reals, as the floating-point power reads it: the
    exponential of [eta * ln x] on a positive base, the integer power when
    [eta] is a whole number.  Where the floating-point power is nan or
    infinite the value here has no meaning. *)
Definition tpow (x eta : R) : R :=
  if Rlt_dec 0 x then Rpower x eta
  else if Req_dec_T (frac_part eta) 0 then powerRZ x (Int_part eta)
  else 0.

(** *** The base kernel

    [self.kern] comes from the regression package: a `scalar function of
    two descriptor values' with its derivatives.  On an [(n,1)] and an
    [(m,1)] tensor it gives the [(n,m)] matrix of its values. *)
Record Kernel : Type := mkKernel {
  kern : R -> R -> R;
  kern_leftgrad : R -> R -> R;
  kern_rightgrad : R -> R -> R;
  kern_gradgrad : R -> R -> R
}.

(** ** Kernels defined for TorchAtoms *)

(** A local environment, as [calculate] reads it after [loc.select]. *)
Record Selected : Type := mkSelected {
  sel_i : list nat;
  sel_j : list nat;
  sel_r : list Vec3
}.

(** What [save_for_later] leaves on a structure for one kernel:
    [value] is [(n,1)], [grad] is [(n,3,2)], [indices] is [(n,2)]. *)
Record Saved : Type := mkSaved {
  natoms : nat;
  value : list R;
  grad : list (Vec3 * Vec3);
  indices : list (nat * nat)
}.

(** [DistanceKernel.descriptor], on one row of [r]. *)
Definition distance_descriptor1 (r : Vec3) : R * Vec3 :=
  let '(x, y, z) := r in
  let d := sqrt (x ^ 2 + y ^ 2 + z ^ 2) in
  (d, vdiv r d).

(** [LogDistanceKernel.descriptor], on one row of [r]. *)
Definition log_distance_descriptor1 (r : Vec3) : R * Vec3 :=
  let '(x, y, z) := r in
  let d := sqrt (x ^ 2 + y ^ 2 + z ^ 2) in
  (ln d, vdiv r (d ^ 2)).

(** The Euclidean length [|r|] of a relative position. *)
Definition norm (r : Vec3) : R :=
  let '(x, y, z) := r in sqrt (x * x + y * y + z * z).

(** A descriptor works on all rows at once and returns [(d, grad)]. *)
Definition vectorized (f : Vec3 -> R * Vec3) (r : list Vec3)
  : list R * list Vec3 :=
  (map (fun x => fst (f x)) r, map (fun x => snd (f x)) r).

Definition distance_descriptor := vectorized distance_descriptor1.
Definition log_distance_descriptor := vectorized log_distance_descriptor1.

Section TorchAtomsKernels.

(** [self.descriptor], given by the child class. *)
Variable descriptor : list Vec3 -> list R * list Vec3.
Variable K : Kernel.

(** The first half of [calculate]: the one-way selection, with
    [grad = stack([grad, -grad], dim=-1)] and
    [indices = stack([loc.j, loc.i], dim=-1)]. *)
Definition calculate (n : nat) (loc : Selected) : Saved :=
  let (d, g) := descriptor (sel_r loc) in
  mkSaved n d (map (fun x => (x, vopp x)) g) (combine (sel_j loc) (sel_i loc)).

(** [PairSimilarityKernel.func] *)
Definition func (p q : Saved) : R :=
  rsum (map (fun d => rsum (map (fun dd => kern K d dd) (value q))) (value p)).

(** The rows of [c] in [PairSimilarityKernel.leftgrad]: for a pair, one row
    for each of its two atoms. *)
Definition leftgrad_rows (ld : R) (lgrad : Vec3 * Vec3) (rd : list R)
  : list Vec3 :=
  [ vsum (map (fun dd => vscale (kern_leftgrad K ld dd) (fst lgrad)) rd);
    vsum (map (fun dd => vscale (kern_leftgrad K ld dd) (snd lgrad)) rd) ].

(** [PairSimilarityKernel.leftgrad] *)
Definition leftgrad (p q : Saved) : option (list R) :=
  let ld := value p in
  let lgrad := grad p in
  let li := flat_map (fun ji => [fst ji; snd ji]) (indices p) in
  let rd := value q in
  let c := flat_map (fun x => leftgrad_rows (fst x) (snd x) rd)
             (combine ld lgrad) in
  match index_add (zeros (natoms p)) li c with
  | Some g => Some (view_flat g)
  | None => None
  end.

End TorchAtomsKernels.

(** ** Kernels defined for Systems *)

(** One pair of a System: the entries of its tensors [i], [j], [d], [u],
    [logd] and [logd_deriv] for that pair. *)
Record PairRow : Type := mkPairRow {
  row_i : nat;
  row_j : nat;
  row_d : R;
  row_u : Vec3;
  row_logd : R;
  row_logd_deriv : Vec3
}.

Record System : Type := mkSystem {
  sys_natoms : nat;
  sys_pairs : list PairRow
}.

Section SystemKernels.

(** [p.select(a, b, bothways)]: the mask over the pairs of [p], given by
    the structure; it is a parameter. *)
Variable select : System -> Z -> Z -> bool -> nat -> bool.
Variable K : Kernel.
Variables a b : Z.

(** The pairs [p.select(self.a, self.b, bothways=False)] keeps. *)
Definition selected (p : System) : list PairRow :=
  masked (select p a b false) (sys_pairs p).

(** [zeros(p.natoms, 3).index_add(0, p.i[m1], x).index_add(0, p.j[m1], y)] *)
Definition scatter (p : System) (x y : list Vec3) : option (list Vec3) :=
  match index_add (zeros (sys_natoms p)) (map row_i (selected p)) x with
  | Some t => index_add t (map row_j (selected p)) y
  | None => None
  end.

(** [(c[:, None] * w[..., None]).sum(dim=-1)] for an [(n,m)] matrix [c],
    given by its entries, and an [(n,3)] tensor [w], given row by row. *)
Definition contract (c : PairRow -> PairRow -> R) (w : PairRow -> Vec3)
  (p q : System) : list Vec3 :=
  map (fun x => vsum (map (fun y => vscale (c x y) (w x)) (selected q)))
    (selected p).

(** [.sum()] of an [(n,m)] matrix given by its entries. *)
Definition total (c : PairRow -> PairRow -> R) (p q : System) : R :=
  rsum (map (fun x => rsum (map (fun y => c x y) (selected q))) (selected p)).

Definition option_map_flat (f : list R -> list R) (t : option (list Vec3))
  : option (list R) :=
  match t with
  | Some g => Some (f (view_flat g))
  | None => None
  end.

(** *** DistanceSimilarity *)

Definition distance_func (p q : System) : R :=
  total (fun x y => kern K (row_d x) (row_d y)) p q.

Definition distance_leftgrad (p q : System) : option (list R) :=
  let c := contract (fun x y => kern_leftgrad K (row_d x) (row_d y)) row_u p q in
  option_map_flat (fun g => g) (scatter p (map vopp c) c).

(** *** LogDistanceSimilarity *)

Definition logdistance_func (p q : System) : R :=
  total (fun x y => kern K (row_logd x) (row_logd y)) p q.

Definition logdistance_leftgrad (p q : System) : option (list R) :=
  let c := contract (fun x y => kern_leftgrad K (row_logd x) (row_logd y))
             row_logd_deriv p q in
  option_map_flat (fun g => g) (scatter p (map vopp c) c).

(** *** CoulombPairSimilarity *)

Definition coulomb_func (p q : System) : R :=
  total (fun x y => kern K (row_d x) (row_d y) / (row_d x * row_d y)) p q.

Definition coulomb_leftgrad (p q : System) : option (list R) :=
  let c := contract
             (fun x y =>
                (kern_leftgrad K (row_d x) (row_d y)
                 - kern K (row_d x) (row_d y) / row_d x)
                / (row_d x * row_d y))
             row_u p q in
  option_map_flat (map Ropp) (scatter p c (map vopp c)).

(** *** RepulsiveCoreSimilarity *)

Variable eta : R.

Definition repulsive_func (p q : System) : R :=
  total (fun x y =>
           kern K (row_d x) (row_d y) / tpow (row_d x * row_d y) eta) p q.

Definition repulsive_leftgrad (p q : System) : option (list R) :=
  let c := contract
             (fun x y =>
                (kern_leftgrad K (row_d x) (row_d y)
                 - eta * kern K (row_d x) (row_d y) / row_d x)
                / tpow (row_d x * row_d y) eta)
             row_u p q in
  option_map_flat (map Ropp) (scatter p c (map vopp c)).

(** The indices of the selected pairs name atoms of [p]. *)
Definition in_range (p : System) : Prop :=
  Forall (fun x => (row_i x < sys_natoms p)%nat /\ (row_j x < sys_natoms p)%nat)
    (selected p).

End SystemKernels.

(** A selection of a local environment in a structure of [n] atoms: one
    entry of [i], [j] and [r] for each pair, the indices below [n]. *)
Definition well_formed (n : nat) (loc : Selected) : Prop :=
  length (sel_i loc) = length (sel_r loc) /\
  length (sel_j loc) = length (sel_r loc) /\
  Forall (fun k => (k < n)%nat) (sel_i loc) /\
  Forall (fun k => (k < n)%nat) (sel_j loc).

(** ** Scattering onto the two atoms of a pair

    What the specification says of the gradients, in its own words: the
    contribution of each selected pair goes through the chain rule of the
    descriptor, and is added at one of the two atoms of the pair and
    subtracted at the other. *)

Section Scattering.

Variable select : System -> Z -> Z -> bool -> nat -> bool.
Variables a b : Z.

(** The contribution of the pair [x] of [p] to [leftgrad(p, q)]: the sum,
    over the selected pairs [y] of [q], of the weight [w x y] times the
    gradient [u x] of the descriptor of [x]. *)
Definition left_contribution (w : PairRow -> PairRow -> R)
  (u : PairRow -> Vec3) (q : System) (x : PairRow) : Vec3 :=
  vsum (map (fun y => vscale (w x y) (u x)) (selected select a b q)).

(** The contribution of the pair [y] of [q] to [rightgrad(p, q)]. *)
Definition right_contribution (w : PairRow -> PairRow -> R)
  (u : PairRow -> Vec3) (p : System) (y : PairRow) : Vec3 :=
  vsum (map (fun x => vscale (w x y) (u y)) (selected select a b p)).

(** [scattered p c g]: [g] holds one 3-vector for each atom of [p]; the
    vector of atom [k] is the sum of the contributions [c x] of the
    selected pairs [x] whose atom [j] is [k], minus the sum of the
    contributions of the selected pairs whose atom [i] is [k]. *)
Definition scattered (p : System) (c : PairRow -> Vec3) (g : list Vec3)
  : Prop :=
  length g = sys_natoms p
  /\ forall k,
      nth k g vzero
      = vadd
          (vsum (map c (filter (fun x => Nat.eqb (row_j x) k)
                          (selected select a b p))))
          (vopp (vsum (map c (filter (fun x => Nat.eqb (row_i x) k)
                                (selected select a b p))))).

End Scattering.

(** The same for a local environment of a structure of [n] atoms, whose
    pairs are given by their atoms [i] and [j] and their relative position
    [r]: [c r] is the contribution of the pair at [r]. *)
Definition scattered_loc (n : nat) (loc : Selected) (c : Vec3 -> Vec3)
  (g : list Vec3) : Prop :=
  length g = n
  /\ forall k,
      nth k g vzero
      = vadd
          (vsum (map (fun x => c (snd x))
                   (filter (fun x => Nat.eqb (fst x) k)
                      (combine (sel_j loc) (sel_r loc)))))
          (vopp (vsum (map (fun x => c (snd x))
                         (filter (fun x => Nat.eqb (fst x) k)
                            (combine (sel_i loc) (sel_r loc)))))).

(** *** A small instance: two atoms at distance 5 *)

Definition demo_kernel : Kernel :=
  mkKernel (fun x y => x * y) (fun _ y => y) (fun x _ => x) (fun _ _ => 1).

Definition demo_select (_ : System) (_ _ : Z) (_ : bool) (_ : nat) : bool :=
  true.

Definition demo_system : System :=
  mkSystem 2
    [ mkPairRow 0 1 5 (3 / 5, 4 / 5, 0) (ln 5) (3 / 25, 4 / 25, 0) ].

Definition demo_loc : Selected := mkSelected [0%nat] [1%nat] [(3, 4, 0)].

(** Three atoms in a bent chain: the pairs (0, 1) at distance 2 along [x]
    and (1, 2) at distance 3 along [y]. *)
Definition demo_chain : System :=
  mkSystem 3
    [ mkPairRow 0 1 2 (1, 0, 0) (ln 2) (1 / 2, 0, 0);
      mkPairRow 1 2 3 (0, 1, 0) (ln 3) (0, 1 / 3, 0) ].

(** ** The rest of the kernels *)

(** [x * y] for two rows, entry by entry. *)
Definition vmul (a b : Vec3) : Vec3 :=
  let '(a1, a2, a3) := a in
  let '(b1, b2, b3) := b in
  (a1 * b1, a2 * b2, a3 * b3).

Section TorchAtomsRight.

Variable K : Kernel.

(** The rows of [c] in [PairSimilarityKernel.rightgrad]: for a pair of
    [q], one row for each of its two atoms, summed over the pairs of [p]. *)
Definition rightgrad_rows (rd : R) (rgrad : Vec3 * Vec3) (ld : list R)
  : list Vec3 :=
  [ vsum (map (fun d => vscale (kern_rightgrad K d rd) (fst rgrad)) ld);
    vsum (map (fun d => vscale (kern_rightgrad K d rd) (snd rgrad)) ld) ].

(** [PairSimilarityKernel.rightgrad] *)
Definition rightgrad (p q : Saved) : option (list R) :=
  let ld := value p in
  let rd := value q in
  let rgrad := grad q in
  let ri := flat_map (fun ji => [fst ji; snd ji]) (indices q) in
  let c := flat_map (fun x => rightgrad_rows (fst x) (snd x) ld)
             (combine rd rgrad) in
  match index_add (zeros (natoms q)) ri c with
  | Some g => Some (view_flat g)
  | None => None
  end.

End TorchAtomsRight.

(** [torch.unique(t, return_counts=True)]: the values of [t] in increasing
    order, each with the number of times it occurs. *)
Fixpoint count_insert (k : nat) (l : list (nat * nat)) : list (nat * nat) :=
  match l with
  | [] => [(k, 1%nat)]
  | (k', c) :: r =>
      if Nat.ltb k k' then (k, 1%nat) :: l
      else if Nat.eqb k k' then (k', S c) :: r
      else (k', c) :: count_insert k r
  end.

Definition unique_counts (t : list nat) : list (nat * nat) :=
  fold_right count_insert [] t.

(** [t.split_with_sizes(sizes)]: consecutive chunks of the given sizes,
    which must add up to the length of [t]. *)
Fixpoint split_with_sizes {A} (t : list A) (sizes : list nat)
  : option (list (list A)) :=
  match sizes with
  | [] => match t with [] => Some [] | _ :: _ => None end
  | n :: rest =>
      if Nat.ltb (length t) n then None
      else match split_with_sizes (skipn n t) rest with
           | Some chunks => Some (firstn n t :: chunks)
           | None => None
           end
  end.

Section SystemRest.

Variable select : System -> Z -> Z -> bool -> nat -> bool.
Variable K : Kernel.
Variables a b : Z.

(** [(c[..., None] * w).sum(dim=0)] for an [(n,m)] matrix [c], given by
    its entries, and an [(m,3)] tensor [w], given row by row. *)
Definition contract_right (c : PairRow -> PairRow -> R) (w : PairRow -> Vec3)
  (p q : System) : list Vec3 :=
  map (fun y =>
         vsum (map (fun x => vscale (c x y) (w y)) (selected select a b p)))
    (selected select a b q).

Definition distance_rightgrad (p q : System) : option (list R) :=
  let c := contract_right
             (fun x y => kern_rightgrad K (row_d x) (row_d y)) row_u p q in
  option_map_flat (fun g => g) (scatter select a b q (map vopp c) c).

Definition logdistance_rightgrad (p q : System) : option (list R) :=
  let c := contract_right
             (fun x y => kern_rightgrad K (row_logd x) (row_logd y))
             row_logd_deriv p q in
  option_map_flat (fun g => g) (scatter select a b q (map vopp c) c).

Definition coulomb_rightgrad (p q : System) : option (list R) :=
  let c := contract_right
             (fun x y =>
                (kern_rightgrad K (row_d x) (row_d y)
                 - kern K (row_d x) (row_d y) / row_d y)
                / (row_d x * row_d y))
             row_u p q in
  option_map_flat (map Ropp) (scatter select a b q c (map vopp c)).

Definition repulsive_rightgrad (eta : R) (p q : System) : option (list R) :=
  let c := contract_right
             (fun x y =>
                (kern_rightgrad K (row_d x) (row_d y)
                 - eta * kern K (row_d x) (row_d y) / row_d y)
                / tpow (row_d x * row_d y) eta)
             row_u p q in
  option_map_flat (map Ropp) (scatter select a b q c (map vopp c)).

(** The pairs [p.select(self.a, self.b, bothways=True)] keeps. *)
Definition selected_both (p : System) : list PairRow :=
  masked (select p a b true) (sys_pairs p).

(** [(w[..., None] * u[None, ] * u[:, None]).sum(dim=(0, 1))] for the
    pairs of one atom: [w] is the [(n,n)] matrix of the weights, given by
    its entries, [u] the [(n,3)] tensor of their vectors. *)
Definition diag_block (w : PairRow -> PairRow -> R) (u : PairRow -> Vec3)
  (g : list PairRow) : Vec3 :=
  vsum (map (fun x =>
               vsum (map (fun y => vmul (vscale (w x y) (u y)) (u x)) g))
          g).

(** The frame all four [gradgraddiag] share: the selected pairs are cut
    into chunks by the counts of their first atoms, each chunk gives one
    row, the rows are stacked and added at these atoms.  [stack] refuses an
    empty list: when no pair is selected there is no chunk, and the method
    raises (here [None]). *)
Definition gradgraddiag (w : PairRow -> PairRow -> R) (u : PairRow -> Vec3)
  (p : System) : option (list R) :=
  let rows := selected_both p in
  let uc := unique_counts (map row_i rows) in
  match split_with_sizes rows (map snd uc) with
  | Some [] => None
  | Some chunks =>
      match index_add (zeros (sys_natoms p)) (map fst uc)
              (map (diag_block w u) chunks) with
      | Some t => Some (view_flat t)
      | None => None
      end
  | None => None
  end.

Definition distance_gradgraddiag (p : System) : option (list R) :=
  gradgraddiag (fun x y => kern_gradgrad K (row_d x) (row_d y)) row_u p.

Definition logdistance_gradgraddiag (p : System) : option (list R) :=
  gradgraddiag (fun x y => kern_gradgrad K (row_logd x) (row_logd y))
    row_logd_deriv p.

Definition coulomb_gradgraddiag (p : System) : option (list R) :=
  gradgraddiag
    (fun x y =>
       (kern K (row_d x) (row_d y) / (row_d x * row_d y)
        - kern_rightgrad K (row_d x) (row_d y) / row_d x
        - kern_leftgrad K (row_d x) (row_d y) / row_d y
        + kern_gradgrad K (row_d x) (row_d y))
       / (row_d x * row_d y))
    row_u p.

Definition repulsive_gradgraddiag (eta : R) (p : System) : option (list R) :=
  gradgraddiag
    (fun x y =>
       (eta ^ 2 * kern K (row_d x) (row_d y) / (row_d x * row_d y)
        - eta * kern_rightgrad K (row_d x) (row_d y) / row_d x
        - eta * kern_leftgrad K (row_d x) (row_d y) / row_d y
        + kern_gradgrad K (row_d x) (row_d y))
       / tpow (row_d x * row_d y) eta)
    row_u p.

(** The indices of the pairs selected both ways name atoms of [p]. *)
Definition in_range_both (p : System) : Prop :=
  Forall (fun x => (row_i x < sys_natoms p)%nat) (selected_both p).

End SystemRest.

(** ** The matrix of the second derivatives

    A tensor of shape [(n, 3, m, 3)] is a list of [n] rows of [m] blocks; a
    block holds the two axes of length 3, as three rows of three entries. *)
Definition Mat3 : Type := (Vec3 * Vec3 * Vec3)%type.

Definition mzero : Mat3 := (vzero, vzero, vzero).

Definition madd (x y : Mat3) : Mat3 :=
  let '(x1, x2, x3) := x in
  let '(y1, y2, y3) := y in
  (vadd x1 y1, vadd x2 y2, vadd x3 y3).

Definition mopp (x : Mat3) : Mat3 :=
  let '(x1, x2, x3) := x in (vopp x1, vopp x2, vopp x3).

Definition msum (l : list Mat3) : Mat3 := fold_right madd mzero l.

(** [u[..., None, None] * v * k] at one row of [u] and one of [v]: the
    entries [u_a * v_b * k]. *)
Definition outer (u v : Vec3) (k : R) : Mat3 :=
  let '(u1, u2, u3) := u in
  let '(v1, v2, v3) := v in
  ((u1 * v1 * k, u1 * v2 * k, u1 * v3 * k),
   (u2 * v1 * k, u2 * v2 * k, u2 * v3 * k),
   (u3 * v1 * k, u3 * v2 * k, u3 * v3 * k)).

(** Rows of blocks are added block by block. *)
Definition radd (r s : list Mat3) : list Mat3 :=
  map (fun xy => madd (fst xy) (snd xy)) (combine r s).

(** [zeros(n, 3, m, 3)] *)
Definition zeros4 (n m : nat) : list (list Mat3) := repeat (repeat mzero m) n.

(** [t.index_add(0, index, source)] for rows of any kind, with their
    addition. *)
Fixpoint index_add_with {T} (add : T -> T -> T) (t : list T)
  (index : list nat) (source : list T) : option (list T) :=
  match index, source with
  | [], [] => Some t
  | k :: index', v :: source' =>
      match nth_error t k with
      | Some x => index_add_with add (set_nth t k (add x v)) index' source'
      | None => None
      end
  | _, _ => None
  end.

(** [t.index_add(2, index, source)]: in each row of [t], block [source[n]]
    of the same row of [source] is added to block [index[n]]. *)
Fixpoint index_add_dim2 (t : list (list Mat3)) (index : list nat)
  (source : list (list Mat3)) : option (list (list Mat3)) :=
  match t, source with
  | [], [] => Some []
  | r :: t', s :: source' =>
      match index_add_with madd r index s with
      | Some r' =>
          match index_add_dim2 t' index source' with
          | Some t'' => Some (r' :: t'')
          | None => None
          end
      | None => None
      end
  | _, _ => None
  end.

(** [.view(n * 3, m * 3)] *)
Definition view_matrix (t : list (list Mat3)) : list (list R) :=
  flat_map (fun r => [ view_flat (map (fun m : Mat3 => fst (fst m)) r);
                       view_flat (map (fun m : Mat3 => snd (fst m)) r);
                       view_flat (map (fun m : Mat3 => snd m) r) ]) t.

Section SystemSecond.
Variable select : System -> Z -> Z -> bool -> nat -> bool.
Variable K : Kernel.
Variables a b : Z.

(** The frame [DistanceSimilarity.gradgrad] and
    [LogDistanceSimilarity.gradgrad] share. *)
Definition gradgrad (w : PairRow -> PairRow -> R) (u : PairRow -> Vec3)
  (p q : System) : option (list (list R)) :=
  let c := map (fun x =>
                  map (fun y => outer (u x) (u y) (w x y))
                    (selected select a b q))
             (selected select a b p) in
  match index_add_with radd
          (zeros4 (sys_natoms p) (length (selected select a b q)))
          (map row_i (selected select a b p)) c with
  | Some t0 =>
      match index_add_with radd t0 (map row_j (selected select a b p))
              (map (map mopp) c) with
      | Some cc =>
          match index_add_dim2 (zeros4 (sys_natoms p) (sys_natoms q))
                  (map row_i (selected select a b q)) cc with
          | Some t1 =>
              match index_add_dim2 t1 (map row_j (selected select a b q))
                      (map (map mopp) cc) with
              | Some ccc => Some (view_matrix ccc)
              | None => None
              end
          | None => None
          end
      | None => None
      end
  | None => None
  end.

Definition distance_gradgrad (p q : System) : option (list (list R)) :=
  gradgrad (fun x y => kern_gradgrad K (row_d x) (row_d y)) row_u p q.

Definition logdistance_gradgrad (p q : System) : option (list (list R)) :=
  gradgrad (fun x y => kern_gradgrad K (row_logd x) (row_logd y))
    row_logd_deriv p q.
End SystemSecond.

(** The base kernel and its derivatives are those of a symmetric
    function: swapping the arguments swaps the two gradients. *)
Definition symmetric (K : Kernel) : Prop :=
  (forall x y, kern K x y = kern K y x)
  /\ (forall x y, kern_rightgrad K x y = kern_leftgrad K y x).

(** ** Values saved on a structure

    [save_for_later] and [saved] keep the values of a kernel as attributes
    of the structure, under the name of the kernel, an underscore and the
    key. *)

Section SavedValues.

Import String.
Local Open Scope string_scope.

Variable V : Type.

(** The attributes of an object, by name. *)
Definition Attributes : Type := list (String.string * V).

(** [self.name + '_' + key] *)
Definition attribute (name key : String.string) : String.string :=
  (name ++ "_") ++ key.

Fixpoint setattr (o : Attributes) (n : String.string) (v : V) : Attributes :=
  match o with
  | [] => [(n, v)]
  | (n', v') :: r =>
      if String.eqb n n' then (n, v) :: r else (n', v') :: setattr r n v
  end.

(** [getattr(o, n)]; [None] stands for [AttributeError]. *)
Fixpoint getattr (o : Attributes) (n : String.string) : option V :=
  match o with
  | [] => None
  | (n', v') :: r => if String.eqb n n' then Some v' else getattr r n
  end.

(** [for key, val in keyvals.items(): setattr(loc, self.name+'_'+key, val)] *)
Definition save_for_later (name : String.string) (loc : Attributes)
  (keyvals : list (String.string * V)) : Attributes :=
  fold_left (fun o kv => setattr o (attribute name (fst kv)) (snd kv))
    keyvals loc.

Definition saved (name : String.string) (atoms_or_loc : Attributes)
  (key : String.string) : option V :=
  getattr atoms_or_loc (attribute name key).

End SavedValues.

End Pair.

(* ================================================================= *)
(** ** Part II.  Properties                                           *)
(* ================================================================= *)

Unset Implicit Arguments.

Module PairSpec.

Import Pair.
Local Open Scope R_scope.

(** *** Vectors *)

Ltac vec_destruct :=
  repeat match goal with
         | v : Vec3 |- _ => destruct v as [[? ?] ?]
         end.

Ltac vec :=
  intros; vec_destruct; unfold vadd, vopp, vscale, vdiv, vzero;
  repeat match goal with
         | |- (_, _) = (_, _) => apply f_equal2
         end; try lra.

Lemma vadd_comm (x y : Vec3) : vadd x y = vadd y x.
Proof. vec. Qed.

Lemma vadd_assoc (x y z : Vec3) : vadd x (vadd y z) = vadd (vadd x y) z.
Proof. vec. Qed.

Lemma vadd_zero_l (x : Vec3) : vadd vzero x = x.
Proof. vec. Qed.

Lemma vadd_zero_r (x : Vec3) : vadd x vzero = x.
Proof. vec. Qed.

Lemma vadd_opp (x : Vec3) : vadd x (vopp x) = vzero.
Proof. vec. Qed.

Lemma vopp_vadd (x y : Vec3) : vopp (vadd x y) = vadd (vopp x) (vopp y).
Proof. vec. Qed.

Lemma vopp_zero : vopp vzero = vzero.
Proof. vec. Qed.

Lemma vscale_vopp (k : R) (x : Vec3) : vscale k (vopp x) = vopp (vscale k x).
Proof. vec. Qed.

Lemma vsum_nil : vsum [] = vzero.
Proof. reflexivity. Qed.

Lemma vsum_cons (x : Vec3) (l : list Vec3) : vsum (x :: l) = vadd x (vsum l).
Proof. reflexivity. Qed.

Lemma vsum_app (l1 l2 : list Vec3) :
  vsum (l1 ++ l2) = vadd (vsum l1) (vsum l2).
Proof.
  induction l1 as [|x l1 IH].
  - now rewrite vsum_nil, vadd_zero_l.
  - rewrite <- app_comm_cons, !vsum_cons, IH. apply vadd_assoc.
Qed.

Lemma vsum_map_vopp (l : list Vec3) : vsum (map vopp l) = vopp (vsum l).
Proof.
  induction l as [|x l IH].
  - cbn [map]. now rewrite vsum_nil, vopp_zero.
  - cbn [map]. now rewrite !vsum_cons, IH, vopp_vadd.
Qed.

Lemma vsum_zeros (n : nat) : vsum (zeros n) = vzero.
Proof.
  induction n as [|n IH]; [reflexivity|].
  unfold zeros in *. cbn [repeat]. now rewrite vsum_cons, IH, vadd_zero_l.
Qed.

(** *** index_add adds the rows of its source, wherever they land *)

Lemma set_nth_length {A} (l : list A) (k : nat) (v : A) :
  length (set_nth l k v) = length l.
Proof.
  revert k; induction l as [|x l IH]; intros [|k]; cbn; auto.
Qed.

Lemma vsum_set_nth (t : list Vec3) (k : nat) (x v : Vec3) :
  nth_error t k = Some x ->
  vsum (set_nth t k (vadd x v)) = vadd (vsum t) v.
Proof.
  revert k; induction t as [|y t IH]; intros [|k] Hk;
    cbn [set_nth nth_error] in *; try discriminate.
  - injection Hk as ->. rewrite !vsum_cons.
    rewrite <- !vadd_assoc. f_equal. apply vadd_comm.
  - rewrite !vsum_cons, (IH _ Hk). apply vadd_assoc.
Qed.

Lemma index_add_vsum (index : list nat) :
  forall (t source t' : list Vec3),
    index_add t index source = Some t' ->
    vsum t' = vadd (vsum t) (vsum source).
Proof.
  induction index as [|k index IH]; intros t [|v source] t' H; cbn in H;
    try discriminate.
  - injection H as <-. now rewrite vsum_nil, vadd_zero_r.
  - destruct (nth_error t k) as [x|] eqn:Hk; [|discriminate].
    rewrite (IH _ _ _ H), (vsum_set_nth _ _ _ v Hk), vsum_cons.
    now rewrite vadd_assoc.
Qed.

Lemma index_add_length (index : list nat) :
  forall (t source t' : list Vec3),
    index_add t index source = Some t' -> length t' = length t.
Proof.
  induction index as [|k index IH]; intros t [|v source] t' H; cbn in H;
    try discriminate.
  - now injection H as <-.
  - destruct (nth_error t k) as [x|]; [|discriminate].
    rewrite (IH _ _ _ H). apply set_nth_length.
Qed.

Lemma index_add_defined (index : list nat) :
  forall (t source : list Vec3),
    length index = length source ->
    Forall (fun k => (k < length t)%nat) index ->
    exists t', index_add t index source = Some t'.
Proof.
  induction index as [|k index IH]; intros t [|v source] Hlen Hin;
    cbn in *; try discriminate.
  - now exists t.
  - inversion Hin as [|? ? Hk Hrest]; subst.
    destruct (nth_error t k) as [x|] eqn:E.
    + apply IH; [lia|]. now rewrite set_nth_length.
    + apply nth_error_None in E. lia.
Qed.

Lemma atom_sum_view_flat (g : list Vec3) : atom_sum (view_flat g) = vsum g.
Proof.
  induction g as [|[[x y] z] g IH]; [reflexivity|].
  rewrite vsum_cons, <- IH. reflexivity.
Qed.

Lemma atom_sum_opp_view_flat (g : list Vec3) :
  atom_sum (map Ropp (view_flat g)) = vopp (vsum g).
Proof.
  induction g as [|[[x y] z] g IH].
  - rewrite vsum_nil, vopp_zero. reflexivity.
  - rewrite vsum_cons, vopp_vadd, <- IH. reflexivity.
Qed.

Lemma view_flat_length (g : list Vec3) :
  length (view_flat g) = (3 * length g)%nat.
Proof.
  induction g as [|[[x y] z] g IH]; [reflexivity|].
  cbn [view_flat flat_map length app] in *. unfold view_flat in IH.
  rewrite IH. lia.
Qed.

Lemma zeros_length (n : nat) : length (zeros n) = n.
Proof. apply repeat_length. Qed.

Lemma nth_set_nth_same (t : list Vec3) :
  forall i v, (i < length t)%nat -> nth i (set_nth t i v) vzero = v.
Proof.
  induction t as [|y t IH]; intros [|i] v H; cbn in *; try lia;
    [reflexivity|].
  apply IH. lia.
Qed.

Lemma nth_set_nth_other (t : list Vec3) :
  forall i k v, k <> i -> nth k (set_nth t i v) vzero = nth k t vzero.
Proof.
  induction t as [|y t IH]; intros [|i] [|k] v H; cbn; try reflexivity;
    try congruence.
  apply IH. congruence.
Qed.

Lemma nth_zeros (n k : nat) : nth k (zeros n) vzero = vzero.
Proof.
  unfold zeros. revert k.
  induction n as [|n IH]; intros [|k]; cbn; auto.
Qed.

(** What [index_add] leaves in a row: what was there, and the rows of the
    source that were sent to it. *)
Lemma index_add_nth (index : list nat) :
  forall t source t',
    index_add t index source = Some t' ->
    forall k,
      nth k t' vzero
      = vadd (nth k t vzero)
          (vsum (map snd (filter (fun z => Nat.eqb (fst z) k)
                            (combine index source)))).
Proof.
  induction index as [|i index IH]; intros t [|v source] t' H k;
    cbn [index_add] in H; try discriminate.
  - injection H as <-. cbn. now rewrite vadd_zero_r.
  - destruct (nth_error t i) as [x|] eqn:E; [|discriminate].
    rewrite (IH _ _ _ H k). cbn [combine filter fst].
    destruct (Nat.eqb_spec i k) as [->|N].
    + assert (B : (k < length t)%nat) by (apply nth_error_Some; congruence).
      rewrite (nth_set_nth_same t k _ B), (nth_error_nth _ _ vzero E).
      cbn [map snd]. now rewrite vsum_cons, vadd_assoc.
    + now rewrite nth_set_nth_other by congruence.
Qed.

Lemma filter_combine_map {A} (f : A -> nat) (g : A -> Vec3) (l : list A) k :
  map snd (filter (fun z => Nat.eqb (fst z) k) (combine (map f l) (map g l)))
  = map g (filter (fun r => Nat.eqb (f r) k) l).
Proof.
  induction l as [|r l IH]; [reflexivity|].
  cbn [map combine filter fst]. destruct (Nat.eqb (f r) k); cbn [map snd];
    now rewrite IH.
Qed.

Lemma vsum_map_opp {A} (c : A -> Vec3) (l : list A) :
  vsum (map (fun r => vopp (c r)) l) = vopp (vsum (map c l)).
Proof. now rewrite <- vsum_map_vopp, map_map. Qed.

Lemma nth_map_vopp (g : list Vec3) (k : nat) :
  nth k (map vopp g) vzero = vopp (nth k g vzero).
Proof.
  rewrite <- vopp_zero at 1. apply map_nth.
Qed.

Lemma view_flat_map_vopp (g : list Vec3) :
  map Ropp (view_flat g) = view_flat (map vopp g).
Proof.
  unfold view_flat. induction g as [|[[x y] z] g IH]; [reflexivity|].
  cbn [map flat_map app vopp]. cbn [map app] in *. now rewrite IH.
Qed.

Lemma vopp_involutive (x : Vec3) : vopp (vopp x) = x.
Proof. vec. Qed.

(** *** The System kernels: contributions of opposite sign cancel *)

Section SystemScatter.

Variable select : System -> Z -> Z -> bool -> nat -> bool.
Variables a b : Z.

Lemma contract_length c w p q :
  length (contract select a b c w p q) = length (selected select a b p).
Proof. unfold contract. apply length_map. Qed.

Lemma scatter_vsum p x y g :
  scatter select a b p x y = Some g ->
  vsum g = vadd (vsum x) (vsum y) /\ length g = sys_natoms p.
Proof.
  unfold scatter. intros H.
  destruct (index_add (zeros (sys_natoms p)) _ x) as [t|] eqn:E1;
    [|discriminate].
  split.
  - rewrite (index_add_vsum _ _ _ _ H), (index_add_vsum _ _ _ _ E1).
    now rewrite vsum_zeros, vadd_zero_l.
  - rewrite (index_add_length _ _ _ _ H), (index_add_length _ _ _ _ E1).
    apply zeros_length.
Qed.

Lemma scatter_defined p x y :
  in_range select a b p ->
  length x = length (selected select a b p) ->
  length y = length (selected select a b p) ->
  exists g, scatter select a b p x y = Some g.
Proof.
  intros Hr Hx Hy. unfold scatter.
  destruct (index_add_defined (map row_i (selected select a b p))
              (zeros (sys_natoms p)) x) as [t Ht].
  - now rewrite length_map.
  - rewrite zeros_length. apply Forall_map.
    eapply Forall_impl; [|exact Hr]. cbn. tauto.
  - rewrite Ht. apply index_add_defined.
    + now rewrite length_map.
    + rewrite (index_add_length _ _ _ _ Ht), zeros_length. apply Forall_map.
      eapply Forall_impl; [|exact Hr]. cbn. tauto.
Qed.

(** Adding [-c] at one end of each pair and [c] at the other leaves a
    gradient whose atoms sum to zero, whatever [c] is. *)
Lemma scatter_minus_plus p c :
  in_range select a b p ->
  length c = length (selected select a b p) ->
  exists g,
    option_map_flat (fun g => g) (scatter select a b p (map vopp c) c) = Some g
    /\ atom_sum g = vzero /\ length g = (3 * sys_natoms p)%nat.
Proof.
  intros Hr Hc.
  destruct (scatter_defined p (map vopp c) c Hr) as [t Ht];
    [now rewrite length_map | exact Hc |].
  destruct (scatter_vsum _ _ _ _ Ht) as [Hs Hl].
  exists (view_flat t). rewrite Ht. cbn. repeat split.
  - rewrite atom_sum_view_flat, Hs, vsum_map_vopp, vadd_comm. apply vadd_opp.
  - now rewrite view_flat_length, Hl.
Qed.

(** The same for [-(... index_add(i, c).index_add(j, -c))]. *)
Lemma scatter_plus_minus_negated p c :
  in_range select a b p ->
  length c = length (selected select a b p) ->
  exists g,
    option_map_flat (map Ropp) (scatter select a b p c (map vopp c)) = Some g
    /\ atom_sum g = vzero /\ length g = (3 * sys_natoms p)%nat.
Proof.
  intros Hr Hc.
  destruct (scatter_defined p c (map vopp c) Hr) as [t Ht];
    [exact Hc | now rewrite length_map |].
  destruct (scatter_vsum _ _ _ _ Ht) as [Hs Hl].
  exists (map Ropp (view_flat t)). rewrite Ht. cbn. repeat split.
  - rewrite atom_sum_opp_view_flat, Hs, vsum_map_vopp, vadd_opp.
    apply vopp_zero.
  - now rewrite length_map, view_flat_length, Hl.
Qed.

(** What [scatter] leaves at an atom. *)
Lemma scatter_nth p (x y : PairRow -> Vec3) g :
  scatter select a b p (map x (selected select a b p))
    (map y (selected select a b p)) = Some g ->
  forall k,
    nth k g vzero
    = vadd (vsum (map x (filter (fun r => Nat.eqb (row_i r) k)
                           (selected select a b p))))
        (vsum (map y (filter (fun r => Nat.eqb (row_j r) k)
                        (selected select a b p)))).
Proof.
  unfold scatter. intros H k.
  destruct (index_add (zeros (sys_natoms p)) _ _) as [t|] eqn:E1;
    [|discriminate].
  rewrite (index_add_nth _ _ _ _ H k), (index_add_nth _ _ _ _ E1 k).
  now rewrite nth_zeros, vadd_zero_l, !filter_combine_map.
Qed.

(** [index_add(i, -c).index_add(j, c)]: each pair's contribution is added at
    its atom [j] and subtracted at its atom [i]. *)
Lemma scattered_minus_plus p (c : PairRow -> Vec3) :
  in_range select a b p ->
  exists g,
    scatter select a b p (map vopp (map c (selected select a b p)))
      (map c (selected select a b p)) = Some g
    /\ scattered select a b p c g.
Proof.
  intros Hr.
  destruct (scatter_defined p (map vopp (map c (selected select a b p)))
              (map c (selected select a b p)) Hr) as [g Hg];
    [now rewrite !length_map | now rewrite length_map |].
  exists g. split; [exact Hg|]. split.
  - exact (proj2 (scatter_vsum _ _ _ _ Hg)).
  - intros k. rewrite map_map in Hg.
    rewrite (scatter_nth p (fun r => vopp (c r)) c g Hg k).
    now rewrite vsum_map_opp, vadd_comm.
Qed.

(** [-(... index_add(i, c).index_add(j, -c))]: the same, written with the
    signs the other way and negated as a whole. *)
Lemma scattered_plus_minus_negated p (c : PairRow -> Vec3) :
  in_range select a b p ->
  exists g,
    option_map_flat (map Ropp)
      (scatter select a b p (map c (selected select a b p))
         (map vopp (map c (selected select a b p))))
    = Some (view_flat g)
    /\ scattered select a b p c g.
Proof.
  intros Hr.
  destruct (scatter_defined p (map c (selected select a b p))
              (map vopp (map c (selected select a b p))) Hr) as [g Hg];
    [now rewrite length_map | now rewrite !length_map |].
  exists (map vopp g). rewrite Hg. cbn [option_map_flat].
  split; [now rewrite view_flat_map_vopp|]. split.
  - rewrite length_map. exact (proj2 (scatter_vsum _ _ _ _ Hg)).
  - intros k. rewrite map_map in Hg.
    rewrite nth_map_vopp, (scatter_nth p c (fun r => vopp (c r)) g Hg k).
    now rewrite vsum_map_opp, vopp_vadd, vopp_involutive, vadd_comm.
Qed.

End SystemScatter.

(** *** The TorchAtoms kernels *)

Section TorchAtomsScatter.

Variable K : Kernel.

Lemma leftgrad_rows_cancel ld x rd :
  vsum (leftgrad_rows K ld (x, vopp x) rd) = vzero.
Proof.
  unfold leftgrad_rows. cbn [fst snd].
  rewrite !vsum_cons, vsum_nil, vadd_zero_r.
  replace (map (fun dd => vscale (kern_leftgrad K ld dd) (vopp x)) rd)
    with (map vopp (map (fun dd => vscale (kern_leftgrad K ld dd) x) rd)).
  - rewrite vsum_map_vopp. apply vadd_opp.
  - rewrite map_map. apply map_ext. intros dd. now rewrite vscale_vopp.
Qed.

Lemma paired_rows_cancel rd (ld : list R) (g : list Vec3) :
  vsum (flat_map (fun x => leftgrad_rows K (fst x) (snd x) rd)
          (combine ld (map (fun x => (x, vopp x)) g))) = vzero.
Proof.
  revert g. induction ld as [|d ld IH]; intros [|x g]; try reflexivity.
  cbn [map combine flat_map fst snd].
  rewrite vsum_app, IH, leftgrad_rows_cancel. apply vadd_zero_l.
Qed.

Lemma paired_rows_length rd (ld : list R) (g : list (Vec3 * Vec3)) :
  length ld = length g ->
  length (flat_map (fun x => leftgrad_rows K (fst x) (snd x) rd)
            (combine ld g)) = (2 * length g)%nat.
Proof.
  revert g. induction ld as [|d ld IH]; intros [|x g] H; cbn in H;
    try discriminate; [reflexivity|].
  cbn [combine flat_map length app leftgrad_rows]. rewrite IH; lia.
Qed.

Lemma paired_indices (jl il : list nat) (n : nat) :
  length jl = length il ->
  Forall (fun k => (k < n)%nat) jl ->
  Forall (fun k => (k < n)%nat) il ->
  length (flat_map (fun ji => [fst ji; snd ji]) (combine jl il))
  = (2 * length il)%nat /\
  Forall (fun k => (k < n)%nat)
    (flat_map (fun ji => [fst ji; snd ji]) (combine jl il)).
Proof.
  revert il. induction jl as [|j jl IH]; intros [|i il] H Hj Hi; cbn in H;
    try discriminate; [split; [reflexivity|constructor]|].
  inversion Hj; inversion Hi; subst.
  destruct (IH il) as [L F]; [lia|assumption|assumption|].
  cbn [combine flat_map fst snd app length]. split.
  - rewrite L. lia.
  - repeat constructor; assumption.
Qed.

Lemma calculate_leftgrad_zero f n loc q :
  well_formed n loc ->
  exists g,
    leftgrad K (calculate (vectorized f) n loc) q = Some g
    /\ atom_sum g = vzero /\ length g = (3 * n)%nat.
Proof.
  intros (Hi & Hj & Fi & Fj).
  unfold leftgrad, calculate, vectorized.
  cbn [natoms value grad indices].
  set (li := flat_map _ (combine (sel_j loc) (sel_i loc))).
  set (c := flat_map _ _).
  destruct (paired_indices (sel_j loc) (sel_i loc) n) as [Lli Fli];
    [congruence|assumption|assumption|]. fold li in Lli, Fli.
  assert (Lc : length c = (2 * length (sel_r loc))%nat).
  { unfold c. rewrite paired_rows_length; rewrite !length_map; reflexivity. }
  destruct (index_add_defined li (zeros n) c) as [t Ht].
  - rewrite Lli, Lc. now rewrite Hi.
  - now rewrite zeros_length.
  - rewrite Ht. exists (view_flat t). repeat split.
    + rewrite atom_sum_view_flat, (index_add_vsum _ _ _ _ Ht), vsum_zeros.
      rewrite vadd_zero_l. unfold c. apply paired_rows_cancel.
    + now rewrite view_flat_length, (index_add_length _ _ _ _ Ht), zeros_length.
Qed.

(** The two rows of a pair: its contribution and the opposite. *)
Lemma leftgrad_rows_pair ld x rd :
  leftgrad_rows K ld (x, vopp x) rd
  = [ vsum (map (fun dd => vscale (kern_leftgrad K ld dd) x) rd);
      vopp (vsum (map (fun dd => vscale (kern_leftgrad K ld dd) x) rd)) ].
Proof.
  unfold leftgrad_rows. cbn [fst snd]. f_equal. f_equal.
  rewrite <- vsum_map_vopp, map_map. f_equal.
  apply map_ext. intros dd. apply vscale_vopp.
Qed.

(** The rows [c] of a gradient whose pairs each give their contribution
    and its opposite, sent to the atoms [j] and [i] of the pair. *)
Lemma paired_scatter_nth (c : Vec3 -> Vec3) (k : nat) :
  forall (jl il : list nat) (rl : list Vec3),
    length jl = length rl -> length il = length rl ->
    vsum (map snd
            (filter (fun z => Nat.eqb (fst z) k)
               (combine (flat_map (fun ji => [fst ji; snd ji]) (combine jl il))
                  (flat_map (fun r => [c r; vopp (c r)]) rl))))
    = vadd
        (vsum (map (fun x => c (snd x))
                 (filter (fun x => Nat.eqb (fst x) k) (combine jl rl))))
        (vopp (vsum (map (fun x => c (snd x))
                       (filter (fun x => Nat.eqb (fst x) k) (combine il rl))))).
Proof.
  induction jl as [|j jl IH]; intros [|i il] [|r rl] Hj Hi; cbn in Hj, Hi;
    try discriminate.
  - cbn. vec.
  - cbn [combine flat_map fst snd app filter].
    specialize (IH il rl ltac:(lia) ltac:(lia)).
    destruct (Nat.eqb j k); destruct (Nat.eqb i k); cbn [map snd];
      rewrite ?vsum_cons, IH;
      generalize (c r);
      generalize (vsum (map (fun x => c (snd x))
                          (filter (fun x => Nat.eqb (fst x) k)
                             (combine jl rl))));
      generalize (vsum (map (fun x => c (snd x))
                          (filter (fun x => Nat.eqb (fst x) k)
                             (combine il rl))));
      vec.
Qed.

Lemma leftgrad_rows_paired (f : Vec3 -> R * Vec3) rd (rl : list Vec3) :
  flat_map (fun x => leftgrad_rows K (fst x) (snd x) rd)
    (combine (map (fun x => fst (f x)) rl)
       (map (fun x => (x, vopp x)) (map (fun x => snd (f x)) rl)))
  = flat_map
      (fun r =>
         [ vsum (map (fun dd => vscale (kern_leftgrad K (fst (f r)) dd)
                                  (snd (f r))) rd);
           vopp (vsum (map (fun dd => vscale (kern_leftgrad K (fst (f r)) dd)
                                        (snd (f r))) rd)) ])
      rl.
Proof.
  induction rl as [|r rl IH]; [reflexivity|].
  cbn [map combine flat_map fst snd]. now rewrite leftgrad_rows_pair, IH.
Qed.

(** [PairSimilarityKernel.leftgrad] sends the contribution of each pair to
    its atom [j] and the opposite to its atom [i]. *)
Lemma calculate_leftgrad_scattered f n loc q :
  well_formed n loc ->
  exists g,
    leftgrad K (calculate (vectorized f) n loc) q = Some (view_flat g)
    /\ scattered_loc n loc
         (fun r => vsum (map (fun dd => vscale (kern_leftgrad K (fst (f r)) dd)
                                          (snd (f r))) (value q)))
         g.
Proof.
  intros (Hi & Hj & Fi & Fj).
  unfold leftgrad, calculate, vectorized.
  cbn [natoms value grad indices].
  rewrite leftgrad_rows_paired.
  set (li := flat_map _ (combine (sel_j loc) (sel_i loc))).
  set (c := flat_map _ (sel_r loc)).
  destruct (paired_indices (sel_j loc) (sel_i loc) n) as [Lli Fli];
    [congruence|assumption|assumption|]. fold li in Lli, Fli.
  assert (Lc : length c = (2 * length (sel_r loc))%nat).
  { unfold c. clear. induction (sel_r loc) as [|r rl IH]; [reflexivity|].
    cbn [flat_map app length]. rewrite IH. lia. }
  destruct (index_add_defined li (zeros n) c) as [t Ht].
  - rewrite Lli, Lc. now rewrite Hi.
  - now rewrite zeros_length.
  - rewrite Ht. exists t. split; [reflexivity|]. split.
    + now rewrite (index_add_length _ _ _ _ Ht), zeros_length.
    + intros k. rewrite (index_add_nth _ _ _ _ Ht k), nth_zeros, vadd_zero_l.
      unfold li, c. now apply paired_scatter_nth.
Qed.

End TorchAtomsScatter.

(** *** The claims on the pair kernels *)

(** C7.  For every pair of structures, the left gradient of each pair
    similarity kernel adds a pair's contribution at one of its two atoms and
    subtracts it at the other, so the per-atom 3-vectors of [leftgrad(p, q)]
    sum to the zero vector.  This holds for the four System kernels and for
    the TorchAtoms kernel with any row-wise descriptor, whenever the indices
    of the selected pairs name atoms of [p] (otherwise [index_add] raises);
    the gradient then has [3 * natoms] entries.  The 3-vector of each atom
    is given: the sum of the contributions of the selected pairs that have
    the atom as their [j], minus the sum over those that have it as their
    [i]; the contribution of a pair [x] is the sum over the selected pairs
    [y] of [q] of the weight of the kernel at [x] and [y] times the
    gradient of the descriptor of [x]. *)
Theorem leftgrad_sums_to_zero
  (select : System -> Z -> Z -> bool -> nat -> bool) (K : Kernel) (a b : Z)
  (eta : R) (p q : System)
  (f : Vec3 -> R * Vec3) (n : nat) (loc : Selected) (sq : Saved) :
  in_range select a b p ->
  well_formed n loc ->
  (forall lg,
      In lg [ distance_leftgrad select K a b p q;
              logdistance_leftgrad select K a b p q;
              coulomb_leftgrad select K a b p q;
              repulsive_leftgrad select K a b eta p q ] ->
      exists g, lg = Some g /\ atom_sum g = vzero
                /\ length g = (3 * sys_natoms p)%nat)
  /\ (exists g, leftgrad K (calculate (vectorized f) n loc) sq = Some g
                /\ atom_sum g = vzero /\ length g = (3 * n)%nat)
  /\ (exists g,
        distance_leftgrad select K a b p q = Some (view_flat g)
        /\ scattered select a b p
             (left_contribution select a b
                (fun x y => kern_leftgrad K (row_d x) (row_d y)) row_u q) g)
  /\ (exists g,
        logdistance_leftgrad select K a b p q = Some (view_flat g)
        /\ scattered select a b p
             (left_contribution select a b
                (fun x y => kern_leftgrad K (row_logd x) (row_logd y))
                row_logd_deriv q) g)
  /\ (exists g,
        coulomb_leftgrad select K a b p q = Some (view_flat g)
        /\ scattered select a b p
             (left_contribution select a b
                (fun x y =>
                   (kern_leftgrad K (row_d x) (row_d y)
                    - kern K (row_d x) (row_d y) / row_d x)
                   / (row_d x * row_d y)) row_u q) g)
  /\ (exists g,
        repulsive_leftgrad select K a b eta p q = Some (view_flat g)
        /\ scattered select a b p
             (left_contribution select a b
                (fun x y =>
                   (kern_leftgrad K (row_d x) (row_d y)
                    - eta * kern K (row_d x) (row_d y) / row_d x)
                   / tpow (row_d x * row_d y) eta) row_u q) g)
  /\ (exists g,
        leftgrad K (calculate (vectorized f) n loc) sq = Some (view_flat g)
        /\ scattered_loc n loc
             (fun r =>
                vsum (map (fun dd => vscale (kern_leftgrad K (fst (f r)) dd)
                                       (snd (f r))) (value sq))) g).
Proof.
  intros Hr Hw. split; [|split].
  - intros lg [<-|[<-|[<-|[<-|[]]]]].
    + apply scatter_minus_plus; [exact Hr | apply contract_length].
    + apply scatter_minus_plus; [exact Hr | apply contract_length].
    + apply scatter_plus_minus_negated; [exact Hr | apply contract_length].
    + apply scatter_plus_minus_negated; [exact Hr | apply contract_length].
  - apply calculate_leftgrad_zero. exact Hw.
  - assert (M : forall c,
               exists g,
                 option_map_flat (fun g => g)
                   (scatter select a b p
                      (map vopp (map c (selected select a b p)))
                      (map c (selected select a b p))) = Some (view_flat g)
                 /\ scattered select a b p c g).
    { intros c. destruct (scattered_minus_plus select a b p c Hr)
        as (g & Hg & Sg).
      exists g. now rewrite Hg. }
    split; [apply M|]. split; [apply M|].
    split; [apply (scattered_plus_minus_negated select a b p _ Hr)|].
    split; [apply (scattered_plus_minus_negated select a b p _ Hr)|].
    apply calculate_leftgrad_scattered. exact Hw.
Qed.

Lemma demo_in_range : in_range demo_select 1 1 demo_system.
Proof. repeat constructor. Qed.

Lemma demo_well_formed : well_formed 2 demo_loc.
Proof. repeat split; repeat constructor. Qed.

(** On the two atoms at distance 5, with the kernel [x * y]: the
    contribution of the pair is [5 * (3/5, 4/5, 0)]; atom 1, the [j] of the
    pair, receives it and atom 0 receives its opposite. *)
Lemma leftgrad_sums_to_zero_witness :
  exists g,
    distance_leftgrad demo_select demo_kernel 1 1 demo_system demo_system
    = Some (view_flat g)
    /\ nth 1 g vzero = (3, 4, 0) /\ nth 0 g vzero = (-3, -4, 0).
Proof.
  destruct (leftgrad_sums_to_zero demo_select demo_kernel 1 1 1
              demo_system demo_system distance_descriptor1 2 demo_loc
              (mkSaved 2 [] [] []) demo_in_range demo_well_formed)
    as (_ & _ & (g & Hg & _ & Sg) & _).
  exists g. split; [exact Hg|].
  rewrite (Sg 1%nat), (Sg 0%nat). cbn. split; vec; field.
Defined.

Lemma tpow_1 (x : R) : tpow x 1 = x.
Proof.
  unfold tpow. destruct (Rlt_dec 0 x) as [Hx|Hx].
  - now apply Rpower_1.
  - destruct (Int_part_frac_part_spec 1 1 0) as [Hi Hf]; [lra|lra|].
    destruct (Req_dec_T (frac_part 1) 0) as [_|Hn]; [|now rewrite <- Hf in Hn].
    rewrite <- Hi. unfold powerRZ. cbn. apply Rmult_1_r.
Qed.

(** C8.  [RepulsiveCoreSimilarity] built with [eta = 1] is
    [CoulombPairSimilarity]: [func] and [leftgrad] give the same result on
    every pair of structures. *)
Theorem repulsive_core_eta_1_is_coulomb
  (select : System -> Z -> Z -> bool -> nat -> bool) (K : Kernel) (a b : Z)
  (p q : System) :
  repulsive_func select K a b 1 p q = coulomb_func select K a b p q
  /\ repulsive_leftgrad select K a b 1 p q = coulomb_leftgrad select K a b p q.
Proof.
  split.
  - unfold repulsive_func, coulomb_func, total. f_equal.
    apply map_ext; intros x. f_equal. apply map_ext; intros y.
    now rewrite tpow_1.
  - unfold repulsive_leftgrad, coulomb_leftgrad.
    replace (contract select a b
               (fun x y =>
                  (kern_leftgrad K (row_d x) (row_d y)
                   - 1 * kern K (row_d x) (row_d y) / row_d x)
                  / tpow (row_d x * row_d y) 1) row_u p q)
      with (contract select a b
              (fun x y =>
                 (kern_leftgrad K (row_d x) (row_d y)
                  - kern K (row_d x) (row_d y) / row_d x)
                 / (row_d x * row_d y)) row_u p q); [reflexivity|].
    unfold contract. apply map_ext; intros x. f_equal.
    apply map_ext; intros y. rewrite tpow_1. f_equal. f_equal. f_equal.
    unfold Rdiv. now rewrite Rmult_1_l.
Qed.

Lemma norm_pos (r : Vec3) : r <> vzero -> 0 < norm r.
Proof.
  destruct r as [[x y] z]. intros H. unfold norm. apply sqrt_lt_R0.
  destruct (Req_dec x 0) as [Hx|Hx]; [|nra].
  destruct (Req_dec y 0) as [Hy|Hy]; [|nra].
  destruct (Req_dec z 0) as [Hz|Hz]; [|nra].
  exfalso. apply H. unfold vzero. now subst.
Qed.

Lemma log_distance_descriptor1_norm (r : Vec3) :
  log_distance_descriptor1 r = (ln (norm r), vdiv r (norm r ^ 2)).
Proof.
  destruct r as [[x y] z]. unfold log_distance_descriptor1, norm.
  now replace (x ^ 2 + y ^ 2 + z ^ 2) with (x * x + y * y + z * z) by ring.
Qed.

Lemma norm_3_4_0 : norm (3, 4, 0) = 5.
Proof.
  unfold norm. replace (3 * 3 + 4 * 4 + 0 * 0) with (5 * 5) by lra.
  apply sqrt_square. lra.
Qed.

(** C9.  On every nonzero relative position [r] the log-distance descriptor
    returns [ln |r|] with the gradient [r / |r|^2], the distance itself
    squared in the denominator (and [|r| > 0], so both are defined); on all
    the rows of a tensor at once; and on [r = (3, 4, 0)] it returns [ln 5]
    and [(3, 4, 0) / 25]. *)
Theorem log_distance_descriptor_spec (rs : list Vec3) :
  Forall (fun r => r <> vzero) rs ->
  log_distance_descriptor rs
  = (map (fun r => ln (norm r)) rs, map (fun r => vdiv r (norm r ^ 2)) rs)
  /\ Forall (fun r => 0 < norm r) rs
  /\ log_distance_descriptor [(3, 4, 0)]
     = ([ln 5], [(3 / 25, 4 / 25, 0 / 25)]).
Proof.
  intros H. split; [|split].
  - unfold log_distance_descriptor, vectorized. f_equal; apply map_ext;
      intros r; now rewrite log_distance_descriptor1_norm.
  - eapply Forall_impl; [|exact H]. apply norm_pos.
  - unfold log_distance_descriptor, vectorized. cbn [map].
    rewrite log_distance_descriptor1_norm, norm_3_4_0. cbn [fst snd vdiv].
    now replace (5 ^ 2) with 25 by lra.
Qed.

Lemma log_distance_descriptor_spec_witness :
  log_distance_descriptor [(1, 0, 0)]
  = (map (fun r => ln (norm r)) [(1, 0, 0)],
     map (fun r => vdiv r (norm r ^ 2)) [(1, 0, 0)]).
Proof.
  apply (log_distance_descriptor_spec [(1, 0, 0)]).
  constructor; [|constructor].
  unfold vzero. intros E.
  apply (f_equal (fun v : Vec3 => fst (fst v))) in E. cbn in E. lra.
Defined.

(** *** Right gradients *)

Section RightGradients.

Variable select : System -> Z -> Z -> bool -> nat -> bool.
Variable K : Kernel.
Variables a b : Z.

Lemma contract_right_length c w p q :
  length (contract_right select a b c w p q)
  = length (selected select a b q).
Proof. unfold contract_right. apply length_map. Qed.

(** The right contraction is the left one with the structures and the
    arguments of the weights swapped. *)
Lemma contract_right_swap c w p q :
  contract_right select a b c w p q
  = contract select a b (fun y x => c x y) w q p.
Proof. reflexivity. Qed.

Lemma contract_ext c c' w p q :
  (forall x y, c x y = c' x y) ->
  contract select a b c w p q = contract select a b c' w p q.
Proof.
  intros H. unfold contract. apply map_ext; intros x. f_equal.
  apply map_ext; intros y. now rewrite H.
Qed.

Lemma rightgrad_rows_pair rd x ld :
  rightgrad_rows K rd (x, vopp x) ld
  = [ vsum (map (fun d => vscale (kern_rightgrad K d rd) x) ld);
      vopp (vsum (map (fun d => vscale (kern_rightgrad K d rd) x) ld)) ].
Proof.
  unfold rightgrad_rows. cbn [fst snd]. f_equal. f_equal.
  rewrite <- vsum_map_vopp, map_map. f_equal.
  apply map_ext. intros d. apply vscale_vopp.
Qed.

Lemma rightgrad_rows_paired (f : Vec3 -> R * Vec3) ld (rl : list Vec3) :
  flat_map (fun x => rightgrad_rows K (fst x) (snd x) ld)
    (combine (map (fun x => fst (f x)) rl)
       (map (fun x => (x, vopp x)) (map (fun x => snd (f x)) rl)))
  = flat_map
      (fun r =>
         [ vsum (map (fun d => vscale (kern_rightgrad K d (fst (f r)))
                                 (snd (f r))) ld);
           vopp (vsum (map (fun d => vscale (kern_rightgrad K d (fst (f r)))
                                       (snd (f r))) ld)) ])
      rl.
Proof.
  induction rl as [|r rl IH]; [reflexivity|].
  cbn [map combine flat_map fst snd]. now rewrite rightgrad_rows_pair, IH.
Qed.

(** X15.  The right gradient of each pair similarity kernel adds a
    pair's contribution at one of its two atoms and subtracts it at the
    other, as the left gradient does.  Whenever the indices of the selected
    pairs of [q] name atoms of [q], [rightgrad(p, q)] does not raise and
    has [3 * natoms] entries; the 3-vector of each atom of [q] is the sum
    of the contributions of the selected pairs that have the atom as their
    [j], minus the sum over those that have it as their [i], where the
    contribution of a pair [y] is the sum over the selected pairs [x] of
    [p] of the weight of the kernel at [x] and [y] times the gradient of
    the descriptor of [y]; so these 3-vectors sum to the zero vector. *)
Theorem rightgrad_sums_to_zero (eta : R) (p q : System)
  (f : Vec3 -> R * Vec3) (n : nat) (loc : Selected) (sp : Saved) :
  in_range select a b q ->
  well_formed n loc ->
  (forall rg,
      In rg [ distance_rightgrad select K a b p q;
              logdistance_rightgrad select K a b p q;
              coulomb_rightgrad select K a b p q;
              repulsive_rightgrad select K a b eta p q ] ->
      exists g, rg = Some g /\ atom_sum g = vzero
                /\ length g = (3 * sys_natoms q)%nat)
  /\ (exists g, rightgrad K sp (calculate (vectorized f) n loc) = Some g
                /\ atom_sum g = vzero /\ length g = (3 * n)%nat)
  /\ (exists g,
        distance_rightgrad select K a b p q = Some (view_flat g)
        /\ scattered select a b q
             (right_contribution select a b
                (fun x y => kern_rightgrad K (row_d x) (row_d y)) row_u p) g)
  /\ (exists g,
        logdistance_rightgrad select K a b p q = Some (view_flat g)
        /\ scattered select a b q
             (right_contribution select a b
                (fun x y => kern_rightgrad K (row_logd x) (row_logd y))
                row_logd_deriv p) g)
  /\ (exists g,
        coulomb_rightgrad select K a b p q = Some (view_flat g)
        /\ scattered select a b q
             (right_contribution select a b
                (fun x y =>
                   (kern_rightgrad K (row_d x) (row_d y)
                    - kern K (row_d x) (row_d y) / row_d y)
                   / (row_d x * row_d y)) row_u p) g)
  /\ (exists g,
        repulsive_rightgrad select K a b eta p q = Some (view_flat g)
        /\ scattered select a b q
             (right_contribution select a b
                (fun x y =>
                   (kern_rightgrad K (row_d x) (row_d y)
                    - eta * kern K (row_d x) (row_d y) / row_d y)
                   / tpow (row_d x * row_d y) eta) row_u p) g)
  /\ (exists g,
        rightgrad K sp (calculate (vectorized f) n loc) = Some (view_flat g)
        /\ scattered_loc n loc
             (fun r =>
                vsum (map (fun d => vscale (kern_rightgrad K d (fst (f r)))
                                      (snd (f r))) (value sp))) g).
Proof.
  intros Hr Hw. pose proof Hw as (Hi & Hj & Fi & Fj).
  assert (T : exists t,
             index_add (zeros n)
               (flat_map (fun ji => [fst ji; snd ji])
                  (combine (sel_j loc) (sel_i loc)))
               (flat_map
                  (fun r =>
                     [ vsum (map (fun d =>
                                    vscale (kern_rightgrad K d (fst (f r)))
                                      (snd (f r))) (value sp));
                       vopp (vsum (map (fun d =>
                                          vscale
                                            (kern_rightgrad K d (fst (f r)))
                                            (snd (f r))) (value sp))) ])
                  (sel_r loc)) = Some t).
  { destruct (paired_indices (sel_j loc) (sel_i loc) n) as [Lri Fri];
      [congruence|assumption|assumption|].
    apply index_add_defined; [|now rewrite zeros_length].
    rewrite Lri, Hi. clear.
    induction (sel_r loc) as [|r rl IH]; [reflexivity|].
    cbn [flat_map app length]. lia. }
  destruct T as [t Ht].
  assert (E : rightgrad K sp (calculate (vectorized f) n loc)
              = Some (view_flat t)).
  { unfold rightgrad, calculate, vectorized. cbn [natoms value grad indices].
    now rewrite rightgrad_rows_paired, Ht. }
  split; [|split].
  - intros rg [<-|[<-|[<-|[<-|[]]]]].
    + apply scatter_minus_plus; [exact Hr | apply contract_right_length].
    + apply scatter_minus_plus; [exact Hr | apply contract_right_length].
    + apply scatter_plus_minus_negated; [exact Hr | apply contract_right_length].
    + apply scatter_plus_minus_negated; [exact Hr | apply contract_right_length].
  - rewrite E. exists (view_flat t). split; [reflexivity|]. split.
    + rewrite atom_sum_view_flat, (index_add_vsum _ _ _ _ Ht), vsum_zeros.
      rewrite vadd_zero_l. clear.
      induction (sel_r loc) as [|r rl IH]; [reflexivity|].
      cbn [flat_map app]. rewrite !vsum_cons, IH, vadd_zero_r.
      apply vadd_opp.
    + now rewrite view_flat_length, (index_add_length _ _ _ _ Ht),
        zeros_length.
  - assert (M : forall c,
               exists g,
                 option_map_flat (fun g => g)
                   (scatter select a b q
                      (map vopp (map c (selected select a b q)))
                      (map c (selected select a b q))) = Some (view_flat g)
                 /\ scattered select a b q c g).
    { intros c. destruct (scattered_minus_plus select a b q c Hr)
        as (g & Hg & Sg).
      exists g. now rewrite Hg. }
    split; [apply M|]. split; [apply M|].
    split; [apply (scattered_plus_minus_negated select a b q _ Hr)|].
    split; [apply (scattered_plus_minus_negated select a b q _ Hr)|].
    exists t. split; [exact E|]. split.
    + now rewrite (index_add_length _ _ _ _ Ht), zeros_length.
    + intros k. rewrite (index_add_nth _ _ _ _ Ht k), nth_zeros, vadd_zero_l.
      now apply paired_scatter_nth.
Qed.

(** X16.  For a symmetric base kernel, whose right gradient is its left
    gradient with the arguments swapped, the right gradient of every pair
    similarity kernel is the left gradient with the two structures
    swapped: [rightgrad(p, q)] has the entries of [leftgrad(q, p)], in the
    same order (the first is viewed as a row and the second as a column;
    the lists here hold the entries). *)
Theorem rightgrad_is_leftgrad_swapped (eta : R) (p q : System)
  (sp sq : Saved) :
  symmetric K ->
  distance_rightgrad select K a b p q = distance_leftgrad select K a b q p
  /\ logdistance_rightgrad select K a b p q
     = logdistance_leftgrad select K a b q p
  /\ coulomb_rightgrad select K a b p q = coulomb_leftgrad select K a b q p
  /\ repulsive_rightgrad select K a b eta p q
     = repulsive_leftgrad select K a b eta q p
  /\ rightgrad K sp sq = leftgrad K sq sp.
Proof.
  intros [Hk Hg].
  unfold distance_rightgrad, distance_leftgrad, logdistance_rightgrad,
    logdistance_leftgrad, coulomb_rightgrad, coulomb_leftgrad,
    repulsive_rightgrad, repulsive_leftgrad.
  rewrite !contract_right_swap.
  repeat split.
  - rewrite (contract_ext _ (fun x y => kern_leftgrad K (row_d x) (row_d y)));
      [reflexivity|]. intros x y. apply Hg.
  - rewrite (contract_ext _
               (fun x y => kern_leftgrad K (row_logd x) (row_logd y)));
      [reflexivity|]. intros x y. apply Hg.
  - rewrite (contract_ext _
               (fun x y =>
                  (kern_leftgrad K (row_d x) (row_d y)
                   - kern K (row_d x) (row_d y) / row_d x)
                  / (row_d x * row_d y))); [reflexivity|].
    intros x y. cbn beta. now rewrite Hg, Hk, (Rmult_comm (row_d y)).
  - rewrite (contract_ext _
               (fun x y =>
                  (kern_leftgrad K (row_d x) (row_d y)
                   - eta * kern K (row_d x) (row_d y) / row_d x)
                  / tpow (row_d x * row_d y) eta)); [reflexivity|].
    intros x y. cbn beta. now rewrite Hg, Hk, (Rmult_comm (row_d y)).
  - unfold rightgrad, leftgrad.
    replace (flat_map (fun x => rightgrad_rows K (fst x) (snd x) (value sp))
               (combine (value sq) (grad sq)))
      with (flat_map (fun x => leftgrad_rows K (fst x) (snd x) (value sp))
              (combine (value sq) (grad sq))); [reflexivity|].
    apply flat_map_ext. intros [d g]. unfold leftgrad_rows, rightgrad_rows.
    cbn [fst snd]. f_equal; [|f_equal]; f_equal; apply map_ext; intros dd;
      now rewrite Hg.
Qed.

Lemma gradgraddiag_ext w w' u p :
  (forall x y, w x y = w' x y) ->
  gradgraddiag select a b w u p = gradgraddiag select a b w' u p.
Proof.
  intros H. unfold gradgraddiag.
  destruct (split_with_sizes _ _) as [chunks|]; [|reflexivity].
  destruct chunks as [|chunk chunks]; [reflexivity|].
  replace (map (diag_block w u) (chunk :: chunks))
    with (map (diag_block w' u) (chunk :: chunks));
    [reflexivity|].
  apply map_ext. intros g. unfold diag_block. f_equal.
  apply map_ext; intros x. f_equal. apply map_ext; intros y. now rewrite H.
Qed.

(** X17.  [RepulsiveCoreSimilarity] with [eta = 1] is
    [CoulombPairSimilarity] on the right gradient and on the diagonal of
    the second derivatives as well. *)
Theorem repulsive_core_eta_1_is_coulomb_rest (p q : System) :
  repulsive_rightgrad select K a b 1 p q = coulomb_rightgrad select K a b p q
  /\ repulsive_gradgraddiag select K a b 1 p
     = coulomb_gradgraddiag select K a b p.
Proof.
  split.
  - unfold repulsive_rightgrad, coulomb_rightgrad.
    rewrite !contract_right_swap.
    rewrite (contract_ext _
               (fun y x =>
                  (kern_rightgrad K (row_d x) (row_d y)
                   - kern K (row_d x) (row_d y) / row_d y)
                  / (row_d x * row_d y))); [reflexivity|].
    intros y x. cbn beta. rewrite tpow_1. unfold Rdiv. now rewrite Rmult_1_l.
  - unfold repulsive_gradgraddiag, coulomb_gradgraddiag.
    apply gradgraddiag_ext. intros x y. rewrite tpow_1.
    unfold Rdiv. f_equal. f_equal. f_equal; [f_equal|]; [f_equal| |]; ring.
Qed.

(** *** Values *)

Lemma rsum_map_plus {A} (f g : A -> R) (l : list A) :
  rsum (map (fun x => f x + g x) l) = rsum (map f l) + rsum (map g l).
Proof.
  induction l as [|x l IH]; cbn; [lra|].
  fold (rsum (map (fun x => f x + g x) l)) (rsum (map f l)) (rsum (map g l)).
  rewrite IH. lra.
Qed.

Lemma rsum_zero {A} (l : list A) : rsum (map (fun _ => 0) l) = 0.
Proof.
  induction l as [|x l IH]; cbn; [reflexivity|].
  fold (rsum (map (fun _ : A => 0) l)). rewrite IH. lra.
Qed.

(** The two sums of a double sum can be swapped. *)
Lemma rsum_swap {A B} (f : A -> B -> R) (l1 : list A) (l2 : list B) :
  rsum (map (fun x => rsum (map (fun y => f x y) l2)) l1)
  = rsum (map (fun y => rsum (map (fun x => f x y) l1)) l2).
Proof.
  induction l1 as [|x l1 IH].
  - cbn [map]. rewrite rsum_zero. reflexivity.
  - cbn [map].
    change (rsum (map (fun y => f x y) l2)
            + rsum (map (fun x0 => rsum (map (fun y => f x0 y) l2)) l1)
            = rsum (map (fun y => f x y + rsum (map (fun x0 => f x0 y) l1))
                      l2)).
    now rewrite rsum_map_plus, <- IH.
Qed.

Lemma total_swap c p q :
  total select a b c p q = total select a b (fun x y => c y x) q p.
Proof. unfold total. apply rsum_swap. Qed.

Lemma total_ext c c' p q :
  (forall x y, c x y = c' x y) ->
  total select a b c p q = total select a b c' p q.
Proof.
  intros H. unfold total. f_equal. apply map_ext; intros x. f_equal.
  apply map_ext; intros y. apply H.
Qed.

(** X18.  For a symmetric base kernel the value of every pair similarity
    kernel is symmetric in the two structures. *)
Theorem func_symmetric (eta : R) (p q : System) (sp sq : Saved) :
  (forall x y, kern K x y = kern K y x) ->
  distance_func select K a b p q = distance_func select K a b q p
  /\ logdistance_func select K a b p q = logdistance_func select K a b q p
  /\ coulomb_func select K a b p q = coulomb_func select K a b q p
  /\ repulsive_func select K a b eta p q = repulsive_func select K a b eta q p
  /\ func K sp sq = func K sq sp.
Proof.
  intros Hk.
  unfold distance_func, logdistance_func, coulomb_func, repulsive_func.
  repeat split.
  - rewrite total_swap. apply total_ext. intros x y. apply Hk.
  - rewrite total_swap. apply total_ext. intros x y. apply Hk.
  - rewrite total_swap. apply total_ext. intros x y. cbn beta.
    now rewrite Hk, (Rmult_comm (row_d y)).
  - rewrite total_swap. apply total_ext. intros x y. cbn beta.
    now rewrite Hk, (Rmult_comm (row_d y)).
  - unfold func. rewrite rsum_swap. f_equal. apply map_ext; intros x.
    f_equal. apply map_ext; intros y. apply Hk.
Qed.

(** *** Structures without pairs of the two species *)

Lemma set_nth_same (t : list Vec3) :
  forall k x, nth_error t k = Some x -> set_nth t k (vadd x vzero) = t.
Proof.
  induction t as [|y t IH]; intros [|k] x H; cbn [set_nth nth_error] in *;
    try discriminate.
  - injection H as ->. now rewrite vadd_zero_r.
  - now rewrite (IH _ _ H).
Qed.

Lemma index_add_zeros (index : list nat) :
  forall (t source : list Vec3),
    length index = length source ->
    Forall (fun k => (k < length t)%nat) index ->
    Forall (fun v => v = vzero) source ->
    index_add t index source = Some t.
Proof.
  induction index as [|k index IH]; intros t [|v source] L B Z;
    cbn in L; try discriminate; cbn [index_add]; [reflexivity|].
  inversion B; inversion Z; subst.
  destruct (nth_error t k) as [x|] eqn:E.
  - rewrite (set_nth_same _ _ _ E). apply IH; [lia | assumption | assumption].
  - apply nth_error_None in E. lia.
Qed.

Lemma view_flat_zeros n : view_flat (zeros n) = repeat 0 (3 * n).
Proof.
  induction n as [|n IH]; [reflexivity|].
  replace (3 * S n)%nat with (S (S (S (3 * n)))) by lia.
  unfold zeros in *. cbn [repeat view_flat flat_map app] in *.
  unfold view_flat in IH. now rewrite IH.
Qed.

Lemma map_Ropp_zeros n : map Ropp (repeat 0 n) = repeat 0 n.
Proof.
  induction n as [|n IH]; [reflexivity|].
  cbn [repeat map]. now rewrite IH, Ropp_0.
Qed.

Lemma contract_zero c w p q :
  selected select a b p = [] \/ selected select a b q = [] ->
  Forall (fun v => v = vzero) (contract select a b c w p q).
Proof.
  unfold contract. intros [H|H]; rewrite H; [constructor|].
  apply Forall_map, Forall_forall. intros x _. reflexivity.
Qed.

Lemma total_zero c p q :
  selected select a b p = [] \/ selected select a b q = [] ->
  total select a b c p q = 0.
Proof.
  unfold total. intros [H|H]; rewrite H; [reflexivity|].
  cbn [map]. apply (rsum_zero (selected select a b p)).
Qed.

Lemma scatter_zeros p x y :
  in_range select a b p ->
  length x = length (selected select a b p) ->
  length y = length (selected select a b p) ->
  Forall (fun v => v = vzero) x ->
  Forall (fun v => v = vzero) y ->
  scatter select a b p x y = Some (zeros (sys_natoms p)).
Proof.
  intros Hr Lx Ly Zx Zy. unfold scatter.
  rewrite index_add_zeros; try assumption.
  - apply index_add_zeros; try assumption.
    + now rewrite length_map.
    + rewrite zeros_length. apply Forall_map.
      eapply Forall_impl; [|exact Hr]. cbn. tauto.
  - now rewrite length_map.
  - rewrite zeros_length. apply Forall_map.
    eapply Forall_impl; [|exact Hr]. cbn. tauto.
Qed.

Lemma Forall_zero_vopp (c : list Vec3) :
  Forall (fun v => v = vzero) c -> Forall (fun v => v = vzero) (map vopp c).
Proof.
  intros H. apply Forall_map. eapply Forall_impl; [|exact H].
  cbn. intros v ->. apply vopp_zero.
Qed.

(** X19.  When one of the two structures has no selected pair of the two
    species, the value of each System kernel is zero and its left gradient
    is the zero vector of [3 * natoms] entries: nothing raises. *)
Theorem no_pairs_no_contribution (eta : R) (p q : System) :
  in_range select a b p ->
  selected select a b p = [] \/ selected select a b q = [] ->
  (forall v,
      In v [ distance_func select K a b p q;
             logdistance_func select K a b p q;
             coulomb_func select K a b p q;
             repulsive_func select K a b eta p q ] -> v = 0)
  /\ (forall lg,
        In lg [ distance_leftgrad select K a b p q;
                logdistance_leftgrad select K a b p q;
                coulomb_leftgrad select K a b p q;
                repulsive_leftgrad select K a b eta p q ] ->
        lg = Some (repeat 0 (3 * sys_natoms p))).
Proof.
  intros Hr He. split.
  - intros v [<-|[<-|[<-|[<-|[]]]]]; now apply total_zero.
  - assert (S : forall c w,
               scatter select a b p (map vopp (contract select a b c w p q))
                 (contract select a b c w p q)
               = Some (zeros (sys_natoms p))
               /\ scatter select a b p (contract select a b c w p q)
                    (map vopp (contract select a b c w p q))
                  = Some (zeros (sys_natoms p))).
    { intros c w. pose proof (contract_zero c w p q He) as Z.
      split; apply scatter_zeros;
        rewrite ?length_map, ?contract_length;
        auto using Forall_zero_vopp. }
    intros lg [<-|[<-|[<-|[<-|[]]]]];
      unfold distance_leftgrad, logdistance_leftgrad, coulomb_leftgrad,
        repulsive_leftgrad;
      first [ rewrite (proj1 (S _ _)) | rewrite (proj2 (S _ _)) ];
      cbn [option_map_flat]; now rewrite view_flat_zeros, ?map_Ropp_zeros.
Qed.

End RightGradients.

Lemma demo_kernel_symmetric : symmetric demo_kernel.
Proof. split; intros x y; cbn; [apply Rmult_comm | reflexivity]. Qed.

(** On the two atoms at distance 5 against the bent chain, with the kernel
    [x * y]: the pair of [q] receives [(2 + 3) * (3/5, 4/5, 0)] at its atom
    [j] and the opposite at its atom [i]. *)
Lemma rightgrad_sums_to_zero_witness :
  exists g,
    distance_rightgrad demo_select demo_kernel 1 1 demo_chain demo_system
    = Some (view_flat g)
    /\ nth 1 g vzero = (3, 4, 0) /\ nth 0 g vzero = (-3, -4, 0).
Proof.
  destruct (rightgrad_sums_to_zero demo_select demo_kernel 1 1 1
              demo_chain demo_system distance_descriptor1 2 demo_loc
              (mkSaved 2 [] [] []) demo_in_range demo_well_formed)
    as (_ & _ & (g & Hg & _ & Sg) & _).
  exists g. split; [exact Hg|].
  rewrite (Sg 1%nat), (Sg 0%nat). cbn. split; vec; field.
Defined.

Lemma demo_chain_in_range : in_range demo_select 1 1 demo_chain.
Proof. repeat constructor. Qed.

Lemma rightgrad_is_leftgrad_swapped_witness :
  distance_rightgrad demo_select demo_kernel 1 1 demo_chain demo_system
  = distance_leftgrad demo_select demo_kernel 1 1 demo_system demo_chain.
Proof.
  apply (rightgrad_is_leftgrad_swapped demo_select demo_kernel 1 1 1
           demo_chain demo_system (mkSaved 2 [2; 3] [] [])
           (mkSaved 2 [5] [] []) demo_kernel_symmetric).
Defined.

Lemma func_symmetric_witness :
  distance_func demo_select demo_kernel 1 1 demo_chain demo_system
  = distance_func demo_select demo_kernel 1 1 demo_system demo_chain.
Proof.
  apply (func_symmetric demo_select demo_kernel 1 1 2
           demo_chain demo_system (mkSaved 2 [2; 3] [] [])
           (mkSaved 2 [5] [] []) (proj1 demo_kernel_symmetric)).
Defined.

Lemma no_pairs_no_contribution_witness :
  logdistance_leftgrad demo_select demo_kernel 1 1 demo_system (mkSystem 3 [])
  = Some (repeat 0 6).
Proof.
  destruct (no_pairs_no_contribution demo_select demo_kernel 1 1 1
              demo_system (mkSystem 3 []) demo_in_range
              (or_intror eq_refl)) as [_ H].
  apply H. right. left. reflexivity.
Defined.

(** *** The diagonal of the second derivatives *)

Lemma split_with_sizes_one {A} (x : A) (t : list A) (sizes : list nat) :
  split_with_sizes (x :: t) (1%nat :: sizes)
  = option_map (cons [x]) (split_with_sizes t sizes).
Proof. cbn. now destruct (split_with_sizes t sizes). Qed.

Lemma split_with_sizes_succ {A} (x : A) (t : list A) (c : nat)
  (sizes : list nat) :
  split_with_sizes (x :: t) (S c :: sizes)
  = match split_with_sizes t (c :: sizes) with
    | Some (g :: chunks) => Some ((x :: g) :: chunks)
    | _ => None
    end.
Proof.
  cbn [split_with_sizes].
  change (Nat.ltb (length (x :: t)) (S c)) with (Nat.ltb (length t) c).
  destruct (Nat.ltb (length t) c); [reflexivity|].
  change (skipn (S c) (x :: t)) with (skipn c t).
  now destruct (split_with_sizes (skipn c t) sizes).
Qed.

Section Grouping.

Variable A : Type.
Variable f : A -> nat.

Lemma filter_none (t : list A) (k : nat) :
  (forall y, In y t -> f y <> k) ->
  filter (fun y => Nat.eqb (f y) k) t = [].
Proof.
  induction t as [|y t IH]; intros H; [reflexivity|].
  cbn [filter]. destruct (Nat.eqb_spec (f y) k) as [E|E].
  - exfalso. apply (H y); [now left | exact E].
  - apply IH. intros z Hz. apply H. now right.
Qed.

Lemma filter_hit (x : A) (t : list A) (k : nat) :
  f x = k ->
  filter (fun y => Nat.eqb (f y) k) (x :: t)
  = x :: filter (fun y => Nat.eqb (f y) k) t.
Proof. intros <-. cbn [filter]. now rewrite Nat.eqb_refl. Qed.

Lemma map_filter_skip (x : A) (t : list A) (ks : list nat) :
  ~ In (f x) ks ->
  map (fun k => filter (fun y => Nat.eqb (f y) k) (x :: t)) ks
  = map (fun k => filter (fun y => Nat.eqb (f y) k) t) ks.
Proof.
  intros H. apply map_ext_in. intros k Hk. cbn [filter].
  destruct (Nat.eqb_spec (f x) k) as [E|E]; [|reflexivity].
  exfalso. apply H. now rewrite E.
Qed.

Lemma unique_counts_sorted (t : list A) :
  StronglySorted (fun x y => (f x <= f y)%nat) t ->
  match t with
  | [] => unique_counts (map f t) = []
  | y0 :: _ => exists c r, unique_counts (map f t) = (f y0, c) :: r
  end
  /\ NoDup (map fst (unique_counts (map f t)))
  /\ (forall k, In k (map fst (unique_counts (map f t))) <->
                exists y, In y t /\ f y = k)
  /\ split_with_sizes t (map snd (unique_counts (map f t)))
     = Some (map (fun k => filter (fun y => Nat.eqb (f y) k) t)
               (map fst (unique_counts (map f t)))).
Proof.
  induction t as [|x t IH]; intros S.
  - cbn. split; [reflexivity|]. split; [constructor|].
    split; [|reflexivity].
    intros k; split; [intros [] | intros (y & [] & _)].
  - inversion S as [|? ? S' F]; subst. specialize (IH S').
    destruct IH as (I1 & I2 & I3 & I4).
    change (unique_counts (map f (x :: t)))
      with (count_insert (f x) (unique_counts (map f t))).
    set (uc := unique_counts (map f t)) in *.
    destruct t as [|y0 t].
    + rewrite I1. cbn [count_insert map fst snd]. split; [eauto|].
      split; [repeat constructor; intros []|]. split.
      * intros k. split.
        -- intros [<-|[]]. exists x. split; [now left | reflexivity].
        -- intros (y & [<-|[]] & <-). now left.
      * cbn. now rewrite Nat.eqb_refl.
    + destruct I1 as (c & r & E). rewrite E in *.
      inversion F as [|? ? Hle F']; subst.
      cbn [count_insert].
      destruct (Nat.ltb_spec (f x) (f y0)) as [Hlt|Hge].
      * assert (Hx : ~ In (f x) (map fst ((f y0, c) :: r))).
        { intros Hin. apply I3 in Hin. destruct Hin as (y & Hy & Ey).
          destruct Hy as [<-|Hy]; [lia|].
          rewrite Forall_forall in F'. specialize (F' y Hy).
          inversion S' as [|? ? _ F0]; subst.
          rewrite Forall_forall in F0. specialize (F0 y Hy). lia. }
        split; [eauto|]. split; [cbn [map fst]; constructor; assumption|].
        split.
        -- intros k. cbn [map fst]. split.
           ++ intros [<-|Hk].
              ** exists x. split; [now left | reflexivity].
              ** apply I3 in Hk. destruct Hk as (y & Hy & Ey).
                 exists y. split; [now right | exact Ey].
           ++ intros (y & [<-|Hy] & <-); [now left|].
              right. apply I3. eauto.
        -- cbn [map fst snd] in I4 |- *. rewrite split_with_sizes_one, I4.
           cbn [option_map]. f_equal. f_equal.
           ++ rewrite filter_hit by reflexivity. f_equal. symmetry.
              apply filter_none. intros y Hy Ey.
              apply Hx. apply I3. eauto.
           ++ symmetry.
              exact (map_filter_skip x (y0 :: t) (f y0 :: map fst r) Hx).
      * assert (Ex : f x = f y0) by lia. rewrite Ex, Nat.eqb_refl.
        split; [eauto|]. cbn [map fst snd] in *. split; [exact I2|].
        split.
        -- intros k. split.
           ++ intros Hk. apply I3 in Hk. destruct Hk as (y & Hy & Ey).
              exists y. split; [now right | exact Ey].
           ++ intros (y & [<-|Hy] & <-); [now left|].
              apply I3. eauto.
        -- rewrite split_with_sizes_succ, I4. f_equal. f_equal.
           ++ now rewrite (filter_hit x (y0 :: t) (f y0) Ex).
           ++ symmetry. apply map_filter_skip. rewrite Ex.
              now inversion I2.
Qed.

End Grouping.

(** Adding at distinct rows: each of the rows gets its own summand and
    the other rows stay. *)
Lemma index_add_distinct (g : nat -> Vec3) (index : list nat) :
  forall t,
    NoDup index ->
    Forall (fun k => (k < length t)%nat) index ->
    exists t',
      index_add t index (map g index) = Some t'
      /\ length t' = length t
      /\ forall k,
          nth k t' vzero
          = if in_dec Nat.eq_dec k index
            then vadd (nth k t vzero) (g k) else nth k t vzero.
Proof.
  induction index as [|i index IH]; intros t N B.
  - exists t. cbn. auto.
  - inversion N as [|? ? Ni N']; subst. inversion B as [|? ? Bi B']; subst.
    cbn [map index_add].
    destruct (nth_error t i) as [x|] eqn:E;
      [|apply nth_error_None in E; lia].
    assert (Ex : nth i t vzero = x) by now apply nth_error_nth.
    destruct (IH (set_nth t i (vadd x (g i))) N') as (t' & H1 & H2 & H3).
    { now rewrite set_nth_length. }
    exists t'. split; [exact H1|]. split; [now rewrite H2, set_nth_length|].
    intros k. rewrite H3.
    destruct (in_dec Nat.eq_dec k (i :: index)) as [Hin|Hout];
      destruct (in_dec Nat.eq_dec k index) as [Hin'|Hout'].
    + rewrite nth_set_nth_other; [reflexivity|]. intros ->. contradiction.
    + destruct Hin as [<-|Hin]; [|contradiction].
      rewrite nth_set_nth_same by assumption. now rewrite Ex.
    + exfalso. apply Hout. now right.
    + apply nth_set_nth_other. intros ->. apply Hout. now left.
Qed.

Section Diagonal.

Variable select : System -> Z -> Z -> bool -> nat -> bool.
Variables a b : Z.

(** X20.  [gradgraddiag] raises when no pair is selected both ways: there
    is nothing to stack.  When there are such pairs, ordered by their first
    atom, and these atoms are atoms of the structure, it returns
    [3 * natoms] entries, and the three entries of each atom are the double
    sum, over the pairs [x] and [y] of that atom alone, of
    [w x y * u y * u x]; an atom without pairs has zeros. *)
Theorem gradgraddiag_per_atom (w : PairRow -> PairRow -> R)
  (u : PairRow -> Vec3) (p : System) :
  StronglySorted (fun x y => (row_i x <= row_i y)%nat)
    (selected_both select a b p) ->
  in_range_both select a b p ->
  (selected_both select a b p = [] ->
   gradgraddiag select a b w u p = None)
  /\ (selected_both select a b p <> [] ->
      exists t,
        gradgraddiag select a b w u p = Some (view_flat t)
        /\ length t = sys_natoms p
        /\ length (view_flat t) = (3 * sys_natoms p)%nat
        /\ forall k,
            nth k t vzero
            = diag_block w u
                (filter (fun y => Nat.eqb (row_i y) k)
                   (selected_both select a b p))).
Proof.
  intros S Hr. split.
  { intros E. unfold gradgraddiag. now rewrite E. }
  intros Hne. unfold gradgraddiag.
  destruct (unique_counts_sorted _ row_i _ S) as (_ & N & I & Sp).
  set (rows := selected_both select a b p) in *.
  set (uc := unique_counts (map row_i rows)) in *.
  rewrite Sp.
  assert (Hkeys : map fst uc <> []).
  { intros Ek. destruct rows as [|x rows]; [now apply Hne|].
    assert (Hx : In (row_i x) (map fst uc)).
    { apply I. exists x. split; [now left | reflexivity]. }
    rewrite Ek in Hx. destruct Hx. }
  destruct (map (fun k => filter (fun y => Nat.eqb (row_i y) k) rows)
              (map fst uc)) as [|chunk chunks] eqn:EF.
  { apply map_eq_nil in EF. contradiction. }
  rewrite <- EF, map_map.
  destruct (index_add_distinct
              (fun k => diag_block w u
                          (filter (fun y => Nat.eqb (row_i y) k) rows))
              (map fst uc) (zeros (sys_natoms p)) N)
    as (t & H1 & H2 & H3).
  { rewrite zeros_length. apply Forall_forall. intros k Hk.
    apply I in Hk. destruct Hk as (y & Hy & <-).
    unfold in_range_both in Hr. rewrite Forall_forall in Hr.
    now apply Hr. }
  rewrite H1. exists t.
  rewrite zeros_length in H2.
  split; [reflexivity|]. split; [exact H2|].
  split; [now rewrite view_flat_length, H2|].
  intros k. rewrite H3, nth_zeros.
  destruct (in_dec Nat.eq_dec k (map fst uc)) as [Hin|Hout].
  - apply vadd_zero_l.
  - rewrite (filter_none _ row_i rows k); [reflexivity|].
    intros y Hy Ey. apply Hout. apply I. eauto.
Qed.

End Diagonal.

(** On the bent chain, with the pairs taken one way: atom 0 has the pair
    along [x], atom 1 the pair along [y], atom 2 none. *)
Lemma gradgraddiag_per_atom_witness :
  exists t,
    distance_gradgraddiag demo_select demo_kernel 1 1 demo_chain
    = Some (view_flat t)
    /\ nth 0 t vzero = (1, 0, 0) /\ nth 1 t vzero = (0, 1, 0)
    /\ nth 2 t vzero = vzero.
Proof.
  destruct (gradgraddiag_per_atom demo_select 1 1
              (fun x y => kern_gradgrad demo_kernel (row_d x) (row_d y))
              row_u demo_chain) as (_ & H).
  - repeat constructor.
  - repeat constructor.
  - destruct H as (t & H1 & _ & _ & H3); [discriminate|].
    exists t. split; [exact H1|].
    rewrite (H3 0%nat), (H3 1%nat), (H3 2%nat).
    cbn. repeat split; vec.
Defined.

(** *** The matrix of the second derivatives *)

Section IndexAddWith.

Variable T : Type.
Variable add : T -> T -> T.
Variable opp : T -> T.
Variable ok : T -> Prop.

Hypothesis add_comm : forall x y, add x y = add y x.
Hypothesis add_assoc : forall x y z, add x (add y z) = add (add x y) z.
Hypothesis add_cancel :
  forall z x, ok z -> ok x -> add (add z x) (opp x) = z.
Hypothesis ok_add : forall x y, ok x -> ok y -> ok (add x y).
Hypothesis ok_opp : forall x, ok x -> ok (opp x).

Lemma fold_set_nth (z : T) (t : list T) :
  forall k x v,
    nth_error t k = Some x ->
    fold_right add z (set_nth t k (add x v)) = add (fold_right add z t) v.
Proof.
  induction t as [|y t IH]; intros [|k] x v H; cbn in H; try discriminate.
  - injection H as ->. cbn.
    now rewrite <- !add_assoc, (add_comm v).
  - cbn. rewrite (IH _ _ _ H). apply add_assoc.
Qed.

Lemma index_add_with_fold (z : T) (index : list nat) :
  forall t source t',
    index_add_with add t index source = Some t' ->
    fold_right add z t' = fold_left add source (fold_right add z t).
Proof.
  induction index as [|k index IH]; intros t [|v source] t' H;
    cbn in H; try discriminate.
  - now injection H as <-.
  - destruct (nth_error t k) as [x|] eqn:E; [|discriminate].
    rewrite (IH _ _ _ H). cbn [fold_left]. now rewrite (fold_set_nth _ _ _ _ _ E).
Qed.

Lemma fold_left_add_out (l : list T) :
  forall z v, add (fold_left add l z) v = fold_left add l (add z v).
Proof.
  induction l as [|x l IH]; intros z v; [reflexivity|].
  cbn [fold_left]. rewrite IH. f_equal.
  now rewrite <- !add_assoc, (add_comm x).
Qed.

Lemma fold_left_cancel (c : list T) :
  forall z, ok z -> Forall ok c ->
            fold_left add (map opp c) (fold_left add c z) = z.
Proof.
  induction c as [|x c IH]; intros z Hz Hc; [reflexivity|].
  inversion Hc; subst. cbn [map fold_left].
  rewrite fold_left_add_out, add_cancel by assumption.
  now apply IH.
Qed.

Lemma set_nth_ok (t : list T) :
  forall k v, Forall ok t -> ok v -> Forall ok (set_nth t k v).
Proof.
  induction t as [|y t IH]; intros [|k] v Ht Hv; cbn; inversion Ht; subst;
    constructor; auto.
Qed.

Lemma index_add_with_defined (index : list nat) :
  forall t source,
    length index = length source ->
    Forall (fun k => (k < length t)%nat) index ->
    Forall ok t -> Forall ok source ->
    exists t', index_add_with add t index source = Some t'
               /\ length t' = length t /\ Forall ok t'.
Proof.
  induction index as [|k index IH]; intros t [|v source] L B Ht Hs;
    cbn in L; try discriminate.
  - exists t. cbn. auto.
  - inversion B as [|? ? Bk B']; subst.
    inversion Hs as [|? ? Hv Hs']; subst. cbn [index_add_with].
    destruct (nth_error t k) as [x|] eqn:E;
      [|apply nth_error_None in E; lia].
    assert (Hx : ok x).
    { rewrite Forall_forall in Ht. apply Ht. eapply nth_error_In, E. }
    destruct (IH (set_nth t k (add x v)) source) as (t' & H1 & H2 & H3).
    + lia.
    + now rewrite set_nth_length.
    + apply set_nth_ok; auto.
    + assumption.
    + exists t'. rewrite set_nth_length in H2. auto.
Qed.

(** Adding the rows of [c] at some places and taking them away at others
    leaves the sum over the places as it was. *)
Lemma index_add_with_twice (z : T) (il jl : list nat) (t c : list T) :
  length il = length c -> length jl = length c ->
  Forall (fun k => (k < length t)%nat) il ->
  Forall (fun k => (k < length t)%nat) jl ->
  ok z -> Forall ok t -> Forall ok c ->
  exists t0 t',
    index_add_with add t il c = Some t0
    /\ index_add_with add t0 jl (map opp c) = Some t'
    /\ length t' = length t /\ Forall ok t'
    /\ (ok (fold_right add z t) ->
        fold_right add z t' = fold_right add z t).
Proof.
  intros Li Lj Bi Bj Hz Ht Hc.
  destruct (index_add_with_defined il t c Li Bi Ht Hc) as (t0 & H0 & L0 & K0).
  destruct (index_add_with_defined jl t0 (map opp c)) as (t' & H1 & L1 & K1).
  - now rewrite length_map.
  - now rewrite L0.
  - assumption.
  - apply Forall_map. eapply Forall_impl; [|exact Hc]. apply ok_opp.
  - exists t0, t'. split; [exact H0|]. split; [exact H1|].
    split; [congruence|]. split; [exact K1|].
    intros Hs. rewrite (index_add_with_fold z _ _ _ _ H1),
      (index_add_with_fold z _ _ _ _ H0).
    now apply fold_left_cancel.
Qed.

End IndexAddWith.

Ltac mat :=
  repeat match goal with
         | x : Mat3 |- _ => destruct x as [[[[? ?] ?] [[? ?] ?]] [[? ?] ?]]
         end;
  unfold madd, mopp, mzero, vadd, vopp, vzero;
  repeat match goal with |- (_, _) = (_, _) => apply f_equal2 end;
  ring.

Lemma madd_comm (x y : Mat3) : madd x y = madd y x.
Proof. mat. Qed.

Lemma madd_assoc (x y z : Mat3) : madd x (madd y z) = madd (madd x y) z.
Proof. mat. Qed.

Lemma madd_cancel (z x : Mat3) : madd (madd z x) (mopp x) = z.
Proof. mat. Qed.

Lemma madd_zero_r (x : Mat3) : madd x mzero = x.
Proof. mat. Qed.

Lemma mopp_zero : mopp mzero = mzero.
Proof. mat. Qed.

Lemma madd_interchange (x v x' v' : Mat3) :
  madd (madd x v) (madd x' v') = madd (madd x x') (madd v v').
Proof. mat. Qed.

Lemma msum_zeros (n : nat) : msum (repeat mzero n) = mzero.
Proof.
  induction n as [|n IH]; [reflexivity|].
  cbn [repeat]. unfold msum in *. cbn [fold_right]. rewrite IH.
  apply madd_zero_r.
Qed.

(** Rows of blocks *)

Lemma radd_cons (x y : Mat3) (r s : list Mat3) :
  radd (x :: r) (y :: s) = madd x y :: radd r s.
Proof. reflexivity. Qed.

Lemma radd_comm (r s : list Mat3) : radd r s = radd s r.
Proof.
  revert s. induction r as [|x r IH]; intros [|y s]; try reflexivity.
  now rewrite !radd_cons, IH, madd_comm.
Qed.

Lemma radd_assoc (r s t : list Mat3) :
  radd r (radd s t) = radd (radd r s) t.
Proof.
  revert s t. induction r as [|x r IH]; intros [|y s] [|z t];
    try reflexivity.
  now rewrite !radd_cons, IH, madd_assoc.
Qed.

Lemma radd_length (n : nat) (r s : list Mat3) :
  length r = n -> length s = n -> length (radd r s) = n.
Proof.
  intros Hr Hs. unfold radd. rewrite length_map, length_combine. lia.
Qed.

Lemma radd_cancel (n : nat) (z x : list Mat3) :
  length z = n -> length x = n -> radd (radd z x) (map mopp x) = z.
Proof.
  revert z x. induction n as [|n IH]; intros [|a z] [|c x] Hz Hx;
    cbn in Hz, Hx; try discriminate; [reflexivity|].
  cbn [map]. rewrite !radd_cons, madd_cancel, IH; auto.
Qed.

Lemma radd_zeros (n : nat) :
  radd (repeat mzero n) (repeat mzero n) = repeat mzero n.
Proof.
  induction n as [|n IH]; [reflexivity|].
  cbn [repeat]. now rewrite radd_cons, IH, madd_zero_r.
Qed.

Lemma fold_radd_zeros (n k : nat) :
  fold_right radd (repeat mzero n) (zeros4 k n) = repeat mzero n.
Proof.
  unfold zeros4. induction k as [|k IH]; [reflexivity|].
  cbn [repeat fold_right]. rewrite IH. apply radd_zeros.
Qed.

Lemma nth_error_radd (t t' : list Mat3) :
  forall k x x',
    nth_error t k = Some x -> nth_error t' k = Some x' ->
    nth_error (radd t t') k = Some (madd x x').
Proof.
  revert t'. induction t as [|y t IH]; intros [|y' t'] [|k] x x' H H';
    cbn in H, H'; try discriminate.
  - now injection H as ->; injection H' as ->.
  - rewrite radd_cons. cbn [nth_error]. now apply IH.
Qed.

Lemma set_nth_radd (t t' : list Mat3) :
  forall k y y',
    set_nth (radd t t') k (madd y y')
    = radd (set_nth t k y) (set_nth t' k y').
Proof.
  revert t'. induction t as [|z t IH]; intros [|z' t'] [|k] y y';
    try reflexivity.
  cbn [set_nth]. rewrite !radd_cons. cbn [set_nth]. now rewrite IH.
Qed.

(** [index_add] is additive in the tensor and the source together. *)
Lemma index_add_with_radd (index : list nat) :
  forall t t' s s' t1 t1',
    index_add_with madd t index s = Some t1 ->
    index_add_with madd t' index s' = Some t1' ->
    index_add_with madd (radd t t') index (radd s s') = Some (radd t1 t1').
Proof.
  induction index as [|k index IH]; intros t t' [|v s] [|v' s'] t1 t1' H H';
    cbn in H, H'; try discriminate.
  - injection H as <-. now injection H' as <-.
  - destruct (nth_error t k) as [x|] eqn:E; [|discriminate].
    destruct (nth_error t' k) as [x'|] eqn:E'; [|discriminate].
    rewrite radd_cons. cbn [index_add_with].
    rewrite (nth_error_radd _ _ _ _ _ E E'), madd_interchange, set_nth_radd.
    now apply IH.
Qed.

Lemma set_nth_mzero (t : list Mat3) :
  forall k x, nth_error t k = Some x -> set_nth t k (madd x mzero) = t.
Proof.
  induction t as [|y t IH]; intros [|k] x H; cbn [set_nth nth_error] in *;
    try discriminate.
  - injection H as ->. now rewrite madd_zero_r.
  - now rewrite (IH _ _ H).
Qed.

Lemma index_add_with_mzeros (index : list nat) :
  forall (t : list Mat3),
    Forall (fun k => (k < length t)%nat) index ->
    index_add_with madd t index (repeat mzero (length index)) = Some t.
Proof.
  induction index as [|k index IH]; intros t B; [reflexivity|].
  inversion B as [|? ? Bk B']; subst. cbn [length repeat index_add_with].
  destruct (nth_error t k) as [x|] eqn:E;
    [|apply nth_error_None in E; lia].
  rewrite (set_nth_mzero _ _ _ E). now apply IH.
Qed.

Lemma vsum_fst_fst (r : list Mat3) :
  vsum (map (fun m : Mat3 => fst (fst m)) r) = fst (fst (msum r)).
Proof.
  induction r as [|[[x y] z] r IH]; [reflexivity|].
  cbn [map]. rewrite vsum_cons, IH. unfold msum. cbn [fold_right].
  now destruct (fold_right madd mzero r) as [[? ?] ?].
Qed.

Lemma vsum_snd_fst (r : list Mat3) :
  vsum (map (fun m : Mat3 => snd (fst m)) r) = snd (fst (msum r)).
Proof.
  induction r as [|[[x y] z] r IH]; [reflexivity|].
  cbn [map]. rewrite vsum_cons, IH. unfold msum. cbn [fold_right].
  now destruct (fold_right madd mzero r) as [[? ?] ?].
Qed.

Lemma vsum_snd (r : list Mat3) :
  vsum (map (fun m : Mat3 => snd m) r) = snd (msum r).
Proof.
  induction r as [|[[x y] z] r IH]; [reflexivity|].
  cbn [map]. rewrite vsum_cons, IH. unfold msum. cbn [fold_right].
  now destruct (fold_right madd mzero r) as [[? ?] ?].
Qed.

Section Dim2.

Variable n : nat.
Variables il jl : list nat.
Hypothesis Li : Forall (fun k => (k < n)%nat) il.
Hypothesis Lj : Forall (fun k => (k < n)%nat) jl.
Hypothesis Lij : length jl = length il.

(** One row of the two additions along the third axis. *)
Lemma row_twice (s : list Mat3) :
  length s = length il ->
  exists r0 r,
    index_add_with madd (repeat mzero n) il s = Some r0
    /\ index_add_with madd r0 jl (map mopp s) = Some r
    /\ length r = n /\ msum r = mzero.
Proof.
  intros Ls.
  destruct (index_add_with_twice Mat3 madd mopp (fun _ => True)
              madd_comm madd_assoc (fun z x _ _ => madd_cancel z x)
              (fun _ _ _ _ => I) (fun _ _ => I)
              mzero il jl (repeat mzero n) s)
    as (r0 & r & H0 & H1 & L & _ & S);
    rewrite ?repeat_length; try assumption; try congruence; auto.
  - apply Forall_forall. auto.
  - apply Forall_forall. auto.
  - exists r0, r. rewrite repeat_length in L.
    split; [exact H0|]. split; [exact H1|]. split; [exact L|].
    unfold msum. rewrite S by exact I. apply msum_zeros.
Qed.

Lemma dim2_twice (cc : list (list Mat3)) :
  Forall (fun s => length s = length il) cc ->
  exists t1 ccc,
    index_add_dim2 (zeros4 (length cc) n) il cc = Some t1
    /\ index_add_dim2 t1 jl (map (map mopp) cc) = Some ccc
    /\ length ccc = length cc
    /\ Forall (fun r => length r = n /\ msum r = mzero) ccc
    /\ exists r0,
        index_add_with madd (repeat mzero n) il
          (fold_right radd (repeat mzero (length il)) cc) = Some r0
        /\ index_add_with madd r0 jl
             (map mopp (fold_right radd (repeat mzero (length il)) cc))
           = Some (fold_right radd (repeat mzero n) ccc).
Proof.
  induction cc as [|s cc IH]; intros H.
  - exists [], []. cbn [length zeros4 repeat index_add_dim2 map fold_right].
    repeat split; try constructor.
    exists (repeat mzero n). split.
    + apply index_add_with_mzeros. now rewrite repeat_length.
    + rewrite map_repeat, mopp_zero, <- Lij.
      apply index_add_with_mzeros. now rewrite repeat_length.
  - inversion H as [|? ? Hs H']; subst.
    destruct (IH H') as (t1 & ccc & E1 & E2 & L & F & r0 & A0 & A1).
    destruct (row_twice s Hs) as (q0 & r & B0 & B1 & Lr & Sr).
    exists (q0 :: t1), (r :: ccc).
    unfold zeros4 in *. cbn [length repeat index_add_dim2 map fold_right].
    rewrite B0, E1, B1, E2. split; [reflexivity|]. split; [reflexivity|].
    split; [now rewrite L|]. split; [constructor; auto|].
    exists (radd q0 r0). split.
    + rewrite <- (radd_zeros n) at 1.
      now apply index_add_with_radd.
    + replace (map mopp (radd s (fold_right radd (repeat mzero (length il)) cc)))
        with (radd (map mopp s)
                (map mopp (fold_right radd (repeat mzero (length il)) cc))).
      * now apply index_add_with_radd.
      * generalize (fold_right radd (repeat mzero (length il)) cc).
        clear. revert s. induction s as [|x s IHs]; intros [|y l];
          try reflexivity.
        cbn [map]. rewrite !radd_cons. cbn [map]. rewrite IHs. f_equal. mat.
Qed.

End Dim2.

Lemma view_matrix_length (t : list (list Mat3)) :
  length (view_matrix t) = (3 * length t)%nat.
Proof.
  unfold view_matrix. induction t as [|r t IH]; [reflexivity|].
  cbn [flat_map length app]. rewrite IH. lia.
Qed.

Lemma view_matrix_rows (n : nat) (t : list (list Mat3)) :
  Forall (fun r => length r = n /\ msum r = mzero) t ->
  Forall (fun row => length row = (3 * n)%nat /\ atom_sum row = vzero)
    (view_matrix t).
Proof.
  unfold view_matrix. induction 1 as [|r t [L S] _ IH]; [constructor|].
  cbn [flat_map app].
  repeat constructor; try exact IH;
    rewrite ?view_flat_length, ?length_map, ?atom_sum_view_flat,
      ?vsum_fst_fst, ?vsum_snd_fst, ?vsum_snd, ?S; auto.
Qed.

Section SecondDerivatives.

Variable select : System -> Z -> Z -> bool -> nat -> bool.
Variable K : Kernel.
Variables a b : Z.

Lemma gradgrad_zero_sums (w : PairRow -> PairRow -> R)
  (u : PairRow -> Vec3) (p q : System) :
  in_range select a b p ->
  in_range select a b q ->
  exists t,
    gradgrad select a b w u p q = Some (view_matrix t)
    /\ length t = sys_natoms p
    /\ Forall (fun r => length r = sys_natoms q /\ msum r = mzero) t
    /\ fold_right radd (repeat mzero (sys_natoms q)) t
       = repeat mzero (sys_natoms q).
Proof.
  intros Hp Hq. unfold gradgrad.
  set (sp := selected select a b p) in *.
  set (sq := selected select a b q) in *.
  set (c := map (fun x => map (fun y => outer (u x) (u y) (w x y)) sq) sp).
  set (nq := length sq).
  assert (Hc : Forall (fun s => length s = nq) c).
  { apply Forall_map, Forall_forall. intros x _. apply length_map. }
  destruct (index_add_with_twice (list Mat3) radd (map mopp)
              (fun r => length r = nq)
              radd_comm radd_assoc (radd_cancel nq) (radd_length nq)
              (fun x H => eq_trans (length_map mopp x) H)
              (repeat mzero nq)
              (map row_i sp) (map row_j sp) (zeros4 (sys_natoms p) nq) c)
    as (t0 & cc & H0 & H1 & L & F & S).
  - unfold c. now rewrite !length_map.
  - unfold c. now rewrite !length_map.
  - unfold zeros4. rewrite repeat_length. apply Forall_map.
    eapply Forall_impl; [|exact Hp]. cbn. tauto.
  - unfold zeros4. rewrite repeat_length. apply Forall_map.
    eapply Forall_impl; [|exact Hp]. cbn. tauto.
  - apply repeat_length.
  - unfold zeros4. apply Forall_forall. intros r Hr.
    apply repeat_spec in Hr. subst r. apply repeat_length.
  - exact Hc.
  - rewrite H0, H1.
    rewrite fold_radd_zeros in S. specialize (S (repeat_length _ _)).
    unfold zeros4 in L. rewrite repeat_length in L.
    assert (Fcc : Forall (fun s => length s = length (map row_i sq)) cc).
    { eapply Forall_impl; [|exact F]. cbn. intros r ->.
      unfold nq. now rewrite length_map. }
    destruct (dim2_twice (sys_natoms q) (map row_i sq) (map row_j sq))
      with (cc := cc) as (t1 & ccc & E1 & E2 & L2 & F2 & r0 & A0 & A1).
    + apply Forall_map. eapply Forall_impl; [|exact Hq]. cbn. tauto.
    + apply Forall_map. eapply Forall_impl; [|exact Hq]. cbn. tauto.
    + now rewrite !length_map.
    + exact Fcc.
    + rewrite L in E1. rewrite E1, E2. exists ccc.
      split; [reflexivity|]. split; [congruence|]. split; [exact F2|].
      rewrite length_map in A0, A1. fold nq in A0, A1.
      rewrite S in A0, A1.
      replace nq with (length (map row_i sq)) in A0
        by (unfold nq; now rewrite length_map).
      rewrite index_add_with_mzeros in A0.
      * injection A0 as <-.
        rewrite map_repeat, mopp_zero in A1.
        replace nq with (length (map row_j sq)) in A1
          by (unfold nq; now rewrite length_map).
        rewrite index_add_with_mzeros in A1; [now injection A1 as <-|].
        rewrite repeat_length. apply Forall_map.
        eapply Forall_impl; [|exact Hq]. cbn. tauto.
      * rewrite repeat_length. apply Forall_map.
        eapply Forall_impl; [|exact Hq]. cbn. tauto.
Qed.

(** X23.  The matrix of second derivatives of a distance or log-distance
    kernel is built by adding each pair's block at one of its atoms and
    subtracting it at the other, on both sides.  When the indices of the
    selected pairs name atoms of their structures, [gradgrad(p, q)]
    does not raise, has [3 * p.natoms] rows of [3 * q.natoms] entries,
    the 3-vectors of every row sum to zero over the atoms of [q], and the
    blocks of every column sum to zero over the atoms of [p]. *)
Theorem gradgrad_sums_to_zero (p q : System) :
  in_range select a b p ->
  in_range select a b q ->
  forall gg,
    In gg [ distance_gradgrad select K a b p q;
            logdistance_gradgrad select K a b p q ] ->
    exists t,
      gg = Some (view_matrix t)
      /\ length (view_matrix t) = (3 * sys_natoms p)%nat
      /\ Forall (fun row => length row = (3 * sys_natoms q)%nat
                            /\ atom_sum row = vzero) (view_matrix t)
      /\ fold_right radd (repeat mzero (sys_natoms q)) t
         = repeat mzero (sys_natoms q).
Proof.
  intros Hp Hq gg [<-|[<-|[]]];
    unfold distance_gradgrad, logdistance_gradgrad;
    match goal with
    | |- context [gradgrad _ _ _ ?w ?u p q] =>
        destruct (gradgrad_zero_sums w u p q Hp Hq) as (t & E & L & F & S)
    end;
    exists t; rewrite view_matrix_length, L;
    (split; [exact E|]); (split; [reflexivity|]);
    (split; [now apply view_matrix_rows | exact S]).
Qed.

End SecondDerivatives.

Lemma gradgrad_sums_to_zero_witness :
  exists t,
    distance_gradgrad demo_select demo_kernel 1 1 demo_system demo_system
    = Some (view_matrix t)
    /\ length (view_matrix t) = 6%nat.
Proof.
  destruct (gradgrad_sums_to_zero demo_select demo_kernel 1 1
              demo_system demo_system demo_in_range demo_in_range
              _ (or_introl eq_refl)) as (t & E & L & _).
  exists t. split; [exact E | exact L].
Defined.

(** *** Saved values *)

Section SavedSpec.

Import String.
Local Open Scope string_scope.

Lemma append_inj_r (p k1 k2 : string) : p ++ k1 = p ++ k2 -> k1 = k2.
Proof.
  induction p as [|c p IH]; cbn; intros H; [exact H|].
  injection H as H. now apply IH.
Qed.

Lemma attribute_inj (name k1 k2 : string) :
  attribute name k1 = attribute name k2 -> k1 = k2.
Proof. unfold attribute. apply append_inj_r. Qed.

Lemma getattr_setattr_same {V} (o : Attributes V) n v :
  getattr (setattr o n v) n = Some v.
Proof.
  induction o as [|[n' v'] o IH]; cbn [setattr getattr].
  - now rewrite String.eqb_refl.
  - destruct (String.eqb n n') eqn:E; cbn [getattr].
    + now rewrite String.eqb_refl.
    + now rewrite E.
Qed.

Lemma getattr_setattr_other {V} (o : Attributes V) n m v :
  n <> m -> getattr (setattr o n v) m = getattr o m.
Proof.
  intros H. induction o as [|[n' v'] o IH]; cbn [setattr getattr].
  - apply not_eq_sym in H. apply String.eqb_neq in H. now rewrite H.
  - destruct (String.eqb n n') eqn:E; cbn [getattr].
    + apply String.eqb_eq in E. subst n'.
      apply not_eq_sym in H. apply String.eqb_neq in H. now rewrite H.
    + destruct (String.eqb m n'); [reflexivity | exact IH].
Qed.

Lemma save_for_later_frame {V} (name : string)
  (keyvals : list (string * V)) :
  forall (loc : Attributes V) (n : string),
    (forall k, List.In k (List.map fst keyvals) -> n <> attribute name k) ->
    getattr (save_for_later name loc keyvals) n = getattr loc n.
Proof.
  induction keyvals as [|[k0 v0] keyvals IH]; intros loc n H;
    [reflexivity|].
  unfold save_for_later in *. cbn [List.fold_left fst snd].
  rewrite IH.
  - apply getattr_setattr_other. apply not_eq_sym, H. now left.
  - intros k Hk. apply H. now right.
Qed.

(** X21.  [saved] reads back what [save_for_later] wrote: after the values
    of a dictionary are saved on a structure under the name of a kernel,
    each of its keys gives its value, and every attribute that is not the
    name of the kernel, an underscore and one of the keys is as it was. *)
Theorem saved_after_save_for_later {V} (name : string)
  (loc : Attributes V) (keyvals : list (string * V)) :
  List.NoDup (List.map fst keyvals) ->
  (forall k v, List.In (k, v) keyvals ->
               saved name (save_for_later name loc keyvals) k = Some v)
  /\ (forall n,
        (forall k, List.In k (List.map fst keyvals) ->
                   n <> attribute name k) ->
        getattr (save_for_later name loc keyvals) n = getattr loc n).
Proof.
  intros N. split; [|intros n H; now apply save_for_later_frame].
  revert loc N. unfold saved.
  induction keyvals as [|[k0 v0] keyvals IH]; intros loc N k v H;
    [destruct H|].
  cbn [List.map fst] in N. inversion N as [|? ? N0 N1]; subst.
  change (save_for_later name loc ((k0, v0) :: keyvals))
    with (save_for_later name (setattr loc (attribute name k0) v0) keyvals).
  destruct H as [H|H].
  - injection H as -> ->. rewrite save_for_later_frame.
    + apply getattr_setattr_same.
    + intros k' Hk' E. apply attribute_inj in E. now subst k'.
  - now apply IH.
Qed.

Lemma saved_after_save_for_later_witness :
  saved "pair" (save_for_later "pair" [("pair_value", 0%Z)]
                  [("value", 1%Z); ("grad", 2%Z)]) "value"
  = Some 1%Z.
Proof.
  apply (saved_after_save_for_later "pair" [("pair_value", 0%Z)]
           [("value", 1%Z); ("grad", 2%Z)]).
  - repeat constructor; cbn; intuition discriminate.
  - left. reflexivity.
Defined.

End SavedSpec.

(** *** The descriptors *)

Lemma norm_sqr (r : Vec3) :
  norm r * norm r = let '(x, y, z) := r in x * x + y * y + z * z.
Proof.
  destruct r as [[x y] z]. unfold norm. apply sqrt_sqrt. nra.
Qed.

(** X22.  On a nonzero relative position [r] the distance descriptor
    returns [|r|] with a gradient of length 1, the unit vector along [r];
    the gradient the log-distance descriptor returns is that unit vector
    divided by [|r|]. *)
Theorem distance_descriptor_unit (r : Vec3) :
  r <> vzero ->
  fst (distance_descriptor1 r) = norm r
  /\ 0 < norm r
  /\ norm (snd (distance_descriptor1 r)) = 1
  /\ snd (log_distance_descriptor1 r)
     = vdiv (snd (distance_descriptor1 r)) (norm r).
Proof.
  intros H. pose proof (norm_pos r H) as P. pose proof (norm_sqr r) as S.
  destruct r as [[x y] z]. unfold distance_descriptor1, log_distance_descriptor1.
  replace (sqrt (x ^ 2 + y ^ 2 + z ^ 2)) with (norm (x, y, z))
    by (unfold norm; f_equal; ring).
  set (d := norm (x, y, z)) in *. cbn [fst snd vdiv].
  split; [reflexivity|]. split; [exact P|]. split.
  - unfold norm.
    replace (x / d * (x / d) + y / d * (y / d) + z / d * (z / d))
      with ((x * x + y * y + z * z) / (d * d)) by (field; lra).
    rewrite <- S. unfold Rdiv. rewrite Rinv_r by nra. apply sqrt_1.
  - unfold vdiv. f_equal; [f_equal|]; field; lra.
Qed.

Lemma distance_descriptor_unit_witness :
  norm (snd (distance_descriptor1 (3, 4, 0))) = 1.
Proof.
  apply (distance_descriptor_unit (3, 4, 0)).
  unfold vzero. intros E.
  apply (f_equal (fun v : Vec3 => fst (fst v))) in E. cbn in E. lra.
Defined.

End PairSpec.

Module LeapfrogSpec.

Import Leapfrog.
Local Open Scope Z_scope.

Section Driver.

Variables Atoms Loc Forces : Type.
Variable GP : Oracle Atoms Loc Forces.
Variable W : World Atoms Loc Forces.

Local Abbreviation St := (State Atoms Loc Forces).

(** *** Frames compose *)

Lemma Frame_refl (s : St) : Frame s s.
Proof.
  constructor; try reflexivity;
    try (exists []; now rewrite app_nil_r).
Qed.

Lemma Frame_trans (s1 s2 s3 : St) : Frame s1 s2 -> Frame s2 s3 -> Frame s1 s3.
Proof.
  intros [c1 a1 p1 e1 t1 x1 [d1 D1] [i1 I1] [l1 [L1 Q1]] [f1 F1] [k1 K1]]
         [c2 a2 p2 e2 t2 x2 [d2 D2] [i2 I2] [l2 [L2 Q2]] [f2 F2] [k2 K2]].
  constructor; try congruence.
  - exists (d1 ++ d2). now rewrite D2, D1, app_assoc.
  - exists (i1 ++ i2). now rewrite I2, I1, app_assoc.
  - exists (l1 ++ l2). split; [now rewrite L2, L1, app_assoc|].
    apply Forall_app. now split.
  - exists (f1 ++ f2). now rewrite F2, F1, app_assoc.
  - exists (k1 ++ k2). now rewrite K2, K1, app_assoc.
Qed.

(** Closes a frame between a state and the same state after setters. *)
Ltac frame :=
  constructor; cbn;
  try reflexivity;
  try (exists []; now rewrite app_nil_r);
  try (eexists; reflexivity);
  try (exists []; split; [now rewrite app_nil_r | constructor]);
  try (eexists; split; [reflexivity | solve [repeat constructor]]).

Lemma frame_add_1inducing loc thr (s : St) :
  Frame s (snd (model_add_1inducing GP loc thr s)).
Proof.
  unfold model_add_1inducing, add_1inducing.
  destruct (inducing_kept GP (model s) loc thr); frame.
Qed.

Lemma frame_add_1atoms new (s : St) :
  Frame s (snd (model_add_1atoms GP new s)).
Proof.
  unfold model_add_1atoms, add_1atoms.
  destruct (atoms_kept GP (model s) new (ediff (cfg s)) (fdiff (cfg s)));
    frame.
Qed.

Lemma frame_get_results (s : St) : Frame s (snd (get_results W s)).
Proof. unfold get_results. destruct (results s); frame. Qed.

Lemma frame_snapshot fake copy (s : St) :
  Frame s (snd (snapshot W fake copy s)).
Proof.
  unfold snapshot. destruct fake.
  - pose proof (frame_get_results s) as H.
    destruct (get_results W s) as [r s1]. exact H.
  - destruct (reference W _ _) as [e f]. frame.
Qed.

Lemma frame_log m (s : St) : quiet (step s, m) -> Frame s (log m s).
Proof.
  intros H. frame.
  eexists; split; [reflexivity | constructor; [exact H | constructor]].
Qed.

Lemma frame_next_draw (s : St) : Frame s (next_draw s).
Proof. frame. Qed.

Lemma frame_robust_loop ls : forall s : St, Frame s (robust_loop GP ls s).
Proof.
  induction ls as [|loc ls IH]; intros s; cbn [robust_loop].
  - apply Frame_refl.
  - pose proof (frame_add_1inducing loc (threshold s) s) as H.
    destruct (model_add_1inducing GP loc (threshold s) s) as [c s1].
    eapply Frame_trans; [exact H | apply IH].
Qed.

Lemma frame_algorithm_robust datafirst (s : St) :
  Frame s (algorithm_robust GP W datafirst s).
Proof.
  unfold algorithm_robust.
  pose proof (frame_snapshot false None s) as H1.
  destruct (snapshot W false None s) as [new s1]. cbn [snd] in H1.
  assert (H2 : exists first s2,
             match datafirst with
             | None => (choice W (draws s1) (1 # 2), next_draw s1)
             | Some b => (b, s1)
             end = (first, s2) /\ Frame s1 s2).
  { destruct datafirst as [b|]; eexists; eexists; split; try reflexivity.
    - apply Frame_refl.
    - apply frame_next_draw. }
  destruct H2 as (first & s2 & -> & H2).
  eapply Frame_trans; [exact H1|]. eapply Frame_trans; [exact H2|].
  destruct first; cbn [negb].
  - eapply Frame_trans; [apply frame_add_1atoms | apply frame_robust_loop].
  - eapply Frame_trans; [apply frame_robust_loop | apply frame_add_1atoms].
Qed.

Lemma frame_fast_loop ls :
  forall n (s : St), Frame s (snd (fast_loop GP ls n s)).
Proof.
  induction ls as [|loc ls IH]; intros n s; cbn [fast_loop].
  - apply Frame_refl.
  - pose proof (frame_add_1inducing loc (threshold s) s) as H.
    destruct (model_add_1inducing GP loc (threshold s) s) as [c s1].
    eapply Frame_trans; [exact H | apply IH].
Qed.

Lemma frame_reference_add (s : St) :
  Frame s (snd (model_add_1atoms GP (fst (snapshot W false None s))
                  (snd (snapshot W false None s)))).
Proof.
  eapply Frame_trans; [apply (frame_snapshot false None) | apply frame_add_1atoms].
Qed.

Lemma frame_algorithm_fast (s : St) : Frame s (algorithm_fast GP W s).
Proof.
  unfold algorithm_fast.
  pose proof (frame_fast_loop (calc_locs W (atoms s)) 0 s) as H.
  destruct (fast_loop GP (calc_locs W (atoms s)) 0 s) as [n s1]. cbn [snd] in H.
  destruct (n >? 0); [|exact H].
  pose proof (frame_reference_add s1) as H2.
  destruct (snapshot W false None s1) as [new s2].
  eapply Frame_trans; [exact H | exact H2].
Qed.

Lemma frame_ranked_loop ls q :
  forall n (s : St) n' s',
    ranked_loop GP ls q n s = Ok (n', s') -> Frame s s'.
Proof.
  induction q as [|k q IH]; intros n s n' s' H; cbn [ranked_loop] in H.
  - injection H as _ <-. apply Frame_refl.
  - destruct (nth_error ls k) as [loc|]; [|discriminate].
    pose proof (frame_add_1inducing loc (threshold s) s) as H1.
    destruct (model_add_1inducing GP loc (threshold s) s) as [c s1].
    cbn [snd] in H1.
    destruct (Qgeb c (threshold s)).
    + eapply Frame_trans; [exact H1 | eapply IH; exact H].
    + injection H as _ <-.
      eapply Frame_trans; [exact H1 | apply frame_log; repeat constructor].
Qed.

Lemma frame_algorithm_fastfast (s s' : St) :
  algorithm_fastfast GP W s = Ok s' -> Frame s s'.
Proof.
  unfold algorithm_fastfast. intros H.
  destruct (ranked_loop GP _ _ 0 s) as [[n s1]| |] eqn:E; try discriminate.
  apply frame_ranked_loop in E. cbn [bind] in H.
  destruct (n >? 0).
  - pose proof (frame_reference_add s1) as H2.
    destruct (snapshot W false None s1) as [new s2].
    injection H as <-. eapply Frame_trans; [exact E | exact H2].
  - now injection H as <-.
Qed.

(** *** The screening loops *)

Lemma appended_app {A} (l l' : list A) : appended l (l ++ l') = l'.
Proof.
  unfold appended. induction l as [|x l IH]; [reflexivity|exact IH].
Qed.

Lemma count_app {A} (f : A -> bool) (l l' : list A) :
  count f (l ++ l') = count f l + count f l'.
Proof. unfold count, len. rewrite filter_app, length_app. lia. Qed.

Lemma count_cons {A} (f : A -> bool) (x : A) (l : list A) :
  count f (x :: l) = (if f x then 1 else 0) + count f l.
Proof.
  unfold count, len. cbn [filter]. destruct (f x); cbn [length]; lia.
Qed.

Lemma count_nil {A} (f : A -> bool) : count f [] = 0.
Proof. reflexivity. Qed.

Lemma count_nonneg {A} (f : A -> bool) (l : list A) : 0 <= count f l.
Proof. unfold count, len. lia. Qed.

Lemma count_pos_existsb {A} (f : A -> bool) (l : list A) :
  (count f l >? 0) = existsb f l.
Proof.
  induction l as [|x l IH]; [reflexivity|].
  unfold count, len in *. cbn [filter existsb].
  destruct (f x); cbn [orb length]; [|exact IH].
  apply Z.gtb_lt. lia.
Qed.

Lemma Screened_refl (s : St) : Screened s s [].
Proof. constructor; try reflexivity; [now rewrite app_nil_r | constructor]. Qed.

Lemma Screened_trans (s1 s2 s3 : St) cs cs' :
  Screened s1 s2 cs -> Screened s2 s3 cs' -> Screened s1 s3 (cs ++ cs').
Proof.
  intros [] []. constructor; try congruence.
  - rewrite app_assoc. congruence.
  - apply Forall_app. now split.
Qed.

Lemma screened_add_1inducing loc thr (s : St) :
  Screened s (snd (model_add_1inducing GP loc thr s))
    [Add1Inducing loc thr (fst (model_add_1inducing GP loc thr s))
       (inducing_kept GP (model s) loc thr)].
Proof.
  unfold model_add_1inducing, add_1inducing.
  destruct (inducing_kept GP (model s) loc thr);
    constructor; cbn; try reflexivity; repeat constructor.
Qed.

Lemma screened_log m (s : St) : Screened s (log m s) [].
Proof.
  constructor; cbn; try reflexivity; [now rewrite app_nil_r | constructor].
Qed.

Lemma fast_loop_screened ls :
  forall n (s : St),
  exists cs,
    Screened s (snd (fast_loop GP ls n s)) cs
    /\ fst (fast_loop GP ls n s) = n + count exceeded cs
    /\ flat_map call_loc cs = ls.
Proof.
  induction ls as [|loc ls IH]; intros n s; cbn [fast_loop].
  - exists []. split; [apply Screened_refl|].
    split; [cbn; lia | reflexivity].
  - pose proof (screened_add_1inducing loc (threshold s) s) as H.
    destruct (model_add_1inducing GP loc (threshold s) s) as [c s1].
    cbn [fst snd] in H.
    destruct (IH (if Qgeb c (threshold s) then n + 1 else n) s1)
      as (cs & Hs & Hn & Hl).
    eexists. split; [exact (Screened_trans _ _ _ _ _ H Hs)|]. split.
    + cbn [app]. rewrite Hn, count_cons. cbn [exceeded].
      destruct (Qgeb c (threshold s)); lia.
    + cbn [app flat_map call_loc]. now rewrite Hl.
Qed.

Lemma ranked_loop_screened ls q :
  forall n (s : St) n' s',
    ranked_loop GP ls q n s = Ok (n', s') ->
    exists cs, Screened s s' cs /\ n' = n + count exceeded cs.
Proof.
  induction q as [|k q IH]; intros n s n' s' H; cbn [ranked_loop] in H.
  - injection H as <- <-. exists []. split; [apply Screened_refl | cbn; lia].
  - destruct (nth_error ls k) as [loc|]; [|discriminate].
    pose proof (screened_add_1inducing loc (threshold s) s) as H1.
    destruct (model_add_1inducing GP loc (threshold s) s) as [c s1].
    cbn [fst snd] in H1.
    destruct (Qgeb c (threshold s)) eqn:E.
    + destruct (IH _ _ _ _ H) as (cs & Hs & Hn).
      eexists. split; [exact (Screened_trans _ _ _ _ _ H1 Hs)|].
      cbn [app]. rewrite Hn, count_cons. cbn [exceeded]. rewrite E. lia.
    + injection H as <- <-.
      eexists. split.
      * exact (Screened_trans _ _ _ _ _ H1 (screened_log _ _)).
      * rewrite app_nil_r, count_cons. cbn [exceeded]. rewrite E.
        unfold count, len. cbn. lia.
Qed.

(** What [snapshot()] followed by [add_1atoms] leaves, after a screening:
    one reference evaluation at the current step, one insertion call. *)
Lemma reference_add_after_screening (s s1 : St) cs :
  Screened s s1 cs ->
  let new := mkSnapshot (atoms s)
               (fst (reference W (to_ase (cfg s)) (atoms s)))
               (snd (reference W (to_ase (cfg s)) (atoms s))) in
  let s' := snd (model_add_1atoms GP (fst (snapshot W false None s1))
                   (snd (snapshot W false None s1))) in
  exists kept,
    new_calls s s' = cs ++ [Add1Atoms new kept]
    /\ _fp s' = _fp s ++ [step s]
    /\ data (model s') = data (model s) ++ (if kept then [new] else []).
Proof.
  intros [Hc Ho Hd Hf Hr Ha Hs Hg]. cbn zeta.
  unfold snapshot. rewrite Hg, Ha.
  destruct (reference W (to_ase (cfg s)) (atoms s)) as [e f].
  cbn [fst snd]. unfold model_add_1atoms, add_1atoms.
  cbn [model log record_fp cfg]. rewrite ?Hg.
  set (new := mkSnapshot (atoms s) e f).
  exists (atoms_kept GP (model s1) new (ediff (cfg s)) (fdiff (cfg s))).
  unfold new_calls.
  destruct (atoms_kept GP (model s1) new (ediff (cfg s)) (fdiff (cfg s)));
    cbn; rewrite Hc, Hf, Hs, Hd, <- ?app_assoc, ?appended_app, ?app_nil_r;
    repeat split; reflexivity.
Qed.

(** C5, as the code has it.  Under the FAST algorithm every local
    environment of the live structure is offered to the surrogate, and a
    reference evaluation is made (at the current step, on the current
    structure) and its result offered to the training data exactly when the
    change of at least one of these attempts reached its threshold
    ([change >= ediff]); the surrogate keeps the structure or turns it
    down.  When no change reached its threshold, there is no reference
    evaluation and the training data are unchanged. *)
Theorem fast_reference_iff_exceeded (s : St) :
  let s' := algorithm_fast GP W s in
  let new := mkSnapshot (atoms s)
               (fst (reference W (to_ase (cfg s)) (atoms s)))
               (snd (reference W (to_ase (cfg s)) (atoms s))) in
  exists attempts,
    flat_map call_loc attempts = calc_locs W (atoms s)
    /\ Forall (fun c => is_add_1inducing c = true) attempts
    /\ if existsb exceeded attempts then
         exists kept,
           new_calls s s' = attempts ++ [Add1Atoms new kept]
           /\ _fp s' = _fp s ++ [step s]
           /\ data (model s') = data (model s) ++ (if kept then [new] else [])
       else
         new_calls s s' = attempts
         /\ _fp s' = _fp s
         /\ data (model s') = data (model s).
Proof.
  cbn zeta. unfold algorithm_fast.
  destruct (fast_loop_screened (calc_locs W (atoms s)) 0 s)
    as (cs & Hs & Hn & Hl).
  destruct (fast_loop GP (calc_locs W (atoms s)) 0 s) as [n s1].
  cbn [fst snd] in Hs, Hn. subst n. rewrite Z.add_0_l, count_pos_existsb.
  exists cs. split; [exact Hl|]. split; [exact (sc_only Hs)|].
  destruct (existsb exceeded cs).
  - pose proof (reference_add_after_screening s s1 cs Hs) as H.
    cbn zeta in H. destruct (snapshot W false None s1) as [new s2].
    exact H.
  - destruct Hs as [Hc Ho Hd Hf Hr Ha Hp Hg]. unfold new_calls.
    now rewrite Hc, appended_app, Hf, Hd.
Qed.

Lemma len_app_gt {A} (l : list A) (x : A) : (len (l ++ [x]) >? len l) = true.
Proof. unfold len. rewrite length_app. cbn [length]. apply Z.gtb_lt. lia. Qed.

Lemma len_gt_irrefl {A} (l : list A) : (len l >? len l) = false.
Proof. rewrite Z.gtb_ltb. apply Z.ltb_irrefl. Qed.

Lemma pop_1data_app (m : Model Atoms Loc Forces) l x :
  data m = l ++ [x] -> pop_1data m = Ok (mkModel l (X m)).
Proof.
  intros H. unfold pop_1data. rewrite H.
  destruct (l ++ [x]) eqn:E; [now destruct l|].
  now rewrite <- E, removelast_last.
Qed.

Lemma pop_1inducing_app (m : Model Atoms Loc Forces) l x :
  X m = l ++ [x] -> pop_1inducing m = Ok (mkModel (data m) l).
Proof.
  intros H. unfold pop_1inducing. rewrite H.
  destruct (l ++ [x]) eqn:E; [now destruct l|].
  now rewrite <- E, removelast_last.
Qed.

(** The tail of [algorithm_ultrafast], once the screening has counted at
    least one insertion. *)
Lemma speculate_cases (s s1 : St) n cs :
  ranked_loop GP (calc_locs W (atoms s))
    (argsort_desc (leakages GP (model s) (calc_locs W (atoms s)))) 0 s
  = Ok (n, s1) ->
  (n >? 0) = true ->
  Screened s s1 cs ->
  let fake := mkSnapshot (atoms s) (res_energy (fst (get_results W s1)))
                (res_forces (fst (get_results W s1))) in
  let real := mkSnapshot (atoms s)
                (fst (reference W (to_ase (cfg s)) (atoms s)))
                (snd (reference W (to_ase (cfg s)) (atoms s))) in
  exists s' (kept : bool),
    algorithm_ultrafast GP W s = Ok s' /\
    if kept then
      exists kept',
        new_calls s s'
        = cs ++ [Add1Atoms fake true; Pop1Data; Add1Atoms real kept']
        /\ _fp s' = _fp s ++ [step s]
        /\ data (model s') = data (model s) ++ (if kept' then [real] else [])
        /\ X (model s') = X (model s1)
    else
      new_calls s s' = cs ++ [Add1Atoms fake false]
      /\ _fp s' = _fp s
      /\ data (model s') = data (model s)
      /\ X (model s') = X (model s1).
Proof.
  intros Hloop Hn [Hc Ho Hd Hf Hr Ha Hs Hg]. cbn zeta.
  unfold algorithm_ultrafast. rewrite Hloop. cbn [bind]. rewrite Hn.
  unfold snapshot at 1.
  assert (G : exists r, get_results W s1 = (r, set_results (Some r) s1)
                        \/ get_results W s1 = (r, s1)).
  { unfold get_results. destruct (results s1); eexists; eauto. }
  destruct G as [r G].
  set (fake := mkSnapshot (atoms s) (res_energy (fst (get_results W s1)))
                 (res_forces (fst (get_results W s1)))).
  assert (Hfake : fake = mkSnapshot (atoms s1) (res_energy r) (res_forces r)).
  { unfold fake. rewrite Ha. now destruct G as [-> | ->]. }
  clearbody fake. subst fake.
  assert (E : exists s2, get_results W s1 = (r, s2) /\ model s2 = model s1
                         /\ cfg s2 = cfg s1 /\ calls s2 = calls s1
                         /\ _fp s2 = _fp s1 /\ step s2 = step s1
                         /\ atoms s2 = atoms s1).
  { destruct G as [G|G]; rewrite G; eexists; repeat split. }
  destruct E as (s2 & -> & Em & Eg & Ec & Ef & Es & Ea).
  set (fake := mkSnapshot (atoms s1) (res_energy r) (res_forces r)).
  unfold model_add_1atoms at 1, add_1atoms. rewrite Em, Eg.
  destruct (atoms_kept GP (model s1) fake (ediff (cfg s1)) (fdiff (cfg s1)))
    eqn:K.
  - cbn [model called set_model data]. rewrite len_app_gt.
    unfold model_pop_1data. cbn [model called set_model].
    rewrite (pop_1data_app (mkModel (data (model s1) ++ [fake]) (X (model s1)))
               (data (model s1)) fake eq_refl).
    cbn [bind data X]. unfold snapshot. cbn [cfg called set_model snap_atoms fake].
    rewrite Eg, Hg, Ha.
    destruct (reference W (to_ase (cfg s)) (atoms s)) as [e f]. cbn [fst snd].
    set (real := mkSnapshot (atoms s) e f).
    unfold model_add_1atoms, add_1atoms.
    cbn [model log record_fp called set_model cfg]. rewrite Eg, Hg.
    eexists. exists true. split; [reflexivity|].
    exists (atoms_kept GP (mkModel (data (model s1)) (X (model s1))) real
              (ediff (cfg s)) (fdiff (cfg s))).
    unfold new_calls.
    destruct (atoms_kept GP (mkModel (data (model s1)) (X (model s1))) real
                (ediff (cfg s)) (fdiff (cfg s)));
      cbn; rewrite Ec, Hc, Ef, Hf, Es, Hs, Hd, <- ?app_assoc, ?appended_app,
        ?app_nil_r;
      cbn [app]; repeat split; reflexivity.
  - cbn [model called set_model]. rewrite ?Em, len_gt_irrefl.
    eexists. exists false. split; [reflexivity|].
    unfold new_calls. cbn.
    rewrite Ec, Hc, Ef, Hf, ?Em, Hd, <- ?app_assoc, ?appended_app, ?app_nil_r.
    repeat split; reflexivity.
Qed.

(** The flag a recorded insertion carries says whether the set grew. *)
Lemma model_add_1atoms_grew new (s : St) :
  let s' := snd (model_add_1atoms GP new s) in
  exists kept,
    new_calls s s' = [Add1Atoms new kept]
    /\ kept = (len (data (model s')) >? len (data (model s))).
Proof.
  cbn zeta. unfold model_add_1atoms, add_1atoms, new_calls.
  destruct (atoms_kept GP (model s) new (ediff (cfg s)) (fdiff (cfg s)));
    cbn [snd calls called set_model model data]; rewrite appended_app;
    eexists; split; try reflexivity.
  - now rewrite len_app_gt.
  - now rewrite len_gt_irrefl.
Qed.


Lemma frame_of_calls (s s' : St) :
  cfg s' = cfg s -> atoms s' = atoms s -> step s' = step s ->
  energy s' = energy s -> temperature s' = temperature s ->
  _ext s' = _ext s -> logged s' = logged s ->
  (exists dl, data (model s') = data (model s) ++ dl) ->
  (exists xl, X (model s') = X (model s) ++ xl) ->
  (exists f, _fp s' = _fp s ++ f) ->
  (exists c, calls s' = calls s ++ c) ->
  Frame s s'.
Proof.
  intros. constructor; try assumption.
  exists []. split; [now rewrite app_nil_r | constructor].
Qed.

(** A tentative addition that grew the data, popped again. *)
Lemma frame_add_pop new (s : St) :
  let s3 := snd (model_add_1atoms GP new s) in
  (len (data (model s3)) >? len (data (model s))) = true ->
  exists s4, model_pop_1data s3 = Ok s4 /\ Frame s s4.
Proof.
  cbn zeta. unfold model_add_1atoms, add_1atoms.
  destruct (atoms_kept GP (model s) new (ediff (cfg s)) (fdiff (cfg s)));
    cbn [snd model called set_model]; intros H.
  - unfold model_pop_1data. cbn [model called set_model].
    rewrite (pop_1data_app (mkModel (data (model s) ++ [new]) (X (model s)))
               (data (model s)) new eq_refl).
    cbn [bind]. eexists. split; [reflexivity|].
    apply frame_of_calls; cbn; try reflexivity;
      try (exists []; now rewrite app_nil_r).
    eexists. rewrite <- app_assoc. reflexivity.
  - now rewrite len_gt_irrefl in H.
Qed.

Lemma frame_algorithm_ultrafast (s s' : St) :
  algorithm_ultrafast GP W s = Ok s' -> Frame s s'.
Proof.
  unfold algorithm_ultrafast. intros H.
  destruct (ranked_loop GP _ _ 0 s) as [[n s1]| |] eqn:E; try discriminate.
  pose proof (ranked_loop_screened _ _ _ _ _ _ E) as (cs & Hs & _).
  apply frame_ranked_loop in E. cbn [bind] in H.
  destruct (n >? 0); [|now injection H as <-].
  eapply Frame_trans; [exact E|].
  pose proof (frame_snapshot true None s1) as F2.
  assert (M2 : model (snd (snapshot W true None s1)) = model s1).
  { unfold snapshot, get_results. now destruct (results s1). }
  destruct (snapshot W true None s1) as [new s2]. cbn [snd] in F2, M2.
  eapply Frame_trans; [exact F2|].
  pose proof (frame_add_1atoms new s2) as F3.
  pose proof (frame_add_pop new s2) as P. cbn zeta in P.
  destruct (model_add_1atoms GP new s2) as [d s3]. cbn [snd] in F3, P.
  rewrite <- M2 in H.
  destruct (len (data (model s3)) >? len (data (model s2))).
  - destruct (P eq_refl) as (s4 & P4 & F4). rewrite P4 in H. cbn [bind] in H.
    eapply Frame_trans; [exact F4|].
    pose proof (frame_snapshot false (Some (snap_atoms new)) s4) as F5.
    destruct (snapshot W false (Some (snap_atoms new)) s4) as [new' s5].
    injection H as <-.
    eapply Frame_trans; [exact F5 | apply frame_add_1atoms].
  - now injection H as <-.
Qed.

Lemma frame_run_algorithm (s s' : St) :
  run_algorithm GP W s = Ok s' -> Frame s s'.
Proof.
  unfold run_algorithm. destruct (algorithm (cfg s)); intros H.
  - injection H as <-. apply frame_algorithm_robust.
  - injection H as <-. apply frame_algorithm_fast.
  - now apply frame_algorithm_fastfast.
  - now apply frame_algorithm_ultrafast.
Qed.

(** *** update_model *)

Lemma model_eta (m : Model Atoms Loc Forces) : mkModel (data m) (X m) = m.
Proof. now destruct m. Qed.

Lemma len_app_minus {A} (l l' : list A) : len (l ++ l') - len l = len l'.
Proof. unfold len. rewrite length_app. lia. Qed.

Lemma update_model_spec (s : St) tf s' :
  update_model GP W s = Ok (tf, s') ->
  exists dl xl,
    data (model s') = data (model s) ++ dl
    /\ X (model s') = X (model s) ++ xl
    /\ data_plus s' = Some (len dl)
    /\ ref_plus s' = Some (len xl)
    /\ tf = ((len dl >? 0) || (len xl >? 0))
    /\ Frame s s'.
Proof.
  unfold update_model. intros H.
  assert (F : exists s1,
             (if volatile s then Ok (algorithm_robust GP W (Some true) s)
              else run_algorithm GP W s) = Ok s1 /\ Frame s s1).
  { destruct (volatile s).
    - eexists. split; [reflexivity | apply frame_algorithm_robust].
    - destruct (run_algorithm GP W s) as [s1| |] eqn:E; try discriminate.
      exists s1. split; [reflexivity | now apply frame_run_algorithm]. }
  destruct F as (s1 & E & F). rewrite E in H. cbn [bind] in H.
  destruct (fr_data F) as [dl D], (fr_X F) as [xl I].
  unfold sizes in H. cbn [fst snd] in H.
  rewrite D, I, !len_app_minus in H.
  exists dl, xl. injection H as <- <-.
  assert (F' : forall r, Frame s (set_results r (set_plus (len dl) (len xl) s1))).
  { intros r. destruct F. constructor; assumption. }
  assert (F'' : Frame s (set_plus (len dl) (len xl) s1)).
  { destruct F. constructor; assumption. }
  destruct ((len dl >? 0) || (len xl >? 0)); cbn;
    repeat (split; [first [assumption | reflexivity]|]);
    first [apply F' | exact F''].
Qed.

(** *** undo_update *)

(** [n] pops from a state whose training data end with [n] entries. *)
Lemma pop_data_loop_app dl :
  forall (s : St) l,
    data (model s) = l ++ dl ->
    pop_data_loop (length dl) s
    = Ok (mkState (cfg s) (atoms s) (mkModel l (X (model s))) (results s)
            (step s) (_fp s) (_fp_e s) (_ext s) (energy s) (temperature s)
            (data_plus s) (ref_plus s) (logged s) (fp_traj s) (draws s)
            (calls s ++ repeat Pop1Data (length dl))).
Proof.
  induction dl as [|x dl IH] using rev_ind; intros s l H.
  - cbn [length pop_data_loop repeat]. rewrite app_nil_r in *.
    rewrite <- H, model_eta. now destruct s.
  - rewrite length_app, Nat.add_comm. cbn [length Nat.add pop_data_loop].
    unfold model_pop_1data.
    rewrite (pop_1data_app (model s) (l ++ dl) x) by now rewrite H, app_assoc.
    cbn [bind]. rewrite (IH _ l) by reflexivity. cbn.
    now rewrite <- app_assoc.
Qed.

Lemma pop_inducing_loop_app xl :
  forall (s : St) l,
    X (model s) = l ++ xl ->
    pop_inducing_loop (length xl) s
    = Ok (mkState (cfg s) (atoms s) (mkModel (data (model s)) l) (results s)
            (step s) (_fp s) (_fp_e s) (_ext s) (energy s) (temperature s)
            (data_plus s) (ref_plus s) (logged s) (fp_traj s) (draws s)
            (calls s ++ repeat Pop1Inducing (length xl))).
Proof.
  induction xl as [|x xl IH] using rev_ind; intros s l H.
  - cbn [length pop_inducing_loop repeat]. rewrite app_nil_r in *.
    rewrite <- H, model_eta. now destruct s.
  - rewrite length_app, Nat.add_comm. cbn [length Nat.add pop_inducing_loop].
    unfold model_pop_1inducing.
    rewrite (pop_1inducing_app (model s) (l ++ xl) x)
      by now rewrite H, app_assoc.
    cbn [bind]. rewrite (IH _ l) by reflexivity. cbn.
    now rewrite <- app_assoc.
Qed.

Lemma to_nat_len {A} (l : list A) : Z.to_nat (len l) = length l.
Proof. unfold len. apply Nat2Z.id. Qed.

(** What [undo_update] does when the two sets end with the recorded
    numbers of entries. *)
Lemma undo_update_app (s : St) d i l dl m xl :
  data (model s) = l ++ dl ->
  X (model s) = m ++ xl ->
  data_plus s = Some d ->
  ref_plus s = Some i ->
  Z.to_nat d = length dl ->
  Z.to_nat i = length xl ->
  undo_update s
  = Ok (mkState (cfg s) (atoms s) (mkModel l m) (results s)
          (step s) (_fp s) (_fp_e s) (_ext s) (energy s) (temperature s)
          (data_plus s) (ref_plus s) (logged s) (fp_traj s) (draws s)
          (calls s ++ repeat Pop1Data (Z.to_nat d)
             ++ repeat Pop1Inducing (Z.to_nat i))).
Proof.
  intros D I Pd Pi Ld Li. unfold undo_update. rewrite Pd, Pi, Ld, Li.
  rewrite (pop_data_loop_app dl s l D). cbn [bind].
  rewrite (pop_inducing_loop_app xl _ m) by exact I. cbn.
  now rewrite <- app_assoc, Pd, Pi.
Qed.

Lemma split_end {A} (n : nat) (l : list A) :
  (n <= length l)%nat ->
  exists l1 l2, l = l1 ++ l2 /\ length l2 = n
                /\ length l1 = (length l - n)%nat.
Proof.
  intros H. exists (firstn (length l - n) l), (skipn (length l - n) l).
  rewrite firstn_skipn, length_skipn, length_firstn. repeat split; lia.
Qed.

Lemma removelast_cons_length {A} (l : list A) :
  forall x, length (removelast (x :: l)) = length l.
Proof.
  induction l as [|y l IH]; intros x; [reflexivity|].
  change (removelast (x :: y :: l)) with (x :: removelast (y :: l)).
  cbn [length]. now rewrite IH.
Qed.

(** A loop of pops that returned found its entries. *)
Lemma pop_data_loop_inv n :
  forall (s s' : St),
    pop_data_loop n s = Ok s' -> (n <= length (data (model s)))%nat.
Proof.
  induction n as [|n IH]; intros s s' H; [lia|].
  cbn [pop_data_loop] in H. unfold model_pop_1data, pop_1data in H.
  destruct (data (model s)) as [|x l] eqn:E; [discriminate|].
  cbn [bind] in H. apply IH in H. cbn [model called set_model data] in H.
  rewrite removelast_cons_length in H. cbn [length]. lia.
Qed.

Lemma pop_inducing_loop_inv n :
  forall (s s' : St),
    pop_inducing_loop n s = Ok s' -> (n <= length (X (model s)))%nat.
Proof.
  induction n as [|n IH]; intros s s' H; [lia|].
  cbn [pop_inducing_loop] in H. unfold model_pop_1inducing, pop_1inducing in H.
  destruct (X (model s)) as [|x l] eqn:E; [discriminate|].
  cbn [bind] in H. apply IH in H. cbn [model called set_model X] in H.
  rewrite removelast_cons_length in H. cbn [length]. lia.
Qed.

(** A call of [undo_update] that returned popped [data_plus] structures,
    then [ref_plus] inducing points, and changed nothing else. *)
Lemma undo_update_inv (s s1 : St) :
  undo_update s = Ok s1 ->
  exists d i l dl m xl,
    data_plus s = Some d /\ ref_plus s = Some i
    /\ data (model s) = l ++ dl /\ X (model s) = m ++ xl
    /\ length dl = Z.to_nat d /\ length xl = Z.to_nat i
    /\ s1 = mkState (cfg s) (atoms s) (mkModel l m) (results s)
               (step s) (_fp s) (_fp_e s) (_ext s) (energy s) (temperature s)
               (data_plus s) (ref_plus s) (logged s) (fp_traj s) (draws s)
               (calls s ++ repeat Pop1Data (Z.to_nat d)
                  ++ repeat Pop1Inducing (Z.to_nat i)).
Proof.
  intros H. pose proof H as H0. unfold undo_update in H.
  destruct (data_plus s) as [d|] eqn:Pd; [|discriminate].
  destruct (ref_plus s) as [i|] eqn:Pi; [|discriminate].
  destruct (pop_data_loop (Z.to_nat d) s) as [s'| |] eqn:E1; try discriminate.
  cbn [bind] in H.
  pose proof (pop_data_loop_inv _ _ _ E1) as B1.
  destruct (split_end _ _ B1) as (l & dl & D & Ld & _).
  rewrite <- Ld, (pop_data_loop_app dl s l D) in E1. injection E1 as <-.
  pose proof (pop_inducing_loop_inv _ _ _ H) as B2.
  cbn [model X] in B2.
  destruct (split_end _ _ B2) as (m & xl & I & Li & _).
  exists d, i, l, dl, m, xl. repeat split; try assumption.
  rewrite (undo_update_app s d i l dl m xl D I Pd Pi) in H0 by congruence.
  rewrite Pd, Pi in H0. now injection H0 as <-.
Qed.

(** *** update_model returns *)

Lemma insert_desc_Forall (P : nat * Q -> Prop) x l :
  P x -> Forall P l -> Forall P (insert_desc x l).
Proof.
  intros Hx. induction 1 as [|y l Hy Hl IH]; cbn [insert_desc].
  - now repeat constructor.
  - destruct (Qle_bool (snd y) (snd x)); now repeat constructor.
Qed.

Lemma argsort_desc_bound (v : list Q) :
  Forall (fun k => (k < length v)%nat) (argsort_desc v).
Proof.
  unfold argsort_desc. apply Forall_map.
  assert (H : Forall (fun p : nat * Q => (fst p < length v)%nat)
                (combine (seq 0 (length v)) v)).
  { apply Forall_forall. intros [k x] Hin. apply in_combine_l in Hin.
    apply in_seq in Hin. cbn. lia. }
  induction H as [|p l Hp Hl IH]; cbn [fold_right]; [constructor|].
  now apply insert_desc_Forall.
Qed.

Lemma ranked_loop_returns ls q :
  Forall (fun k => (k < length ls)%nat) q ->
  forall n (s : St), exists r, ranked_loop GP ls q n s = Ok r.
Proof.
  induction 1 as [|k q Hk Hq IH]; intros n s; cbn [ranked_loop].
  - eauto.
  - destruct (nth_error ls k) as [loc|] eqn:E.
    + destruct (model_add_1inducing GP loc (threshold s) s) as [c s1].
      destruct (Qgeb c (threshold s)); eauto.
    + apply nth_error_None in E. lia.
Qed.

Lemma ranking_returns (s : St) n :
  leakages_sound GP ->
  exists r,
    ranked_loop GP (calc_locs W (atoms s))
      (argsort_desc (leakages GP (model s) (calc_locs W (atoms s)))) n s
    = Ok r.
Proof.
  intros L. apply ranked_loop_returns.
  rewrite <- (L (model s) (calc_locs W (atoms s))). apply argsort_desc_bound.
Qed.

Lemma run_algorithm_returns (s : St) :
  leakages_sound GP -> exists s', run_algorithm GP W s = Ok s'.
Proof.
  intros L. unfold run_algorithm. destruct (algorithm (cfg s)); eauto.
  - unfold algorithm_fastfast.
    destruct (ranking_returns s 0 L) as [[n s1] ->]. cbn [bind].
    destruct (n >? 0); [|eauto].
    destruct (snapshot W false None s1). eauto.
  - destruct (ranking_returns s 0 L) as [[n s1] E].
    destruct (n >? 0) eqn:Hn.
    + destruct (ranked_loop_screened _ _ _ _ _ _ E) as (cs & Hs & _).
      destruct (speculate_cases s s1 n cs E Hn Hs) as (s' & _ & R & _).
      eauto.
    + unfold algorithm_ultrafast. rewrite E. cbn [bind]. rewrite Hn. eauto.
Qed.

Lemma update_model_returns (s : St) :
  leakages_sound GP -> exists tf s', update_model GP W s = Ok (tf, s').
Proof.
  intros L. unfold update_model. destruct (volatile s).
  - cbn [bind]. eauto.
  - destruct (run_algorithm_returns s L) as [s1 ->]. cbn [bind]. eauto.
Qed.

(** *** The claims on update_model and undo_update *)

(** C1.  One call of [update_model] followed at once by one call of
    [undo_update]: the second returns, and the numbers of training
    structures and of inducing points are again what they were before the
    first (the two sets themselves are).  [update_model] returns whenever the
    surrogate ranks as many environments as it is given. *)
Theorem undo_update_inverts_update_model (s : St) :
  (forall tf s1,
      update_model GP W s = Ok (tf, s1) ->
      exists s2,
        undo_update s1 = Ok s2
        /\ sizes s2 = sizes s
        /\ model s2 = model s)
  /\ (leakages_sound GP -> exists tf s1, update_model GP W s = Ok (tf, s1)).
Proof.
  split; [|apply update_model_returns].
  intros tf s1 H.
  destruct (update_model_spec s tf s1 H) as (dl & xl & D & I & Pd & Pi & _).
  eexists. split.
  - apply (undo_update_app s1 _ _ _ dl _ xl D I Pd Pi); apply to_nat_len.
  - unfold sizes. cbn [model data X]. now rewrite model_eta.
Qed.

(** C4, as the code has it.  [undo_update] pops exactly as many training
    structures and inducing points as the update before it added, the
    structures first and the inducing points after them, whatever the order
    of the insertions was; each set loses its last entries and is what it
    was before the update. *)
Theorem undo_update_pops_data_then_inducing (s : St) tf s1 :
  update_model GP W s = Ok (tf, s1) ->
  exists s2,
    undo_update s1 = Ok s2
    /\ new_calls s1 s2
       = repeat Pop1Data (Z.to_nat (fst (sizes s1) - fst (sizes s)))
           ++ repeat Pop1Inducing (Z.to_nat (snd (sizes s1) - snd (sizes s)))
    /\ data (model s2) = data (model s)
    /\ X (model s2) = X (model s).
Proof.
  intros H.
  destruct (update_model_spec s tf s1 H) as (dl & xl & D & I & Pd & Pi & _).
  eexists. split.
  - apply (undo_update_app s1 _ _ _ dl _ xl D I Pd Pi); apply to_nat_len.
  - unfold new_calls, sizes. cbn [calls model data X fst snd].
    rewrite appended_app, D, I, !len_app_minus. auto.
Qed.

(** A loop of pops returns or raises [IndexError]. *)
Lemma pop_data_loop_cases n :
  forall s : St,
    (exists s', pop_data_loop n s = Ok s')
    \/ pop_data_loop n s = Raise IndexError.
Proof.
  induction n as [|n IH]; intros s; cbn [pop_data_loop]; [eauto|].
  unfold model_pop_1data, pop_1data.
  destruct (data (model s)); cbn [bind]; [now right | apply IH].
Qed.

Lemma pop_inducing_loop_cases n :
  forall s : St,
    (exists s', pop_inducing_loop n s = Ok s')
    \/ pop_inducing_loop n s = Raise IndexError.
Proof.
  induction n as [|n IH]; intros s; cbn [pop_inducing_loop]; [eauto|].
  unfold model_pop_1inducing, pop_1inducing.
  destruct (X (model s)); cbn [bind]; [now right | apply IH].
Qed.

Lemma undo_update_cases (s : St) d i :
  data_plus s = Some d -> ref_plus s = Some i ->
  (exists s', undo_update s = Ok s') \/ undo_update s = Raise IndexError.
Proof.
  intros Pd Pi. unfold undo_update. rewrite Pd, Pi.
  destruct (pop_data_loop_cases (Z.to_nat d) s) as [[s' ->] | ->];
    cbn [bind]; [|now right].
  apply pop_inducing_loop_cases.
Qed.

(** C10, as the code has it.  [undo_update] leaves [data_plus] and
    [ref_plus] as they are, so a second call right after the first pops the
    same numbers of training structures and of inducing points once more.
    When the two sets still hold that many entries it returns, and the sets
    are then shorter than they were before the update; when one of them
    holds fewer, the pop of the surrogate raises [IndexError].  The two
    numbers are assigned again by the next [update_model]. *)
Theorem undo_update_twice (s s1 : St) (d i : Z) :
  data_plus s = Some d ->
  ref_plus s = Some i ->
  undo_update s = Ok s1 ->
  data_plus s1 = Some d /\ ref_plus s1 = Some i
  /\ ((Z.to_nat d <= length (data (model s1)))%nat ->
      (Z.to_nat i <= length (X (model s1)))%nat ->
      exists s2,
        undo_update s1 = Ok s2
        /\ new_calls s1 s2 = new_calls s s1
        /\ new_calls s1 s2
           = repeat Pop1Data (Z.to_nat d) ++ repeat Pop1Inducing (Z.to_nat i)
        /\ len (data (model s2)) = len (data (model s1)) - Z.max 0 d
        /\ len (X (model s2)) = len (X (model s1)) - Z.max 0 i
        /\ data_plus s2 = Some d /\ ref_plus s2 = Some i
        /\ forall tf s3,
            update_model GP W s2 = Ok (tf, s3) ->
            data_plus s3 = Some (fst (sizes s3) - fst (sizes s2))
            /\ ref_plus s3 = Some (snd (sizes s3) - snd (sizes s2)))
  /\ ((length (data (model s1)) < Z.to_nat d)%nat
      \/ (length (X (model s1)) < Z.to_nat i)%nat ->
      undo_update s1 = Raise IndexError).
Proof.
  intros Pd Pi H.
  destruct (undo_update_inv s s1 H)
    as (d' & i' & l & dl & m & xl & Pd' & Pi' & D & I & Ld & Li & E).
  assert (d' = d) by congruence. assert (i' = i) by congruence. subst d' i'.
  assert (Pd1 : data_plus s1 = Some d) by (rewrite E; exact Pd).
  assert (Pi1 : ref_plus s1 = Some i) by (rewrite E; exact Pi).
  split; [exact Pd1|]. split; [exact Pi1|]. split.
  - intros Bd Bi.
    destruct (split_end _ _ Bd) as (l1 & dl1 & D1 & Ld1 & Ll1).
    destruct (split_end _ _ Bi) as (m1 & xl1 & I1 & Li1 & Lm1).
    eexists. split.
    { apply (undo_update_app s1 d i l1 dl1 m1 xl1 D1 I1 Pd1 Pi1); congruence. }
    unfold new_calls. cbn [calls model data X data_plus ref_plus].
    rewrite appended_app.
    replace (appended (calls s) (calls s1))
      with (repeat (@Pop1Data Atoms Loc Forces) (Z.to_nat d)
              ++ repeat Pop1Inducing (Z.to_nat i))
      by (rewrite E; cbn [calls]; now rewrite appended_app).
    repeat (split; [first [reflexivity | assumption | unfold len; lia]|]).
    intros tf s3 U.
    destruct (update_model_spec _ tf s3 U) as (dl3 & xl3 & D3 & I3 & P3 & Q3 & _).
    unfold sizes. cbn [fst snd]. rewrite D3, I3, !len_app_minus. now split.
  - intros Short.
    destruct (undo_update_cases s1 d i Pd1 Pi1) as [[s2 H2]|R]; [|exact R].
    exfalso.
    destruct (undo_update_inv s1 s2 H2)
      as (d2 & i2 & l2 & dl2 & m2 & xl2 & Pd2 & Pi2 & D2 & I2 & Ld2 & Li2 & _).
    assert (d2 = d) by congruence. assert (i2 = i) by congruence. subst d2 i2.
    rewrite D2, I2, !length_app in Short. lia.
Qed.

(** When the training data hold fewer entries than [data_plus], the pop of
    the surrogate raises. *)
Lemma pop_data_loop_short n :
  forall s : St,
    (length (data (model s)) < n)%nat ->
    pop_data_loop n s = Raise IndexError.
Proof.
  induction n as [|n IH]; intros s H; [lia|].
  cbn [pop_data_loop]. unfold model_pop_1data, pop_1data.
  destruct (data (model s)) as [|x l] eqn:E; [reflexivity|].
  cbn [bind]. apply IH. cbn [model called set_model data].
  rewrite removelast_cons_length. cbn [length] in H. lia.
Qed.

Lemma undo_update_short (s : St) d i :
  data_plus s = Some d -> ref_plus s = Some i ->
  (length (data (model s)) < Z.to_nat d)%nat ->
  undo_update s = Raise IndexError.
Proof.
  intros Pd Pi H. unfold undo_update. rewrite Pd, Pi.
  now rewrite (pop_data_loop_short _ s H).
Qed.

End Driver.

(** *** doit *)

Lemma Qltb_lt (x y : Q) : Qltb x y = true <-> (x < y)%Q.
Proof.
  unfold Qltb. rewrite negb_true_iff. split.
  - intros H. apply Qnot_le_lt. intros L.
    apply Qle_bool_iff in L. congruence.
  - intros H. destruct (Qle_bool y x) eqn:E; [|reflexivity].
    apply Qle_bool_iff in E. exfalso. now apply (Qlt_not_le x y).
Qed.

Lemma rev_cons_inv {A} (l r : list A) (x : A) :
  rev l = x :: r -> l = rev r ++ [x].
Proof.
  intros H. rewrite <- (rev_involutive l), H. reflexivity.
Qed.

Lemma ends_with_iff (l : list Z) (v : Z) :
  match rev l with
  | x :: _ => negb (v - x =? 1)
  | [] => true
  end = true
  <-> ~ (exists l', l = l' ++ [v - 1]).
Proof.
  destruct (rev l) as [|x r] eqn:E.
  - apply (f_equal (@rev Z)) in E. rewrite rev_involutive in E. cbn in E.
    subst l. split; [|reflexivity].
    intros _ [l' H]. now destruct l'.
  - apply rev_cons_inv in E. subst l. rewrite negb_true_iff, Z.eqb_neq.
    split.
    + intros N [l' H]. apply app_inj_tail in H. lia.
    + intros N H. apply N. exists (rev r). f_equal. f_equal. lia.
Qed.

(** C3.  With at least three energies on record, [doit] flags an extremum
    exactly when [(E[-1] - E[-2]) * (E[-2] - E[-3]) < 0] and the step before
    was not itself flagged ([ext_steps] does not end with [step - 1]); the
    flagged step is what [doit] appends to [ext_steps], and with fewer than
    three energies nothing is flagged.  On the energies 1, 2, 1 of the steps
    0, 1, 2 and the energy 2 of step 3: step 2 is flagged, and step 3, where
    the product is negative again, is not. *)
Theorem extremum_flagged_unless_adjacent
  (Atoms Loc Forces : Type) (W : World Atoms Loc Forces)
  (s : State Atoms Loc Forces) (prob : Q) (es : list Q) (e3 e2 e1 : Q) :
  energy s = es ++ [e3; e2; e1] ->
  (extremum s = true
   <-> ((e1 - e2) * (e2 - e3) < 0)%Q
       /\ ~ (exists l, _ext s = l ++ [step s - 1]))
  /\ _ext (snd (doit W prob s))
     = (if extremum s then _ext s ++ [step s] else _ext s)
  /\ (forall s0 : State Atoms Loc Forces,
        (length (energy s0) < 3)%nat -> extremum s0 = false)
  /\ (energy (demo_run 2) = [1; 2; 1]%Q
      /\ step (demo_run 2) = 2
      /\ _ext (demo_run 2) = []
      /\ extremum (demo_run 2) = true
      /\ _ext (snd (doit demo_world 1 (demo_run 2))) = [2]
      /\ energy (demo_run 3) = [1; 2; 1; 2]%Q
      /\ step (demo_run 3) = 3
      /\ _ext (demo_run 3) = [2]
      /\ ((2 - 1) * (1 - 2) < 0)%Q
      /\ extremum (demo_run 3) = false
      /\ _ext (snd (doit demo_world 1 (demo_run 3))) = [2]).
Proof.
  intros E. split; [|split; [|split]].
  - unfold extremum. rewrite E, rev_app_distr. cbn [rev app].
    destruct (Qltb ((e1 - e2) * (e2 - e3)) 0) eqn:L.
    + apply Qltb_lt in L. rewrite ends_with_iff. tauto.
    + split; [discriminate|]. intros [L' _]. apply Qltb_lt in L'. congruence.
  - unfold doit, random_choice. destruct (extremum s).
    + cbn [log set_ext _ext step].
      destruct (negb _ && _); [reflexivity|].
      destruct (Qle_bool 0 prob && _); reflexivity.
    + destruct (volatile s && _); reflexivity.
  - intros s0 H. unfold extremum.
    rewrite <- length_rev in H.
    destruct (rev (energy s0)) as [|a [|b [|c r]]]; try reflexivity.
    cbn [length] in H. lia.
  - vm_compute. repeat split; reflexivity.
Qed.

Lemma extremum_flagged_unless_adjacent_witness :
  (extremum (demo_run 2) = true
   <-> ((1 - 2) * (2 - 1) < 0)%Q
       /\ ~ (exists l, _ext (demo_run 2) = l ++ [step (demo_run 2) - 1])).
Proof.
  apply (extremum_flagged_unless_adjacent Z Z unit demo_world (demo_run 2) 1
           [] 1%Q 2%Q 1%Q).
  vm_compute. reflexivity.
Defined.

(** *** run_updates *)

Section Runs.

Variables Atoms Loc Forces : Type.
Variable GP : Oracle Atoms Loc Forces.
Variable W : World Atoms Loc Forces.

Local Abbreviation St := (State Atoms Loc Forces).

Lemma count_quiet (l : list (Z * Msg)) :
  Forall quiet l ->
  count is_updating l = 0 /\ count is_update l = 0 /\ count is_growth l = 0.
Proof.
  induction 1 as [|x l [Hu [Hp Hg]] _ [IHu [IHp IHg]]];
    [repeat split; reflexivity|].
  rewrite !count_cons, Hu, Hp, Hg. lia.
Qed.

Lemma doit_traj prob (s : St) :
  step (snd (doit W prob s)) = step s
  /\ energy (snd (doit W prob s)) = energy s
  /\ temperature (snd (doit W prob s)) = temperature s
  /\ exists l, logged (snd (doit W prob s)) = logged s ++ l /\ Forall quiet l.
Proof.
  unfold doit, random_choice. destruct (extremum s).
  - destruct (negb _ && _); [|destruct (Qle_bool 0 prob && _)];
      cbn; repeat split;
      (eexists; split; [reflexivity | repeat constructor]).
  - destruct (volatile s && _); cbn; repeat split;
      (exists []; split; [now rewrite app_nil_r | constructor]).
Qed.

Lemma decide_and_update_spec prob (s : St) b s1 :
  decide_and_update GP W prob s = Ok (b, s1) ->
  step s1 = step s
  /\ energy s1 = energy s
  /\ temperature s1 = temperature s
  /\ exists l,
      logged s1 = logged s ++ l
      /\ count is_updating l = (if b then 1 else 0)
      /\ count is_update l = count is_updating l
      /\ 0 <= count is_growth l <= count is_update l.
Proof.
  unfold decide_and_update. intros H.
  destruct (Qltb 0 prob).
  - pose proof (doit_traj prob s) as (Hs & He & Ht & l0 & Hl & Hq).
    destruct (count_quiet l0 Hq) as (Cu & Cp & Cg).
    destruct (doit W prob s) as [[go| |] s0]; try discriminate.
    cbn [snd bind] in *. destruct go.
    + destruct (update_model GP W (log MsgUpdating s0)) as [[tf s3]| |] eqn:U;
        try discriminate.
      cbn [bind] in H. injection H as <- <-.
      destruct (update_model_spec _ _ _ _ _ _ _ _ U) as (_ & _ & _ & _ & _ & _ & _ & F).
      destruct F as [_ _ Fs Fe Ft _ _ _ [l3 [Fl Fq]] _ _].
      destruct (count_quiet l3 Fq) as (Cu3 & Cp3 & Cg3).
      cbn [log step energy temperature logged] in *.
      repeat (split; [congruence|]).
      exists (l0 ++ [(step s0, MsgUpdating)] ++ l3
              ++ [(step s3, MsgUpdate tf (fst (sizes s3)) (snd (sizes s3))
                              (len (_fp s3)))]).
      split; [rewrite Fl, Hl, <- !app_assoc; reflexivity|].
      rewrite !count_app, !count_cons, !count_nil, Cu, Cp, Cg, Cu3, Cp3, Cg3.
      cbn [is_updating is_update is_growth snd]. destruct tf; lia.
    + injection H as <- <-. repeat (split; [assumption|]).
      exists l0. rewrite Cu, Cp, Cg. repeat split; try assumption; lia.
  - injection H as <- <-. repeat (split; [reflexivity|]).
    exists []. rewrite app_nil_r, !count_nil. repeat split; try reflexivity; lia.
Qed.

Lemma run_updates_body_spec prob c (s : St) c1 s1 :
  run_updates_body GP W prob c s = Ok (c1, s1) ->
  step s1 = step s + 1
  /\ steps c1 = steps c + 1
  /\ exists e t st l,
      energy s1 = energy s ++ [e]
      /\ temperature s1 = temperature s ++ [t]
      /\ stresses c1 = stresses c ++ [st]
      /\ logged s1 = logged s ++ l
      /\ updates c1 = updates c + count is_updating l
      /\ count is_update l = count is_updating l
      /\ 0 <= count is_growth l <= count is_update l
      /\ count is_updating l <= 1.
Proof.
  unfold run_updates_body. intros H.
  destruct (decide_and_update GP W prob s) as [[b s0]| |] eqn:D;
    try discriminate.
  destruct (decide_and_update_spec _ _ _ _ D)
    as (Hs & He & Ht & l & Hl & Cu & Cp & Cg).
  cbn [bind] in H. unfold dyn_step, get_potential_energy, get_stress in H.
  destruct (dyn_run W (model s0) (results s0) (atoms s0)) as [a r].
  unfold get_results in H. cbn [results set_step set_results set_atoms] in H.
  destruct r as [r|]; cbn in H; injection H as <- <-; cbn;
    (split; [lia|]); (split; [reflexivity|]);
    do 3 eexists; eexists (l ++ [_]);
    rewrite He, Ht, Hl, <- app_assoc, !count_app;
    (repeat (split; [reflexivity|]));
    rewrite !count_cons, !count_nil;
    cbn [is_updating is_update is_growth snd];
    destruct b; repeat split; lia.
Qed.

(** The loop of [run_updates], from any values of its counters. *)
Lemma run_updates_loop_spec fuel maxupdates prob :
  forall c (s : St) c' s',
    run_updates_loop GP W fuel maxupdates prob c s = Ok (c', s') ->
    updates c <= maxupdates ->
    updates c' = Z.max (updates c) maxupdates
    /\ step s' - step s = steps c' - steps c
    /\ exists es ts rows l,
        energy s' = energy s ++ es
        /\ temperature s' = temperature s ++ ts
        /\ stresses c' = stresses c ++ rows
        /\ len es = steps c' - steps c
        /\ len ts = steps c' - steps c
        /\ len rows = steps c' - steps c
        /\ logged s' = logged s ++ l
        /\ updates c' = updates c + count is_updating l
        /\ count is_update l = count is_updating l
        /\ 0 <= count is_growth l <= count is_update l
        /\ count is_updating l <= steps c' - steps c.
Proof.
  induction fuel as [|fuel IH]; intros c s c' s' H B; cbn [run_updates_loop] in H.
  - destruct (updates c <? maxupdates) eqn:T; [discriminate|].
    injection H as <- <-. apply Z.ltb_ge in T.
    split; [lia|]. split; [lia|].
    exists [], [], [], []. rewrite !app_nil_r, !count_nil.
    unfold len. cbn. repeat split; lia.
  - destruct (updates c <? maxupdates) eqn:T.
    + apply Z.ltb_lt in T.
      destruct (run_updates_body GP W prob c s) as [[c1 s1]| |] eqn:E;
        try discriminate.
      cbn [bind] in H.
      destruct (run_updates_body_spec _ _ _ _ _ E)
        as (Hs & Hn & e & t & st & l & He & Ht & Hr & Hl & Hu & Hp & Hg & H1).
      destruct (IH _ _ _ _ H ltac:(lia))
        as (Ju & Js & es & ts & rows & l' & Je & Jt & Jr & Le & Lt & Lr
            & Jl & Jc & Jp & Jg & Jn).
      split; [lia|]. split; [lia|].
      exists (e :: es), (t :: ts), (st :: rows), (l ++ l').
      rewrite Je, Jt, Jr, Jl, He, Ht, Hr, Hl, <- !app_assoc, !count_app.
      unfold len in *. cbn [length app]. repeat split; lia.
    + injection H as <- <-. apply Z.ltb_ge in T.
      split; [lia|]. split; [lia|].
      exists [], [], [], []. rewrite !app_nil_r, !count_nil.
      unfold len. cbn. repeat split; lia.
Qed.

Lemma last_slice_app {A} (n : Z) (l es : list A) :
  len es = n -> n <> 0 -> last_slice n (l ++ es) = es.
Proof.
  intros L N. unfold last_slice.
  destruct (n =? 0) eqn:E; [apply Z.eqb_eq in E; contradiction|].
  rewrite <- L, to_nat_len, length_app.
  replace (length l + length es - length es)%nat with (length l) by lia.
  apply (appended_app l es).
Qed.

(** What one iteration appends is what the calculator holds when the
    iteration ends: the energy, the stress and the temperature of the
    structure the step arrived at. *)
Lemma run_updates_body_reads prob c (s : St) c1 s1 :
  run_updates_body GP W prob c s = Ok (c1, s1) ->
  energy s1 = energy s ++ [fst (get_potential_energy W s1)]
  /\ temperature s1 = temperature s ++ [get_temperature W (atoms s1)]
  /\ stresses c1 = stresses c ++ [fst (get_stress W s1)].
Proof.
  unfold run_updates_body. intros H.
  destruct (decide_and_update GP W prob s) as [[b s0]| |] eqn:D;
    try discriminate.
  destruct (decide_and_update_spec _ _ _ _ D) as (_ & He & Ht & _).
  cbn [bind] in H. unfold dyn_step, get_potential_energy, get_stress in H.
  destruct (dyn_run W (model s0) (results s0) (atoms s0)) as [a r].
  unfold get_results in H. cbn [results set_step set_results set_atoms] in H.
  destruct r as [r|]; cbn in H; injection H as <- <-;
    unfold get_potential_energy, get_stress, get_results; cbn;
    rewrite He, Ht; repeat split; reflexivity.
Qed.

(** The states the loop of [run_updates] goes through. *)
Lemma run_updates_loop_trace fuel maxupdates prob :
  forall c (s : St) c' s',
    run_updates_loop GP W fuel maxupdates prob c s = Ok (c', s') ->
    exists ss,
      stepped GP W prob s ss
      /\ energy s' = energy s ++ map (fun x => fst (get_potential_energy W x)) ss
      /\ temperature s'
         = temperature s ++ map (fun x => get_temperature W (atoms x)) ss
      /\ stresses c' = stresses c ++ map (fun x => fst (get_stress W x)) ss.
Proof.
  induction fuel as [|fuel IH]; intros c s c' s' H; cbn [run_updates_loop] in H.
  - destruct (updates c <? maxupdates); [discriminate|].
    injection H as <- <-. exists []. cbn [map stepped].
    now rewrite !app_nil_r.
  - destruct (updates c <? maxupdates).
    + destruct (run_updates_body GP W prob c s) as [[c1 s1]| |] eqn:E;
        try discriminate.
      cbn [bind] in H.
      destruct (run_updates_body_reads _ _ _ _ _ E) as (He & Ht & Hr).
      destruct (IH _ _ _ _ H) as (ss & Hs & Je & Jt & Jr).
      exists (s1 :: ss). cbn [stepped map].
      split; [split; [eauto | exact Hs]|].
      rewrite Je, Jt, Jr, He, Ht, Hr, <- !app_assoc. repeat split.
    + injection H as <- <-. exists []. cbn [map stepped].
      now rewrite !app_nil_r.
Qed.

(** C2, as the code has it.  When [run_updates(maxupdates, prob)]
    returns, [maxupdates] is positive and [update_model] has been called
    exactly [maxupdates] times (the log has that many lines [updating ...]
    and that many lines [update: ...]): the counter goes up at each call,
    whether the call grew the surrogate or not, so the calls that grew it
    are at most [maxupdates].  It returns the number of steps of the run
    divided by [maxupdates], and the means of the energies, of the
    temperatures and of the stress rows of these steps: the energy, the
    temperature and the stress of the structure each step arrived at, as
    the surrogate calculator gives them. *)
Theorem run_updates_counts_calls fuel maxupdates prob (s : St) r s' :
  run_updates GP W fuel maxupdates prob s = Ok (r, s') ->
  0 < maxupdates
  /\ count is_updating (new_log s s') = maxupdates
  /\ count is_update (new_log s s') = maxupdates
  /\ 0 <= count is_growth (new_log s s') <= maxupdates
  /\ exists es ts rows stress,
      energy s' = energy s ++ es
      /\ temperature s' = temperature s ++ ts
      /\ len es = step s' - step s
      /\ len ts = step s' - step s
      /\ len rows = step s' - step s
      /\ 0 < step s' - step s
      /\ mean_axis0 rows = Ok stress
      /\ r = ((inject_Z (step s' - step s) / inject_Z maxupdates)%Q,
              mean es, mean ts, stress)
      /\ exists ss,
          stepped GP W prob s ss
          /\ es = map (fun x => fst (get_potential_energy W x)) ss
          /\ ts = map (fun x => get_temperature W (atoms x)) ss
          /\ rows = map (fun x => fst (get_stress W x)) ss.
Proof.
  unfold run_updates. intros H.
  destruct (run_updates_loop GP W fuel maxupdates prob (mkCounters 0 0 []) s)
    as [[c s1]| |] eqn:E; try discriminate.
  cbn [bind] in H.
  destruct (updates c =? 0) eqn:Z0; [discriminate|]. apply Z.eqb_neq in Z0.
  assert (B : 0 <= maxupdates).
  { destruct (Z.le_gt_cases 0 maxupdates) as [B|B]; [exact B|]. exfalso.
    assert (T : (0 <? maxupdates) = false) by (apply Z.ltb_ge; lia).
    destruct fuel; cbn [run_updates_loop updates] in E; rewrite T in E;
      injection E as <- _; now apply Z0. }
  destruct (run_updates_loop_spec _ _ _ _ _ _ _ E B)
    as (Ju & Js & es & ts & rows & l & Je & Jt & Jr & Le & Lt & Lr
        & Jl & Jc & Jp & Jg & Jn).
  cbn [updates steps stresses app] in *. rewrite Z.sub_0_r in *.
  rewrite Z.add_0_l in Jc. rewrite Z.max_r in Ju by exact B.
  destruct (mean_axis0 (stresses c)) as [stress| |] eqn:M; try discriminate.
  cbn [bind] in H. injection H as <- <-.
  cbn [log step energy temperature logged].
  assert (Hn : new_log s
                 (log (MsgStress stress)
                    (log (MsgSummary
                            (inject_Z (steps c) / inject_Z (updates c))
                            (mean (last_slice (steps c) (energy s1)))
                            (mean (last_slice (steps c) (temperature s1))))
                       s1))
               = l ++ [(step s1,
                        MsgSummary
                          (inject_Z (steps c) / inject_Z (updates c))
                          (mean (last_slice (steps c) (energy s1)))
                          (mean (last_slice (steps c) (temperature s1))));
                       (step s1, MsgStress stress)]).
  { unfold new_log. cbn [log logged step].
    now rewrite Jl, <- !app_assoc, appended_app. }
  rewrite Hn, !count_app, !count_cons, !count_nil.
  cbn [is_updating is_update is_growth snd].
  split; [lia|]. split; [lia|]. split; [lia|]. split; [lia|].
  destruct (run_updates_loop_trace _ _ _ _ _ _ _ E)
    as (ss & Hss & Te & Tt & Tr).
  cbn [stresses app] in Tr.
  rewrite Je in Te. apply app_inv_head in Te.
  rewrite Jt in Tt. apply app_inv_head in Tt.
  exists es, ts, rows, stress.
  rewrite Je, Jt, !last_slice_app by lia.
  rewrite Js, Ju, <- Jr, M. rewrite <- Jr in Lr.
  repeat (split; [first [reflexivity | lia]|]).
  exists ss. repeat split; assumption.
Qed.

(** More fuel does not change what the loop returned or raised. *)
Lemma run_updates_loop_fuel fuel maxupdates prob :
  forall c (s : St) extra,
    run_updates_loop GP W fuel maxupdates prob c s <> OutOfFuel ->
    run_updates_loop GP W (fuel + extra) maxupdates prob c s
    = run_updates_loop GP W fuel maxupdates prob c s.
Proof.
  induction fuel as [|fuel IH]; intros c s extra H;
    cbn [run_updates_loop Nat.add] in *.
  - destruct (updates c <? maxupdates) eqn:T; [now contradict H|].
    destruct extra; cbn [run_updates_loop]; now rewrite T.
  - destruct (updates c <? maxupdates); [|reflexivity].
    destruct (run_updates_body GP W prob c s) as [[c1 s1]| |]; cbn [bind] in *;
      try reflexivity.
    now apply IH.
Qed.

(** With [prob <= 0] no update is ever decided: for a positive
    [maxupdates] the loop does not end, whatever the fuel. *)
Lemma run_updates_never_returns fuel maxupdates prob :
  ~ (0 < prob)%Q ->
  forall c (s : St),
    updates c < maxupdates ->
    run_updates_loop GP W fuel maxupdates prob c s = OutOfFuel.
Proof.
  intros P.
  assert (T : Qltb 0 prob = false).
  { destruct (Qltb 0 prob) eqn:E; [|reflexivity].
    apply Qltb_lt in E. contradiction. }
  induction fuel as [|fuel IH]; intros c s H; cbn [run_updates_loop];
    apply Z.ltb_lt in H; rewrite H; [reflexivity|].
  unfold run_updates_body, decide_and_update. rewrite T. cbn [bind].
  destruct (get_potential_energy W (dyn_step W s)) as [e s3].
  destruct (get_stress W _) as [st s5]. cbn [bind].
  apply IH. cbn [updates]. now apply Z.ltb_lt.
Qed.

End Runs.

(** *** The claims at work on the small world *)

Lemma keen_sound : leakages_sound keen.
Proof. intros m ls. apply length_map. Qed.

Lemma undo_update_inverts_update_model_witness :
  exists s2,
    undo_update demo_updated = Ok s2
    /\ sizes s2 = sizes (demo_start fast 2 1)
    /\ model s2 = model (demo_start fast 2 1).
Proof.
  apply (proj1 (undo_update_inverts_update_model _ _ _ keen demo_world
                  (demo_start fast 2 1)) true demo_updated).
  vm_compute. reflexivity.
Defined.

Lemma undo_update_pops_data_then_inducing_witness :
  exists s2,
    undo_update demo_updated = Ok s2
    /\ new_calls demo_updated s2
       = repeat Pop1Data
           (Z.to_nat (fst (sizes demo_updated)
                      - fst (sizes (demo_start fast 2 1))))
           ++ repeat Pop1Inducing
                (Z.to_nat (snd (sizes demo_updated)
                           - snd (sizes (demo_start fast 2 1))))
    /\ data (model s2) = data (model (demo_start fast 2 1))
    /\ X (model s2) = X (model (demo_start fast 2 1)).
Proof.
  apply (undo_update_pops_data_then_inducing _ _ _ keen demo_world
           (demo_start fast 2 1) true demo_updated).
  vm_compute. reflexivity.
Defined.

(** C4, as stated, fails: in the volatile state the update inserts the
    structure before the inducing point, and [undo_update] pops the
    structure before the inducing point as well. *)
Lemma undo_update_does_not_mirror :
  ~ undo_mirrors_update keen demo_world (demo_start fast 2 1).
Proof.
  intros H.
  specialize (H true demo_updated demo_undone).
  assert (K := H ltac:(vm_compute; reflexivity) ltac:(vm_compute; reflexivity)).
  vm_compute in K. discriminate K.
Qed.

(** C2, as stated, fails: [run_updates(1)] returns after one call of
    [update_model] that did not grow the surrogate. *)
Lemma run_updates_counts_a_call_without_growth :
  ~ counts_only_growths sated demo_world 10 1 1 (demo_start fast (-1) 1).
Proof.
  intros H.
  specialize (H demo_report demo_after_run_updates
                ltac:(vm_compute; reflexivity)).
  vm_compute in H. discriminate H.
Qed.

Lemma run_updates_counts_calls_witness :
  0 < 1
  /\ count is_updating
       (new_log (demo_start fast (-1) 1) demo_after_run_updates) = 1
  /\ 0 <= count is_growth
            (new_log (demo_start fast (-1) 1) demo_after_run_updates) <= 1.
Proof.
  destruct (run_updates_counts_calls Z Z unit sated demo_world 10 1 1
              (demo_start fast (-1) 1) demo_report demo_after_run_updates)
    as (A & B & _ & C & _); [vm_compute; reflexivity|].
  split; [exact A|]. split; [exact B | exact C].
Defined.


Lemma undo_update_twice_witness :
  data_plus demo_undone = Some 1 /\ ref_plus demo_undone = Some 1
  /\ exists s2,
      undo_update demo_undone = Ok s2
      /\ len (data (model s2)) = len (data (model demo_undone)) - Z.max 0 1.
Proof.
  destruct (undo_update_twice _ _ _ keen demo_world demo_updated demo_undone 1 1)
    as (A & B & C & _);
    [ vm_compute; reflexivity | vm_compute; reflexivity
    | vm_compute; reflexivity | ].
  destruct C as (s2 & C & _ & _ & D & _); [vm_compute; lia | vm_compute; lia |].
  split; [exact A|]. split; [exact B|]. exists s2. split; assumption.
Defined.

(** C10, as stated, fails: with three local environments in a structure, an
    update in the volatile state adds one structure and three inducing
    points to a surrogate of one structure and two inducing points; after
    its undo the second undo finds two inducing points to pop three from,
    and raises. *)
Lemma second_undo_raises :
  ~ second_undo_returns keen wide_world (demo_start fast 2 1).
Proof.
  intros H.
  destruct (H true wide_updated wide_undone
              ltac:(vm_compute; reflexivity) ltac:(vm_compute; reflexivity))
    as [s3 E].
  vm_compute in E. discriminate E.
Qed.

(** C5, as stated, fails: the change of an attempt reached its threshold
    and the reference evaluation was made, but the surrogate turned the
    structure down, so it is not in the training data. *)
Lemma fast_evaluates_without_inserting :
  ~ fast_inserts_iff_exceeded picky demo_world (demo_start fast (-1) 1).
Proof.
  intros [_ H].
  destruct (H ltac:(vm_compute; reflexivity)) as [_ [new D]].
  vm_compute in D. discriminate D.
Qed.

(** *** Reference evaluations *)

Section Records.

Variables Atoms Loc Forces : Type.
Variable GP : Oracle Atoms Loc Forces.
Variable W : World Atoms Loc Forces.

Local Abbreviation St := (State Atoms Loc Forces).

Lemma References_refl (s : St) : References W s s 0.
Proof.
  constructor; cbn [repeat]; try reflexivity; now rewrite app_nil_r.
Qed.

Lemma References_trans (s1 s2 s3 : St) n m :
  References W s1 s2 n -> References W s2 s3 m -> References W s1 s3 (n + m).
Proof.
  intros [c1 a1 p1 f1 E1 T1] [c2 a2 p2 f2 E2 T2].
  constructor; try congruence.
  - now rewrite f2, f1, p1, repeat_app, app_assoc.
  - now rewrite E2, E1, c1, a1, repeat_app, app_assoc.
  - now rewrite T2, T1, a1, repeat_app, app_assoc.
Qed.

(** Closes [References W s s' 0] between a state and the same state after
    setters that leave the records alone. *)
Ltac no_reference :=
  constructor; cbn; first [reflexivity | now rewrite app_nil_r].

Lemma refs_add_1inducing loc thr (s : St) :
  References W s (snd (model_add_1inducing GP loc thr s)) 0.
Proof.
  unfold model_add_1inducing, add_1inducing.
  destruct (inducing_kept GP (model s) loc thr); no_reference.
Qed.

Lemma refs_add_1atoms new (s : St) :
  References W s (snd (model_add_1atoms GP new s)) 0.
Proof.
  unfold model_add_1atoms, add_1atoms.
  destruct (atoms_kept GP (model s) new (ediff (cfg s)) (fdiff (cfg s)));
    no_reference.
Qed.

Lemma refs_log m (s : St) : References W s (log m s) 0.
Proof. no_reference. Qed.

Lemma refs_next_draw (s : St) : References W s (next_draw s) 0.
Proof. no_reference. Qed.

Lemma refs_pop_1data (s s' : St) :
  model_pop_1data s = Ok s' -> References W s s' 0.
Proof.
  unfold model_pop_1data. destruct (pop_1data (model s)); try discriminate.
  cbn [bind]. intros H. injection H as <-. no_reference.
Qed.

Lemma refs_snapshot_fake copy (s : St) :
  References W s (snd (snapshot W true copy s)) 0.
Proof.
  unfold snapshot, get_results. destruct (results s); no_reference.
Qed.

(** A reference evaluation of the current structure. *)
Lemma refs_snapshot_real copy (s : St) :
  copy = None \/ copy = Some (atoms s) ->
  References W s (snd (snapshot W false copy s)) 1.
Proof.
  intros [-> | ->]; unfold snapshot;
    destruct (reference W (to_ase (cfg s)) (atoms s)) as [e f] eqn:E;
    constructor; cbn; rewrite ?E; reflexivity.
Qed.

Lemma snapshot_fake_atoms (s : St) :
  snap_atoms (fst (snapshot W true None s)) = atoms s.
Proof.
  unfold snapshot. now destruct (get_results W s).
Qed.

Lemma refs_robust_loop ls :
  forall s : St, References W s (robust_loop GP ls s) 0.
Proof.
  induction ls as [|loc ls IH]; intros s; cbn [robust_loop].
  - apply References_refl.
  - pose proof (refs_add_1inducing loc (threshold s) s) as H.
    destruct (model_add_1inducing GP loc (threshold s) s) as [c s1].
    exact (References_trans _ _ _ 0 0 H (IH s1)).
Qed.

Lemma refs_fast_loop ls :
  forall n (s : St), References W s (snd (fast_loop GP ls n s)) 0.
Proof.
  induction ls as [|loc ls IH]; intros n s; cbn [fast_loop].
  - apply References_refl.
  - pose proof (refs_add_1inducing loc (threshold s) s) as H.
    destruct (model_add_1inducing GP loc (threshold s) s) as [c s1].
    exact (References_trans _ _ _ 0 0 H (IH _ s1)).
Qed.

Lemma refs_ranked_loop ls q :
  forall n (s : St) n' s',
    ranked_loop GP ls q n s = Ok (n', s') -> References W s s' 0.
Proof.
  induction q as [|k q IH]; intros n s n' s' H; cbn [ranked_loop] in H.
  - injection H as _ <-. apply References_refl.
  - destruct (nth_error ls k) as [loc|]; [|discriminate].
    pose proof (refs_add_1inducing loc (threshold s) s) as H1.
    destruct (model_add_1inducing GP loc (threshold s) s) as [c s1].
    cbn [snd] in H1.
    destruct (Qgeb c (threshold s)).
    + exact (References_trans _ _ _ 0 0 H1 (IH _ _ _ _ H)).
    + injection H as _ <-.
      exact (References_trans _ _ _ 0 0 H1 (refs_log _ _)).
Qed.

(** One reference evaluation, then one call of [add_1atoms]. *)
Lemma refs_reference_add (s : St) :
  References W s
    (snd (model_add_1atoms GP (fst (snapshot W false None s))
            (snd (snapshot W false None s)))) 1.
Proof.
  exact (References_trans _ _ _ 1 0
           (refs_snapshot_real None s (or_introl eq_refl))
           (refs_add_1atoms _ _)).
Qed.

Lemma refs_algorithm_robust datafirst (s : St) :
  References W s (algorithm_robust GP W datafirst s) 1.
Proof.
  unfold algorithm_robust.
  pose proof (refs_snapshot_real None s (or_introl eq_refl)) as H1.
  destruct (snapshot W false None s) as [new s1]. cbn [snd] in H1.
  assert (H2 : exists first s2,
             match datafirst with
             | None => (choice W (draws s1) (1 # 2), next_draw s1)
             | Some b => (b, s1)
             end = (first, s2) /\ References W s1 s2 0).
  { destruct datafirst as [b|]; eexists; eexists; split; try reflexivity.
    - apply References_refl.
    - apply refs_next_draw. }
  destruct H2 as (first & s2 & -> & H2).
  apply (References_trans _ _ _ 1 0 H1).
  apply (References_trans _ _ _ 0 0 H2).
  destruct first; cbn [negb].
  - exact (References_trans _ _ _ 0 0 (refs_add_1atoms _ _)
             (refs_robust_loop _ _)).
  - exact (References_trans _ _ _ 0 0 (refs_robust_loop _ _)
             (refs_add_1atoms _ _)).
Qed.

Lemma refs_algorithm_fast (s : St) :
  exists n, (n <= 1)%nat /\ References W s (algorithm_fast GP W s) n.
Proof.
  unfold algorithm_fast.
  pose proof (refs_fast_loop (calc_locs W (atoms s)) 0 s) as H.
  destruct (fast_loop GP (calc_locs W (atoms s)) 0 s) as [n s1]. cbn [snd] in H.
  destruct (n >? 0); [|exists 0%nat; split; [lia | exact H]].
  pose proof (refs_reference_add s1) as H2.
  destruct (snapshot W false None s1) as [new s2].
  exists 1%nat. split; [lia|]. exact (References_trans _ _ _ 0 1 H H2).
Qed.

Lemma refs_algorithm_fastfast (s s' : St) :
  algorithm_fastfast GP W s = Ok s' ->
  exists n, (n <= 1)%nat /\ References W s s' n.
Proof.
  unfold algorithm_fastfast. intros H.
  destruct (ranked_loop GP _ _ 0 s) as [[n s1]| |] eqn:E; try discriminate.
  apply refs_ranked_loop in E. cbn [bind] in H.
  destruct (n >? 0).
  - pose proof (refs_reference_add s1) as H2.
    destruct (snapshot W false None s1) as [new s2].
    injection H as <-.
    exists 1%nat. split; [lia|]. exact (References_trans _ _ _ 0 1 E H2).
  - injection H as <-. exists 0%nat. split; [lia | exact E].
Qed.

Lemma refs_algorithm_ultrafast (s s' : St) :
  algorithm_ultrafast GP W s = Ok s' ->
  exists n, (n <= 1)%nat /\ References W s s' n.
Proof.
  unfold algorithm_ultrafast. intros H.
  destruct (ranked_loop GP _ _ 0 s) as [[n s1]| |] eqn:E; try discriminate.
  apply refs_ranked_loop in E. cbn [bind] in H.
  destruct (n >? 0); [|injection H as <-; exists 0%nat; split; [lia | exact E]].
  pose proof (refs_snapshot_fake None s1) as F2.
  pose proof (snapshot_fake_atoms s1) as A2.
  destruct (snapshot W true None s1) as [new s2]. cbn [fst snd] in F2, A2.
  pose proof (refs_add_1atoms new s2) as F3.
  destruct (model_add_1atoms GP new s2) as [d s3]. cbn [snd] in F3.
  pose proof (References_trans _ _ _ 0 0 E
                (References_trans _ _ _ 0 0 F2 F3)) as F.
  destruct (len (data (model s3)) >? len (data (model s1))).
  - destruct (model_pop_1data s3) as [s4| |] eqn:P; try discriminate.
    apply refs_pop_1data in P. cbn [bind] in H.
    assert (A4 : Some (snap_atoms new) = Some (atoms s4)).
    { f_equal. rewrite A2. symmetry.
      exact (eq_trans (rf_atoms P) (rf_atoms (References_trans _ _ _ 0 0 F2 F3))). }
    pose proof (refs_snapshot_real (Some (snap_atoms new)) s4
                  (or_intror A4)) as F5.
    destruct (snapshot W false (Some (snap_atoms new)) s4) as [new' s5].
    injection H as <-. exists 1%nat. split; [lia|].
    exact (References_trans _ _ _ 0 1 F
             (References_trans _ _ _ 0 1 P
                (References_trans _ _ _ 1 0 F5 (refs_add_1atoms _ _)))).
  - injection H as <-. exists 0%nat. split; [lia | exact F].
Qed.

Lemma refs_run_algorithm (s s' : St) :
  run_algorithm GP W s = Ok s' ->
  exists n, (n <= 1)%nat /\ References W s s' n.
Proof.
  unfold run_algorithm. destruct (algorithm (cfg s)); intros H.
  - injection H as <-. exists 1%nat. split; [lia|].
    apply refs_algorithm_robust.
  - injection H as <-. apply refs_algorithm_fast.
  - now apply refs_algorithm_fastfast.
  - now apply refs_algorithm_ultrafast.
Qed.

Lemma update_model_refs (s : St) tf s' :
  update_model GP W s = Ok (tf, s') ->
  exists n,
    (n <= 1)%nat
    /\ References W s s' n
    /\ (volatile s = true -> n = 1%nat).
Proof.
  unfold update_model. intros H.
  assert (F : exists s1 n,
             (if volatile s then Ok (algorithm_robust GP W (Some true) s)
              else run_algorithm GP W s) = Ok s1
             /\ (n <= 1)%nat /\ References W s s1 n
             /\ (volatile s = true -> n = 1%nat)).
  { destruct (volatile s).
    - exists (algorithm_robust GP W (Some true) s), 1%nat.
      split; [reflexivity|]. split; [lia|].
      split; [apply refs_algorithm_robust | reflexivity].
    - destruct (run_algorithm GP W s) as [s1| |] eqn:E; try discriminate.
      destruct (refs_run_algorithm s s1 E) as (n & Hn & R).
      exists s1, n. split; [reflexivity|]. split; [exact Hn|].
      split; [exact R | discriminate]. }
  destruct F as (s1 & n & E & Hn & R & V). rewrite E in H. cbn [bind] in H.
  exists n. split; [exact Hn|]. split; [|exact V].
  injection H as _ <-. destruct R as [Rc Ra Rs Rf Re Rt].
  destruct (_ || _); constructor; assumption.
Qed.

(** X1.  One call of [update_model] makes at most one reference
    evaluation, and exactly one in the volatile state.  It is an evaluation
    of the current structure, recorded at the current step: the step is
    appended to [_fp], the energy the reference calculator gave to [_fp_e]
    and the structure to the trajectory file. *)
Theorem update_model_one_reference (s : St) tf s' :
  update_model GP W s = Ok (tf, s') ->
  exists n,
    (n <= 1)%nat
    /\ References W s s' n
    /\ (volatile s = true -> n = 1%nat).
Proof. apply update_model_refs. Qed.

End Records.

Lemma update_model_one_reference_witness :
  _fp demo_updated = [0] /\ _fp_e demo_updated = [10%Q]
  /\ fp_traj demo_updated = [0].
Proof.
  destruct (update_model_one_reference Z Z unit keen demo_world
              (demo_start fast 2 1) true demo_updated)
    as (n & _ & [_ _ _ Rf Re Rt] & V); [vm_compute; reflexivity|].
  rewrite (V eq_refl) in Rf, Re, Rt.
  split; [exact Rf|]. split; [exact Re | exact Rt].
Defined.

(** *** More on update_model and the algorithms *)

Section Updates.

Variables Atoms Loc Forces : Type.
Variable GP : Oracle Atoms Loc Forces.
Variable W : World Atoms Loc Forces.

Local Abbreviation St := (State Atoms Loc Forces).

Lemma app_eq_self {A} (l l' : list A) : l = l ++ l' -> l' = [].
Proof.
  intros H. apply (f_equal (@length A)) in H. rewrite length_app in H.
  destruct l'; [reflexivity | cbn in H; lia].
Qed.

Lemma app_inj_length {A} (l1 : list A) :
  forall l1' l2 l2',
    l1 ++ l2 = l1' ++ l2' -> length l2 = length l2' -> l1 = l1' /\ l2 = l2'.
Proof.
  induction l1 as [|x l1 IH]; intros [|y l1'] l2 l2' H L; cbn [app] in H.
  - now split.
  - apply (f_equal (@length A)) in H. cbn [length] in H.
    rewrite length_app in H. lia.
  - apply (f_equal (@length A)) in H. cbn [length] in H.
    rewrite length_app in H. lia.
  - injection H as -> H. destruct (IH _ _ _ H L) as [-> ->]. now split.
Qed.

Lemma len_pos_nil {A} (l : list A) : (len l >? 0) = false <-> l = [].
Proof.
  unfold len. destruct l; cbn [length]; split; try reflexivity;
    discriminate.
Qed.

Lemma update_model_results (s : St) tf s' :
  update_model GP W s = Ok (tf, s') -> tf = true -> results s' = None.
Proof.
  unfold update_model. intros H T.
  destruct (if volatile s then _ else _) as [s1| |]; try discriminate.
  cbn [bind] in H. injection H as Ht <-. rewrite Ht, T. reflexivity.
Qed.

(** X2.  [update_model] returns [False] exactly when it left the two sets
    of the surrogate as they were.  When it returns [True] it has emptied
    the cache of the surrogate calculator, so the next energy asked of the
    calculator is computed with the grown surrogate on the same structure. *)
Theorem update_model_reports_growth (s : St) tf s' :
  update_model GP W s = Ok (tf, s') ->
  (tf = false <-> model s' = model s)
  /\ (tf = true ->
      results s' = None
      /\ fst (get_potential_energy W s')
         = res_energy (calculate W (model s') (atoms s))).
Proof.
  intros H.
  destruct (update_model_spec _ _ _ _ _ _ _ _ H)
    as (dl & xl & D & I & _ & _ & T & F).
  split.
  - split.
    + intros E. rewrite E in T. symmetry in T. apply orb_false_iff in T.
      destruct T as [Td Tx]. apply len_pos_nil in Td. apply len_pos_nil in Tx.
      subst dl xl. rewrite app_nil_r in *.
      rewrite <- (model_eta _ _ _ (model s')), D, I. apply model_eta.
    + intros E. rewrite E in D, I.
      apply app_eq_self in D. apply app_eq_self in I. subst. reflexivity.
  - intros E. pose proof (update_model_results s tf s' H E) as R.
    split; [exact R|].
    unfold get_potential_energy, get_results. rewrite R. cbn [fst].
    now rewrite (fr_atoms F).
Qed.

(** X3.  [undo_update] takes entries back from the surrogate and does
    nothing else: the reference evaluations of the update stay on record
    and the cache of the surrogate calculator is not restored.  After an
    update in the volatile state and its undo, the reference evaluation of
    the current step is still in [_fp] although its structure left the
    training data. *)
Theorem undo_update_keeps_records (s : St) tf s1 s2 :
  update_model GP W s = Ok (tf, s1) ->
  undo_update s1 = Ok s2 ->
  _fp s2 = _fp s1 /\ _fp_e s2 = _fp_e s1 /\ fp_traj s2 = fp_traj s1
  /\ results s2 = results s1 /\ logged s2 = logged s1
  /\ atoms s2 = atoms s /\ step s2 = step s
  /\ (tf = true -> results s2 = None)
  /\ (volatile s = true ->
      _fp s2 = _fp s ++ [step s] /\ data (model s2) = data (model s)).
Proof.
  intros U H.
  destruct (undo_update_inv _ _ _ s1 s2 H)
    as (d & i & l & dl & m & xl & Pd & Pi & D & I & Ld & Li & E).
  destruct (update_model_spec _ _ _ _ _ _ _ _ U)
    as (dl' & xl' & D' & I' & Pd' & Pi' & _ & F).
  destruct (update_model_refs _ _ _ _ _ _ _ _ U) as (n & _ & R & V).
  assert (Hd : l = data (model s)).
  { rewrite D in D'. apply app_inj_length in D'; [tauto|].
    rewrite Ld. rewrite Pd in Pd'. injection Pd' as ->. now rewrite to_nat_len. }
  subst s2. cbn. repeat (split; [first [reflexivity | apply F]|]).
  split; [exact (update_model_results _ _ _ U)|].
  intros Hv. rewrite (rf_fp R), (V Hv). split; [reflexivity | exact Hd].
Qed.

Lemma robust_loop_screened ls :
  forall s : St,
  exists cs,
    Screened s (robust_loop GP ls s) cs /\ flat_map call_loc cs = ls.
Proof.
  induction ls as [|loc ls IH]; intros s; cbn [robust_loop].
  - exists []. split; [apply Screened_refl | reflexivity].
  - pose proof (screened_add_1inducing _ _ _ GP loc (threshold s) s) as H.
    destruct (model_add_1inducing GP loc (threshold s) s) as [c s1].
    cbn [fst snd] in H. destruct (IH s1) as (cs & Hs & Hl).
    eexists. split; [exact (Screened_trans _ _ _ _ _ _ _ _ H Hs)|].
    cbn [app flat_map call_loc]. now rewrite Hl.
Qed.

(** What one call of [add_1atoms] leaves. *)
Lemma model_add_1atoms_calls new (s : St) :
  exists kept,
    calls (snd (model_add_1atoms GP new s)) = calls s ++ [Add1Atoms new kept]
    /\ data (model (snd (model_add_1atoms GP new s)))
       = data (model s) ++ (if kept then [new] else [])
    /\ _fp (snd (model_add_1atoms GP new s)) = _fp s.
Proof.
  unfold model_add_1atoms, add_1atoms.
  exists (atoms_kept GP (model s) new (ediff (cfg s)) (fdiff (cfg s))).
  destruct (atoms_kept GP (model s) new (ediff (cfg s)) (fdiff (cfg s)));
    cbn; rewrite ?app_nil_r; repeat split; reflexivity.
Qed.

(** X4.  ROBUST makes one reference evaluation of the current structure
    at the current step, offers its result to the training data once,
    before the inducing points or after them as [datafirst] says (a draw
    when it is [None]), and offers every local environment of the
    structure to the inducing set, in order, whatever the answers. *)
Theorem robust_evaluates_and_offers_all (datafirst : option bool) (s : St) :
  let first := match datafirst with
               | Some b => b
               | None => choice W (draws s) (1 # 2)
               end in
  let new := mkSnapshot (atoms s)
               (fst (reference W (to_ase (cfg s)) (atoms s)))
               (snd (reference W (to_ase (cfg s)) (atoms s))) in
  let s' := algorithm_robust GP W datafirst s in
  exists attempts kept,
    flat_map call_loc attempts = locs W (atoms s)
    /\ Forall (fun c => is_add_1inducing c = true) attempts
    /\ new_calls s s'
       = (if first then Add1Atoms new kept :: attempts
          else attempts ++ [Add1Atoms new kept])
    /\ _fp s' = _fp s ++ [step s]
    /\ data (model s') = data (model s) ++ (if kept then [new] else []).
Proof.
  cbn zeta. unfold algorithm_robust, snapshot.
  destruct (reference W (to_ase (cfg s)) (atoms s)) as [e f]. cbn [fst snd].
  set (new := mkSnapshot (atoms s) e f).
  set (s1 := log (MsgExactEnergy e) (record_fp e (atoms s) s)).
  set (first := match datafirst with
                | Some b => b
                | None => choice W (draws s) (1 # 2)
                end).
  assert (H2 : exists s2,
             match datafirst with
             | None => (choice W (draws s1) (1 # 2), next_draw s1)
             | Some b => (b, s1)
             end = (first, s2)
             /\ calls s2 = calls s /\ _fp s2 = _fp s ++ [step s]
             /\ data (model s2) = data (model s)).
  { unfold first. destruct datafirst as [b|]; eexists; repeat split. }
  destruct H2 as (s2 & -> & Hc & Hf & Hd). cbn [snap_atoms new].
  unfold new_calls. destruct first; cbn [negb].
  - destruct (model_add_1atoms_calls new s2) as (kept & Ac & Ad & Af).
    destruct (robust_loop_screened (locs W (atoms s))
                (snd (model_add_1atoms GP new s2))) as (cs & Hs & Hl).
    exists cs, kept. destruct Hs as [Sc So Sd Sf _ _ _ _].
    rewrite Sc, Ac, Hc, <- app_assoc, appended_app, Sf, Af, Hf, Sd, Ad, Hd.
    repeat split; try assumption; reflexivity.
  - destruct (robust_loop_screened (locs W (atoms s)) s2) as (cs & Hs & Hl).
    destruct (model_add_1atoms_calls new (robust_loop GP (locs W (atoms s)) s2))
      as (kept & Ac & Ad & Af).
    exists cs, kept. destruct Hs as [Sc So Sd Sf _ _ _ _].
    rewrite Ac, Sc, Hc, <- app_assoc, appended_app, Af, Sf, Hf, Ad, Sd, Hd.
    repeat split; try assumption; reflexivity.
Qed.




(** *** The ranking: indices by decreasing leakage *)









End Updates.

Lemma update_model_reports_growth_witness :
  results demo_updated = None.
Proof.
  apply (update_model_reports_growth Z Z unit keen demo_world
           (demo_start fast 2 1) true demo_updated);
    [vm_compute; reflexivity | reflexivity].
Defined.

(** *** What a run keeps *)

Section Trajectory.

Variables Atoms Loc Forces : Type.
Variable GP : Oracle Atoms Loc Forces.
Variable W : World Atoms Loc Forces.

Local Abbreviation St := (State Atoms Loc Forces).

Lemma extremum_not_adjacent (s : St) :
  extremum s = true -> ~ (exists l, _ext s = l ++ [step s - 1]).
Proof.
  unfold extremum.
  destruct (rev (energy s)) as [|e1 [|e2 [|e3 r]]]; try discriminate.
  destruct (Qltb _ 0); [|discriminate].
  apply ends_with_iff.
Qed.

(** [doit] writes to the flagged steps, the log and the random source, and
    to nothing else. *)
Lemma doit_keeps prob (s : St) :
  snd (doit W prob s)
  = mkState (cfg s) (atoms s) (model s) (results s) (step s) (_fp s)
      (_fp_e s) (_ext (snd (doit W prob s))) (energy s) (temperature s)
      (data_plus s) (ref_plus s) (logged (snd (doit W prob s))) (fp_traj s)
      (draws (snd (doit W prob s))) (calls s)
  /\ _ext (snd (doit W prob s))
     = (if extremum s then _ext s ++ [step s] else _ext s).
Proof.
  unfold doit, random_choice. destruct (extremum s).
  - destruct (negb _ && _); [|destruct (Qle_bool 0 prob && _)];
      split; reflexivity.
  - destruct (volatile s && _); split; try reflexivity; now destruct s.
Qed.

Lemma Grows_refl (s : St) : Grows s s.
Proof.
  constructor; try reflexivity; exists []; now rewrite app_nil_r.
Qed.

Lemma Grows_trans (s1 s2 s3 : St) : Grows s1 s2 -> Grows s2 s3 -> Grows s1 s3.
Proof.
  intros [c1 [d1 D1] [x1 X1] [e1 E1] [f1 F1]] [c2 [d2 D2] [x2 X2] [e2 E2] [f2 F2]].
  constructor; try congruence.
  - exists (d1 ++ d2). now rewrite D2, D1, app_assoc.
  - exists (x1 ++ x2). now rewrite X2, X1, app_assoc.
  - exists (e1 ++ e2). now rewrite E2, E1, app_assoc.
  - exists (f1 ++ f2). now rewrite F2, F1, app_assoc.
Qed.

Lemma Frame_Grows (s s' : St) : Frame s s' -> Grows s s'.
Proof.
  intros [Fc _ _ _ _ Fe Fd Fx _ Ff _]. constructor; try assumption.
  exists []. now rewrite app_nil_r.
Qed.

(** What [if prob > 0 and self.doit(prob): ... update_model() ...] keeps. *)
Lemma decide_and_update_keeps prob (s : St) b s0 :
  decide_and_update GP W prob s = Ok (b, s0) ->
  atoms s0 = atoms s /\ step s0 = step s
  /\ energy s0 = energy s /\ temperature s0 = temperature s
  /\ Grows s s0
  /\ (_ext s0 = _ext s
      \/ (_ext s0 = _ext s ++ [step s]
          /\ ~ (exists l, _ext s = l ++ [step s - 1])))
  /\ exists n, (n <= 1)%nat /\ References W s s0 n.
Proof.
  unfold decide_and_update. intros H.
  destruct (Qltb 0 prob).
  - destruct (doit_keeps prob s) as [K Ke].
    assert (Hext : _ext (snd (doit W prob s)) = _ext s
                   \/ (_ext (snd (doit W prob s)) = _ext s ++ [step s]
                       /\ ~ (exists l, _ext s = l ++ [step s - 1]))).
    { rewrite Ke. destruct (extremum s) eqn:E; [right|left; reflexivity].
      split; [reflexivity | now apply extremum_not_adjacent]. }
    assert (G1 : Grows s (snd (doit W prob s))).
    { rewrite K. constructor; cbn; try reflexivity;
        try (exists []; now rewrite app_nil_r).
      destruct Hext as [->|[-> _]]; eexists;
        [symmetry; apply app_nil_r | reflexivity]. }
    assert (R1 : References W s (snd (doit W prob s)) 0).
    { rewrite K. constructor; cbn;
        first [reflexivity | now rewrite app_nil_r]. }
    destruct (doit W prob s) as [[go| |] s1]; try discriminate.
    cbn [snd bind] in *. destruct go.
    + destruct (update_model GP W (log MsgUpdating s1)) as [[tf s3]| |] eqn:U;
        try discriminate.
      cbn [bind] in H. injection H as <- <-.
      destruct (update_model_spec _ _ _ _ _ _ _ _ U)
        as (_ & _ & _ & _ & _ & _ & _ & F).
      destruct (update_model_refs _ _ _ _ _ _ _ _ U) as (n & Hn & R & _).
      pose proof (Frame_Grows _ _ F) as G3.
      destruct F as [Fc Fa Fs Fe Ft Fx _ _ _ _ _].
      cbn [log cfg atoms step energy temperature _ext] in *.
      rewrite K in Fa, Fs, Fe, Ft. cbn in Fa, Fs, Fe, Ft.
      repeat (split; [assumption|]).
      split.
      { apply (Grows_trans _ _ _ G1). destruct G3. constructor; assumption. }
      split; [now rewrite Fx|].
      exists n. split; [exact Hn|].
      apply (References_trans _ _ _ _ _ _ _ 0 n R1).
      destruct R as [Rc Ra Rs Rf Re Rt]. constructor; assumption.
    + injection H as <- <-. rewrite K. cbn.
      repeat (split; [reflexivity|]).
      split; [now rewrite <- K|]. split; [exact Hext|].
      exists 0%nat. split; [lia | now rewrite <- K].
  - injection H as <- <-.
    repeat (split; [reflexivity|]).
    split; [apply Grows_refl|]. split; [now left|].
    exists 0%nat. split; [lia | apply References_refl].
Qed.

(** One iteration of [run]. *)
Lemma run_body_keeps prob (s s' : St) :
  run_body GP W prob s = Ok s' ->
  step s' = step s + 1
  /\ (exists e, energy s' = energy s ++ [e])
  /\ (exists t, temperature s' = temperature s ++ [t])
  /\ Grows s s'
  /\ (_ext s' = _ext s
      \/ (_ext s' = _ext s ++ [step s]
          /\ ~ (exists l, _ext s = l ++ [step s - 1])))
  /\ exists n,
      (n <= 1)%nat
      /\ _fp s' = _fp s ++ repeat (step s) n
      /\ length (_fp_e s') = (length (_fp_e s) + n)%nat
      /\ length (fp_traj s') = (length (fp_traj s) + n)%nat.
Proof.
  unfold run_body. intros H.
  destruct (decide_and_update GP W prob s) as [[b s0]| |] eqn:D;
    try discriminate.
  destruct (decide_and_update_keeps _ _ _ _ D)
    as (Ha & Hs & He & Ht & G & Hx & n & Hn & R).
  destruct R as [_ _ _ Rf Re Rt]. destruct G as [Gc Gd Gx Ge Gf].
  cbn [bind] in H. unfold dyn_step, get_potential_energy in H.
  destruct (dyn_run W (model s0) (results s0) (atoms s0)) as [a r].
  unfold get_results in H. cbn [results set_step set_results set_atoms] in H.
  destruct r as [r|]; cbn in H; injection H as <-; cbn;
    (split; [lia|]);
    (split; [rewrite He; eexists; reflexivity|]);
    (split; [rewrite Ht; eexists; reflexivity|]);
    (split; [constructor; assumption|]);
    (split; [exact Hx|]);
    exists n; rewrite Re, Rt, !length_app, !repeat_length; auto.
Qed.

Lemma run_loop_app a b prob :
  forall s : St,
    run_loop GP W (a + b) prob s
    = (s1 <- run_loop GP W a prob s ;; run_loop GP W b prob s1).
Proof.
  induction a as [|a IH]; intros s; cbn [Nat.add run_loop bind]; [reflexivity|].
  destruct (run_body GP W prob s) as [s1| |]; cbn [bind]; auto.
Qed.

(** X6.  Two runs in a row are one run: [run(a)] followed by [run(b)] is
    [run(a + b)], for numbers of steps that are not negative. *)
Theorem run_composes (a b : Z) prob (s : St) :
  0 <= a -> 0 <= b ->
  run GP W (a + b) prob s
  = (s1 <- run GP W a prob s ;; run GP W b prob s1).
Proof.
  intros Ha Hb. unfold run. rewrite Z2Nat.inj_add by assumption.
  apply run_loop_app.
Qed.

Lemma run_loop_shape n prob :
  forall s s' : St,
    run_loop GP W n prob s = Ok s' ->
    step s' = step s + Z.of_nat n
    /\ Grows s s'
    /\ exists es ts,
        energy s' = energy s ++ es /\ temperature s' = temperature s ++ ts
        /\ length es = n /\ length ts = n.
Proof.
  induction n as [|n IH]; intros s s' H; cbn [run_loop] in H.
  - injection H as <-. split; [cbn; lia|]. split; [apply Grows_refl|].
    exists [], []. now rewrite !app_nil_r.
  - destruct (run_body GP W prob s) as [s1| |] eqn:B; try discriminate.
    cbn [bind] in H.
    destruct (run_body_keeps _ _ _ B) as (Hs & [e He] & [t Ht] & G & _).
    destruct (IH _ _ H) as (Js & G' & es & ts & Je & Jt & Le & Lt).
    split; [lia|]. split; [exact (Grows_trans _ _ _ G G')|].
    exists (e :: es), (t :: ts).
    rewrite Je, Jt, He, Ht, <- !app_assoc. cbn [app length].
    repeat split; congruence.
Qed.

(** With a probability in (0, 1] [doit] decides: it does not raise. *)
Lemma doit_decides prob (s : St) :
  (0 < prob)%Q -> (prob <= 1)%Q -> exists go, fst (doit W prob s) = Ok go.
Proof.
  intros P0 P1. unfold doit, random_choice.
  assert (T : Qle_bool 0 prob && Qle_bool prob 1 = true).
  { apply andb_true_intro. split; apply Qle_bool_iff;
      [now apply Qlt_le_weak | exact P1]. }
  rewrite T. destruct (extremum s).
  - destruct (negb _ && _); cbn [fst]; eauto.
  - destruct (volatile s && _); cbn [fst]; eauto.
Qed.

Lemma decide_and_update_returns prob (s : St) :
  leakages_sound GP -> (prob <= 1)%Q ->
  exists r, decide_and_update GP W prob s = Ok r.
Proof.
  intros L P1. unfold decide_and_update.
  destruct (Qltb 0 prob) eqn:P0; [|eauto]. apply Qltb_lt in P0.
  destruct (doit_decides prob s P0 P1) as [go Hgo].
  destruct (doit W prob s) as [decision s1]. cbn [fst] in Hgo. subst decision.
  cbn [bind]. destruct go; [|eauto].
  destruct (update_model_returns _ _ _ GP W (log MsgUpdating s1) L)
    as (tf & s3 & ->).
  cbn [bind]. eauto.
Qed.

Lemma run_loop_returns n prob :
  leakages_sound GP -> (prob <= 1)%Q ->
  forall s : St, exists s', run_loop GP W n prob s = Ok s'.
Proof.
  intros L P1. induction n as [|n IH]; intros s; cbn [run_loop]; [eauto|].
  unfold run_body.
  destruct (decide_and_update_returns prob s L P1) as [[b s0] ->]. cbn [bind].
  destruct (get_potential_energy W (dyn_step W s0)) as [e s3]. cbn [bind].
  apply IH.
Qed.

(** X7.  With a surrogate that ranks as many environments as it is given
    and a probability that is at most 1 (numpy refuses a larger one when a
    draw is made), [run(maxsteps)] returns.  It advances the step counter
    by [maxsteps] (by nothing when [maxsteps] is negative) and appends one
    energy and one temperature for each step; the surrogate and the records
    of the driver only grow, and the configuration is untouched. *)
Theorem run_advances (maxsteps : Z) prob (s : St) :
  leakages_sound GP ->
  (prob <= 1)%Q ->
  exists s',
    run GP W maxsteps prob s = Ok s'
    /\ step s' = step s + Z.max 0 maxsteps
    /\ Grows s s'
    /\ exists es ts,
        energy s' = energy s ++ es /\ temperature s' = temperature s ++ ts
        /\ len es = Z.max 0 maxsteps /\ len ts = Z.max 0 maxsteps.
Proof.
  intros L P1. unfold run.
  destruct (run_loop_returns (Z.to_nat maxsteps) prob L P1 s) as [s' H].
  exists s'. split; [exact H|].
  destruct (run_loop_shape _ _ _ _ H) as (Hs & G & es & ts & He & Ht & Le & Lt).
  split; [lia|]. split; [exact G|].
  exists es, ts. unfold len. rewrite Le, Lt. repeat split; try assumption; lia.
Qed.

(** X8.  Once the driver has left the volatile state it does not come
    back to it: a run that starts with [volatile()] false ends with
    [volatile()] false. *)
Theorem volatile_never_returns (maxsteps : Z) prob (s s' : St) :
  run GP W maxsteps prob s = Ok s' ->
  volatile s = false ->
  volatile s' = false.
Proof.
  unfold run. intros H V.
  destruct (run_loop_shape _ _ _ _ H) as (_ & [Gc _ _ [l Ge] _] & _).
  unfold volatile, len in *. rewrite Gc, Ge, length_app.
  apply Z.leb_gt in V. apply Z.leb_gt. lia.
Qed.

Lemma spaced_down_weaken l :
  forall b b', b <= b' -> spaced_down l b -> spaced_down l b'.
Proof.
  destruct l as [|x r]; intros b b' H S; [exact I|].
  cbn [spaced_down] in *. split; [lia | tauto].
Qed.

Lemma spaced_down_bounds l :
  forall b, spaced_down l b -> Forall (fun k => 0 <= k < b) l.
Proof.
  induction l as [|x r IH]; intros b S; [constructor|].
  cbn [spaced_down] in S. destruct S as [Hx Hr]. constructor; [exact Hx|].
  eapply Forall_impl; [|exact (IH _ Hr)]. cbn. intros k Hk. lia.
Qed.

Lemma spaced_down_tighten (ext : list Z) b :
  spaced_down (rev ext) b ->
  ~ (exists l, ext = l ++ [b - 1]) ->
  spaced_down (rev ext) (b - 1).
Proof.
  intros S N. destruct (rev ext) as [|x r] eqn:E; [exact I|].
  apply rev_cons_inv in E. cbn [spaced_down] in *. split; [|tauto].
  assert (x <> b - 1) by (intros ->; apply N; eauto). lia.
Qed.

Lemma Forall_repeat {A} (P : A -> Prop) (x : A) n :
  P x -> Forall P (repeat x n).
Proof. intros H. induction n; cbn; constructor; assumption. Qed.

Lemma run_body_consistent prob (s s' : St) :
  Consistent s -> run_body GP W prob s = Ok s' -> Consistent s'.
Proof.
  intros [Cs Ce Ct Cx Cf Cfe Ctr] H.
  destruct (run_body_keeps _ _ _ H)
    as (Hs & [e He] & [t Ht] & _ & Hx & n & _ & Hf & Hfe & Htr).
  constructor.
  - lia.
  - rewrite He, Hs. unfold len in *. rewrite length_app. cbn [length]. lia.
  - rewrite Ht, Hs. unfold len in *. rewrite length_app. cbn [length]. lia.
  - rewrite Hs. destruct Hx as [->|[-> N]].
    + apply (spaced_down_weaken _ (step s)); [lia | exact Cx].
    + rewrite rev_app_distr. cbn [rev app spaced_down].
      split; [lia|]. now apply spaced_down_tighten.
  - rewrite Hf, Hs. apply Forall_app. split.
    + eapply Forall_impl; [|exact Cf]. cbn. intros k Hk. lia.
    + apply Forall_repeat. lia.
  - rewrite Hfe, Hf, length_app, repeat_length. lia.
  - rewrite Htr, Hf, length_app, repeat_length. lia.
Qed.

Lemma run_loop_consistent n prob :
  forall s s' : St,
    Consistent s -> run_loop GP W n prob s = Ok s' -> Consistent s'.
Proof.
  induction n as [|n IH]; intros s s' C H; cbn [run_loop] in H.
  - now injection H as <-.
  - destruct (run_body GP W prob s) as [s1| |] eqn:B; try discriminate.
    cbn [bind] in H. eapply IH; [|exact H].
    eapply run_body_consistent; eassumption.
Qed.

Lemma py_index_in_range {A} (l : list A) (k : Z) :
  0 <= k < len l ->
  exists x, py_index l k = Ok x /\ nth_error l (Z.to_nat k) = Some x.
Proof.
  intros H. unfold py_index.
  assert (T : (k <? 0) = false) by (apply Z.ltb_ge; lia). rewrite T, T.
  destruct (nth_error l (Z.to_nat k)) as [x|] eqn:E; [eauto|].
  apply nth_error_None in E. unfold len in H. lia.
Qed.

Lemma comprehension_in_range {A} (l : list A) (ks : list Z) :
  Forall (fun k => 0 <= k < len l) ks ->
  exists xs,
    comprehension (py_index l) ks = Ok xs
    /\ Forall2 (fun k x => nth_error l (Z.to_nat k) = Some x) ks xs.
Proof.
  induction 1 as [|k ks Hk _ (xs & Hc & Hf)]; cbn [comprehension].
  - exists []. split; [reflexivity | constructor].
  - destruct (py_index_in_range l k Hk) as (x & -> & Hx). cbn [bind].
    rewrite Hc. cbn [bind]. exists (x :: xs). split; [reflexivity|].
    now constructor.
Qed.

(** X9.  [run] keeps the records of the driver consistent: after it, as
    before it, there is one energy and one temperature for each step so
    far, the flagged steps are past steps in increasing order with no two
    of them next to each other, and every reference evaluation is recorded
    with a past step, its energy and its structure. *)
Theorem run_keeps_consistent (maxsteps : Z) prob (s s' : St) :
  Consistent s ->
  run GP W maxsteps prob s = Ok s' ->
  Consistent s'.
Proof. intros C H. exact (run_loop_consistent _ _ _ _ C H). Qed.

(** X10.  On consistent records [ext_nodes] does not raise: it returns
    the flagged steps with, for each flagged step [k], the energy
    [energy[k]] of that step. *)
Theorem ext_nodes_energies (s : St) :
  Consistent s ->
  exists es,
    ext_nodes s = Ok (_ext s, es)
    /\ Forall2 (fun k e => nth_error (energy s) (Z.to_nat k) = Some e)
         (_ext s) es.
Proof.
  intros [Cs Ce _ Cx _ _ _].
  unfold ext_nodes.
  destruct (comprehension_in_range (energy s) (_ext s)) as (es & -> & F).
  - apply spaced_down_bounds in Cx. apply Forall_rev in Cx.
    rewrite rev_involutive in Cx.
    eapply Forall_impl; [|exact Cx]. cbn. intros k Hk. lia.
  - cbn [bind]. eauto.
Qed.

Lemma run_body_without_updates prob (s : St) :
  ~ (0 < prob)%Q ->
  exists s',
    run_body GP W prob s = Ok s'
    /\ model s' = model s /\ cfg s' = cfg s
    /\ _ext s' = _ext s /\ _fp s' = _fp s /\ calls s' = calls s
    /\ data_plus s' = data_plus s /\ ref_plus s' = ref_plus s
    /\ count is_updating (new_log s s') = 0.
Proof.
  intros P.
  assert (T : Qltb 0 prob = false).
  { destruct (Qltb 0 prob) eqn:E; [|reflexivity].
    apply Qltb_lt in E. contradiction. }
  unfold run_body, decide_and_update. rewrite T. cbn [bind].
  unfold dyn_step, get_potential_energy, get_results.
  destruct (dyn_run W (model s) (results s) (atoms s)) as [a r].
  cbn [results set_step set_results set_atoms].
  destruct r as [r|]; cbn; eexists; (split; [reflexivity|]); cbn;
    unfold new_log; cbn; rewrite appended_app; repeat split; reflexivity.
Qed.

Lemma run_loop_without_updates n prob :
  ~ (0 < prob)%Q ->
  forall s : St,
  exists s',
    run_loop GP W n prob s = Ok s'
    /\ model s' = model s /\ cfg s' = cfg s
    /\ _ext s' = _ext s /\ _fp s' = _fp s /\ calls s' = calls s
    /\ data_plus s' = data_plus s /\ ref_plus s' = ref_plus s.
Proof.
  intros P. induction n as [|n IH]; intros s; cbn [run_loop].
  - exists s. repeat split; reflexivity.
  - destruct (run_body_without_updates prob s P)
      as (s1 & -> & Hm & Hc & He & Hf & Hk & Hd & Hr & _).
    cbn [bind].
    destruct (IH s1) as (s' & H & Jm & Jc & Je & Jf & Jk & Jd & Jr).
    exists s'. split; [exact H|]. repeat split; congruence.
Qed.

(** X11.  With [prob <= 0], [run] only moves the simulation: it returns
    for any surrogate, never calls [doit] or [update_model], and so leaves
    the surrogate, the reference evaluations, the recorded additions and
    also the flagged steps as they were: no extremum is recorded. *)
Theorem run_without_updates (maxsteps : Z) prob (s : St) :
  ~ (0 < prob)%Q ->
  exists s',
    run GP W maxsteps prob s = Ok s'
    /\ model s' = model s /\ cfg s' = cfg s
    /\ _ext s' = _ext s /\ _fp s' = _fp s /\ calls s' = calls s
    /\ data_plus s' = data_plus s /\ ref_plus s' = ref_plus s.
Proof. intros P. apply run_loop_without_updates. exact P. Qed.

(** X12.  [run_updates] with [maxupdates <= 0] makes no step and raises
    [ZeroDivisionError], whatever the probability. *)
Theorem run_updates_needs_a_positive_count fuel maxupdates prob (s : St) :
  maxupdates <= 0 ->
  run_updates GP W fuel maxupdates prob s = Raise ZeroDivisionError.
Proof.
  intros H. unfold run_updates.
  assert (T : (0 <? maxupdates) = false) by (apply Z.ltb_ge; lia).
  assert (L : run_updates_loop GP W fuel maxupdates prob (mkCounters 0 0 []) s
              = Ok (mkCounters 0 0 [], s)).
  { destruct fuel; cbn [run_updates_loop updates]; now rewrite T. }
  rewrite L. reflexivity.
Qed.

(** X13.  [run_updates] with [prob <= 0] and a positive [maxupdates] does
    not end: no amount of fuel lets it return or raise. *)
Theorem run_updates_without_updates_diverges fuel maxupdates prob (s : St) :
  ~ (0 < prob)%Q ->
  0 < maxupdates ->
  run_updates GP W fuel maxupdates prob s = OutOfFuel.
Proof.
  intros P H. unfold run_updates.
  rewrite (run_updates_never_returns _ _ _ GP W fuel maxupdates prob P
             (mkCounters 0 0 []) s H).
  reflexivity.
Qed.

(** What [run_updates] returns or raises does not depend on the fuel: once
    the fuel is enough for an answer, more fuel gives the same answer. *)
Lemma run_updates_fuel fuel extra maxupdates prob (s : St) :
  run_updates GP W fuel maxupdates prob s <> OutOfFuel ->
  run_updates GP W (fuel + extra) maxupdates prob s
  = run_updates GP W fuel maxupdates prob s.
Proof.
  unfold run_updates. intros H.
  rewrite run_updates_loop_fuel; [reflexivity|].
  intros E. apply H. now rewrite E.
Qed.

End Trajectory.

(** *** initial_model *)

Section InitialModel.

Variables Atoms Loc Forces : Type.
Variable GP : Oracle Atoms Loc Forces.
Variable W : World Atoms Loc Forces.

Lemma skipped_In (i : list nat) (j : nat) :
  existsb (Nat.eqb j) i = true <-> In j i.
Proof.
  rewrite existsb_exists. split.
  - intros (x & Hx & E). apply Nat.eqb_eq in E. now subst.
  - intros H. exists j. split; [exact H | apply Nat.eqb_refl].
Qed.

Lemma comprehension_loc_at (ls : list Loc) (i : list nat) :
  Forall (fun j => (j < length ls)%nat) i ->
  exists firsts,
    comprehension (loc_at ls) i = Ok firsts
    /\ Forall2 (fun j loc => nth_error ls j = Some loc) i firsts.
Proof.
  induction 1 as [|j i Hj _ (firsts & Hc & Hf)]; cbn [comprehension].
  - exists []. split; [reflexivity | constructor].
  - unfold loc_at at 1. destruct (nth_error ls j) as [loc|] eqn:E.
    + cbn [bind]. rewrite Hc. cbn [bind]. exists (loc :: firsts).
      split; [reflexivity | now constructor].
    + apply nth_error_None in E. lia.
Qed.

Lemma initial_loop_spec (ls : list Loc) (i : list nat) thr js :
  forall m : Model Atoms Loc Forces,
    Forall (fun j => (j < length ls)%nat) js ->
    exists rest,
      initial_loop GP ls i thr js m
      = Ok (mkModel (data m) (X m ++ rest))
      /\ Forall (fun loc => exists j, In j js /\ ~ In j i
                                    /\ nth_error ls j = Some loc) rest
      /\ (length rest
          <= length (filter (fun j => negb (existsb (Nat.eqb j) i)) js))%nat.
Proof.
  induction js as [|j js IH]; intros m H; cbn [initial_loop filter].
  - exists []. rewrite app_nil_r, model_eta.
    split; [reflexivity|]. split; [constructor | cbn; lia].
  - inversion H as [|? ? Hj Hjs]; subst.
    destruct (existsb (Nat.eqb j) i) eqn:E; cbn [negb].
    + destruct (IH m Hjs) as (rest & -> & F & L). exists rest.
      split; [reflexivity|]. split; [|exact L].
      eapply Forall_impl; [|exact F]. cbn. intros loc (k & Hk & R).
      exists k. split; [now right | exact R].
    + unfold loc_at. destruct (nth_error ls j) as [loc|] eqn:N;
        [|apply nth_error_None in N; lia].
      cbn [bind]. unfold add_1inducing. cbn [fst].
      assert (Nj : ~ In j i).
      { intros I. apply skipped_In in I. congruence. }
      destruct (inducing_kept GP m loc thr).
      * destruct (IH (mkModel (data m) (X m ++ [loc])) Hjs)
          as (rest & -> & F & L).
        exists (loc :: rest). cbn [data X]. rewrite <- app_assoc.
        split; [reflexivity|]. split; [|cbn [length]; lia].
        constructor; [exists j; repeat split; [now left | exact Nj | exact N]|].
        eapply Forall_impl; [|exact F]. cbn. intros l' (k & Hk & R).
        exists k. split; [now right | exact R].
      * destruct (IH m Hjs) as (rest & -> & F & L). exists rest.
        split; [reflexivity|]. split; [|cbn [length]; lia].
        eapply Forall_impl; [|exact F]. cbn. intros l' (k & Hk & R).
        exists k. split; [now right | exact R].
Qed.

Lemma others_count (i : list nat) (n : nat) :
  NoDup i ->
  Forall (fun j => (j < n)%nat) i ->
  (length (filter (fun j => negb (existsb (Nat.eqb j) i)) (seq 0 n))
   + length i = n)%nat.
Proof.
  intros Nd B.
  pose proof (filter_length (fun j => existsb (Nat.eqb j) i) (seq 0 n)) as F.
  rewrite length_seq in F.
  assert (L : length (filter (fun j => existsb (Nat.eqb j) i) (seq 0 n))
              = length i).
  { apply Nat.le_antisymm.
    - apply NoDup_incl_length; [apply NoDup_filter, seq_NoDup|].
      intros j Hj. apply filter_In in Hj. now apply skipped_In.
    - apply NoDup_incl_length; [exact Nd|].
      intros j Hj. apply filter_In. split; [|now apply skipped_In].
      apply in_seq. pose proof (proj1 (Forall_forall _ _) B j Hj) as Q.
      cbn in Q. lia. }
  lia.
Qed.

(** X14.  [initial_model] on a structure whose indices are in range
    returns a surrogate whose training data are that one structure and
    whose inducing set begins with the environments of the first atom of
    each type, in the order given; every further inducing point is the
    environment of one of the other atoms.  When the first atoms are
    distinct atoms of the structure, the inducing points are no more than
    the atoms. *)
Theorem initial_model_spec (i : list nat) (natoms : nat)
  (atoms : Snapshot Atoms Forces) (thr : Q) :
  Forall (fun j => (j < length (locs W (snap_atoms atoms)))%nat) i ->
  (natoms <= length (locs W (snap_atoms atoms)))%nat ->
  exists m firsts rest,
    initial_model GP W i natoms atoms thr = Ok m
    /\ data m = [atoms]
    /\ X m = firsts ++ rest
    /\ Forall2 (fun j loc => nth_error (locs W (snap_atoms atoms)) j = Some loc)
         i firsts
    /\ Forall (fun loc =>
                exists j, (j < natoms)%nat /\ ~ In j i
                          /\ nth_error (locs W (snap_atoms atoms)) j = Some loc)
         rest
    /\ (NoDup i -> Forall (fun j => (j < natoms)%nat) i ->
        (length (X m) <= natoms)%nat).
Proof.
  intros Hi Hn. unfold initial_model.
  destruct (comprehension_loc_at _ i Hi) as (firsts & -> & F2). cbn [bind].
  destruct (initial_loop_spec (locs W (snap_atoms atoms)) i thr (seq 0 natoms)
              (mkModel [atoms] firsts)) as (rest & -> & F & L).
  { apply Forall_forall. intros j Hj. apply in_seq in Hj. lia. }
  exists (mkModel [atoms] (firsts ++ rest)), firsts, rest. cbn [data X].
  repeat (split; [first [reflexivity | assumption]|]).
  split.
  - eapply Forall_impl; [|exact F]. cbn. intros loc (j & Hj & R).
    exists j. apply in_seq in Hj. split; [lia | exact R].
  - intros Nd B. pose proof (others_count i natoms Nd B) as C.
    rewrite length_app, <- (Forall2_length F2). lia.
Qed.

End InitialModel.

Lemma initial_model_spec_witness :
  exists m,
    initial_model keen demo_world [0%nat] 1 (mkSnapshot 0 10%Q tt) (1 # 10)
    = Ok m
    /\ data m = [mkSnapshot 0 10%Q tt].
Proof.
  destruct (initial_model_spec Z Z unit keen demo_world [0%nat] 1
              (mkSnapshot 0 10%Q tt) (1 # 10))
    as (m & firsts & rest & H & D & _).
  - repeat constructor.
  - cbn. lia.
  - exists m. split; assumption.
Defined.

(** *** The further properties at work on the small world *)

Lemma sated_sound : leakages_sound sated.
Proof. intros m ls. apply length_map. Qed.

Lemma demo_start_consistent alg vol skp : Consistent (demo_start alg vol skp).
Proof.
  constructor; cbn; try reflexivity; try constructor; lia.
Qed.

Lemma undo_update_keeps_records_witness :
  _fp demo_undone = _fp demo_updated
  /\ results demo_undone = results demo_updated.
Proof.
  destruct (undo_update_keeps_records Z Z unit keen demo_world
              (demo_start fast 2 1) true demo_updated demo_undone)
    as (A & _ & _ & B & _);
    [vm_compute; reflexivity | vm_compute; reflexivity |].
  split; assumption.
Defined.


Lemma run_composes_witness :
  run sated demo_world (2 + 1) 1 (demo_start fast (-1) 10)
  = (s1 <- run sated demo_world 2 1 (demo_start fast (-1) 10) ;;
     run sated demo_world 1 1 s1).
Proof.
  apply (run_composes Z Z unit sated demo_world 2 1 1
           (demo_start fast (-1) 10)); lia.
Defined.

(** With a probability above 1 the draw of [doit] raises: on the small
    world with [skip=1], step 2 is flagged and the draw is reached. *)
Lemma run_refuses_probability_above_1 :
  run sated demo_world 3 2 (demo_start fast (-1) 1) = Raise ValueError.
Proof. vm_compute. reflexivity. Qed.

Lemma run_advances_witness :
  exists s',
    run keen demo_world 3 1 (demo_start fast 2 1) = Ok s'
    /\ step s' = step (demo_start fast 2 1) + Z.max 0 3.
Proof.
  destruct (run_advances Z Z unit keen demo_world 3 1 (demo_start fast 2 1)
              keen_sound) as (s' & A & B & _).
  - intros H. vm_compute in H. discriminate H.
  - exists s'. split; assumption.
Defined.

Lemma volatile_never_returns_witness : volatile (demo_run 3) = false.
Proof.
  apply (volatile_never_returns Z Z unit sated demo_world 3 1
           (demo_start fast (-1) 10) (demo_run 3));
    vm_compute; reflexivity.
Defined.

Lemma run_keeps_consistent_witness : Consistent (demo_run 3).
Proof.
  apply (run_keeps_consistent Z Z unit sated demo_world 3 1
           (demo_start fast (-1) 10) (demo_run 3)).
  - apply demo_start_consistent.
  - vm_compute. reflexivity.
Defined.

(** After the steps 0, 1, 2 of the small world, step 2 is flagged, and
    [ext_nodes] gives it with its energy. *)
Lemma ext_nodes_energies_witness :
  exists es,
    ext_nodes (demo_run 3) = Ok ([2], es)
    /\ Forall2 (fun k e => nth_error [1; 2; 1; 2]%Q (Z.to_nat k) = Some e)
         [2] es.
Proof.
  apply (ext_nodes_energies Z Z unit (demo_run 3)).
  apply (run_loop_consistent Z Z unit sated demo_world 3 1
           (demo_start fast (-1) 10) (demo_run 3)).
  - apply demo_start_consistent.
  - vm_compute. reflexivity.
Defined.

Lemma run_without_updates_witness :
  exists s',
    run sated demo_world 3 0 (demo_start fast 2 1) = Ok s'
    /\ model s' = model (demo_start fast 2 1).
Proof.
  destruct (run_without_updates Z Z unit sated demo_world 3 0
              (demo_start fast 2 1)) as (s' & A & B & _).
  - intros H. vm_compute in H. discriminate H.
  - exists s'. split; assumption.
Defined.

Lemma run_updates_needs_a_positive_count_witness :
  run_updates sated demo_world 5 0 1 (demo_start fast (-1) 1)
  = Raise ZeroDivisionError.
Proof.
  apply (run_updates_needs_a_positive_count Z Z unit sated demo_world 5 0 1).
  lia.
Defined.

Lemma run_updates_without_updates_diverges_witness :
  run_updates sated demo_world 5 1 0 (demo_start fast (-1) 1) = OutOfFuel.
Proof.
  apply (run_updates_without_updates_diverges Z Z unit sated demo_world 5 1 0).
  - intros H. vm_compute in H. discriminate H.
  - lia.
Defined.

End LeapfrogSpec.
